(** * traKmeter: meter segment widget and dither unit

    Shallow embedding of
    - [Source/common/widgets/generic_meter_segment.cpp] (class
      [GenericMeterSegment]), over IEEE-754 binary32 arithmetic, and
    - [Source/common/audio/dither.h] (class [Dither]); the header only
      declares the class, so the behaviour of its two entry points is
      modelled from the design document.

    Layout: definitions first (binary32, the widget, the dither unit), then
    the facts about them. *)

From Stdlib Require Import ZArith Bool List Lia Permutation.
From Stdlib Require Import QArith Qpower Qcanon Qround Lqa.
From Stdlib Require Import Floats.SpecFloat.
Import ListNotations.

Local Open Scope Z_scope.

(* ===================================================================== *)
(** * Binary32 arithmetic (the C++ type [float])                          *)
(* ===================================================================== *)

(** A C++ [float] is an IEEE-754 binary32 number: 24 bits of precision,
    exponent of the infinities 128, every operation rounded to nearest,
    ties to even.  The operations are the ones of the standard library's
    [SpecFloat] at that format. *)
Module F32.

Definition prec : Z := 24.
Definition emax : Z := 128.

Definition float : Type := spec_float.

Definition add : float -> float -> float := SFadd prec emax.
Definition sub : float -> float -> float := SFsub prec emax.
Definition mul : float -> float -> float := SFmul prec emax.
Definition div : float -> float -> float := SFdiv prec emax.

(** C++ relational operators; every comparison with a NaN is false,
    except [!=], which is true. *)
Definition ltb (x y : float) : bool := SFltb x y.
Definition geb (x y : float) : bool := SFleb y x.
Definition leb (x y : float) : bool := SFleb x y.
Definition neb (x y : float) : bool := negb (SFeqb x y).

(** Conversion of an integer, rounded to nearest. *)
Definition of_Z (z : Z) : float := binary_normalize prec emax z 0 false.

(** The value a compiler gives the decimal literal [a/b] for small
    integers [a], [b]: both are exact in binary32 and the division is
    correctly rounded. *)
Definition of_ratio (a b : Z) : float := div (of_Z a) (of_Z b).

Definition is_nan (x : float) : bool :=
  match x with S754_nan => true | _ => false end.

Definition is_finite (x : float) : bool :=
  match x with S754_zero _ | S754_finite _ _ _ => true | _ => false end.

(** Well-formed binary32 datum (canonical mantissa, exponent in range). *)
Definition valid (x : float) : bool := valid_binary prec emax x.

Definition zero : float := S754_zero false.
Definition one : float := S754_finite false 8388608 (-23).
Definition nan : float := S754_nan.

(** The literals of generic_meter_segment.cpp. *)
Definition lit_0_97 : float := S754_finite false 16273900 (-24). (* 0.97f *)
Definition lit_0_90 : float := S754_finite false 15099494 (-24). (* 0.90f *)
Definition lit_0_25 : float := S754_finite false 8388608 (-25).  (* 0.25f *)
Definition lit_0_30 : float := S754_finite false 10066330 (-25). (* 0.30f *)
Definition lit_0_72 : float := S754_finite false 12079596 (-24). (* 0.72f *)
Definition lit_0_60 : float := S754_finite false 10066330 (-24). (* 0.60f *)
Definition lit_m144 : float := S754_finite true 9437184 (-16).   (* -144.0f *)

(** [0.60f + 0.30f], the successor of [0.90f]. *)
Definition lit_0_90_up : float := S754_finite false 15099495 (-24).

End F32.

(* ===================================================================== *)
(** * Binary32 rounding: notions used to reason about it                  *)
(* ===================================================================== *)

Abbreviation fexp32 := (fexp F32.prec F32.emax).

(** The rounding information [SpecFloat] keeps about the fraction [a / b]
    once it is truncated to [a / b] (integer division): exact, or below,
    at, or above one half. *)
Definition loc_spec (a b : Z) : location :=
  if a mod b =? 0 then loc_Exact else loc_Inexact (2 * (a mod b) ?= b).

(** A shift record describes the fraction [a / b]. *)
Definition shr_inv (a b : Z) (mrs : shr_record) : Prop :=
  shr_m mrs = a / b /\ loc_of_shr_record mrs = loc_spec a b.

(** The second half of [binary_round_aux]: renormalisation after the
    mantissa has been rounded, and the overflow test. *)
Definition round_finish (sx : bool) (m E : Z) : spec_float :=
  let '(mrs, e) := shr_fexp F32.prec F32.emax m E loc_Exact in
  match shr_m mrs with
  | Z0 => S754_zero sx
  | Zpos p => if e <=? F32.emax - F32.prec then S754_finite sx p e
              else S754_infinity sx
  | Zneg _ => S754_nan
  end.

(** [R] carries the rounded mantissa [m] at exponent [E]: a zero, or a
    canonical mantissa and exponent of the same value (an infinity when the
    exponent is out of range). *)
Definition round_result (sx : bool) (m E : Z) (R : spec_float) : Prop :=
  (m = 0 /\ R = S754_zero sx)
  \/ exists m3 e3,
       E <= e3
       /\ Zpos m3 * 2 ^ (e3 - E) = m
       /\ canonical_mantissa F32.prec F32.emax m3 e3 = true
       /\ R = if e3 <=? F32.emax - F32.prec then S754_finite sx m3 e3
              else S754_infinity sx.

(** The rational [m * 2^e]. *)
Definition mag (m e : Z) : Q := (inject_Z m * 2 ^ e)%Q.

Definition canonical (m : positive) (e : Z) : Prop :=
  canonical_mantissa F32.prec F32.emax m e = true.

(** What [binary_round_aux] needs of a truncated mantissa and exponent to
    round correctly: the exponent is not above the canonical one. *)
Definition round_pre (mx ex : Z) : Prop :=
  (0 < mx /\ ex <= fexp32 (Zdigits2 mx + ex)) \/ (mx = 0 /\ ex <= -149).

Definition sgn (s : bool) (q : Q) : Q := if s then (- q)%Q else q.

(** The rational value of a finite binary32 number (0 for the others). *)
Definition F2Q (f : spec_float) : Q :=
  match f with
  | S754_finite s m e => sgn s (mag (Zpos m) e)
  | _ => 0%Q
  end.

(** [R] is the binary32 rounding of the exact value [v]: either [R] is
    finite and holds [v] exactly, or [R] is [binary_round_aux] run on a
    correctly described truncation of [v]. *)
Definition rounds_to (R : spec_float) (v : Q) : Prop :=
  (F32.is_finite R = true /\ F32.valid R = true /\ (F2Q R == v)%Q)
  \/ exists sx mx ex lx a b,
       0 < a /\ 0 < b /\ mx = a / b /\ lx = loc_spec a b
       /\ round_pre mx ex
       /\ R = binary_round_aux F32.prec F32.emax sx mx ex lx
       /\ (sgn sx (mag a ex) == inject_Z b * v)%Q.

(** An order embedding of the binary32 numbers into the rationals: the
    infinities sit beyond every finite value. *)
Definition F2Qx (f : spec_float) : Q :=
  match f with
  | S754_infinity s => sgn s (2 ^ 200)%Q
  | _ => F2Q f
  end.

(** The fraction [a / B] rounded to the nearest integer, ties to even, as
    [binary_round_aux] computes it from the truncation and its location. *)
Definition rne (a B : Z) : Z := round_nearest_even (a / B) (loc_spec a B).

(** [a / B] at exponent [E] is a truncated mantissa in canonical form. *)
Definition cell (a B E : Z) : Prop :=
  0 <= a /\ 0 < B /\ -149 <= E
  /\ (a / B = 0 -> E = -149)
  /\ (0 < a / B -> fexp32 (Zdigits2 (a / B) + E) = E).

(* ===================================================================== *)
(** * GenericMeterSegment (generic_meter_segment.cpp)                     *)
(* ===================================================================== *)

(** The data members the member functions below read or write.
    [repaintRequests] counts the calls to the inherited JUCE
    [Component::repaint]; [colPeak] is only touched by [setColour] and
    [paint] and is left out. *)
Record GenericMeterSegment : Type := mkSegment {
  lowerThreshold : F32.float;
  thresholdRange : F32.float;
  upperThreshold : F32.float;
  hasHighestLevel : bool;
  lightPeakMarker : bool;
  fBrightness : F32.float;
  fBrightnessOutline : F32.float;
  fHue : F32.float;
  repaintRequests : nat
}.

(** [float GenericMeterSegment::setThresholds(float, float, bool)],
    lines 84-102: returns the new upper threshold and the new state. *)
Definition setThresholds (s : GenericMeterSegment)
    (fLowerThreshold fDisplayRange : F32.float) (bHasHighestLevel : bool)
    : F32.float * GenericMeterSegment :=
  let upper := F32.add fLowerThreshold fDisplayRange in
  (upper,
   {| lowerThreshold := fLowerThreshold;
      thresholdRange := fDisplayRange;
      upperThreshold := upper;
      hasHighestLevel := bHasHighestLevel;
      lightPeakMarker := false;
      fBrightness := fBrightness s;
      fBrightnessOutline := fBrightnessOutline s;
      fHue := fHue s;
      repaintRequests := repaintRequests s |}).

(** Lines 177-209: the pair (fBrightness, fBrightnessOutline) chosen by the
    four-way conditional. *)
Definition levelBrightness (s : GenericMeterSegment)
    (normalLevel discreteLevel : F32.float) : F32.float * F32.float :=
  if F32.geb normalLevel (upperThreshold s) then
    (F32.lit_0_97, F32.lit_0_90)
  else if F32.geb discreteLevel (lowerThreshold s)
          && F32.ltb discreteLevel (upperThreshold s) then
    (F32.lit_0_97, F32.lit_0_90)
  else if F32.ltb normalLevel (lowerThreshold s) then
    (F32.lit_0_25, F32.lit_0_30)
  else
    let b := F32.div (F32.sub normalLevel (lowerThreshold s))
                     (thresholdRange s) in
    (F32.add (F32.mul b F32.lit_0_72) F32.lit_0_25,
     F32.add (F32.mul b F32.lit_0_60) F32.lit_0_30).

(** Lines 211-251: the new value of [lightPeakMarker]. *)
Definition levelPeakMarker (s : GenericMeterSegment)
    (normalLevelPeak discreteLevelPeak : F32.float) : bool :=
  if hasHighestLevel s then
    if F32.geb normalLevelPeak (lowerThreshold s) then true
    else if F32.geb discreteLevelPeak (lowerThreshold s) then true
    else false
  else
    if F32.geb normalLevelPeak (lowerThreshold s)
       && F32.ltb normalLevelPeak (upperThreshold s) then true
    else if F32.geb discreteLevelPeak (lowerThreshold s)
            && F32.ltb discreteLevelPeak (upperThreshold s) then true
    else false.

(** [void GenericMeterSegment::setLevels(float, float, float, float)],
    lines 171-259. *)
Definition setLevels (s : GenericMeterSegment)
    (normalLevel discreteLevel normalLevelPeak discreteLevelPeak : F32.float)
    : GenericMeterSegment :=
  let fBrightnessOld := fBrightness s in
  let lightPeakMarkerOld := lightPeakMarker s in
  let '(b, o) := levelBrightness s normalLevel discreteLevel in
  let p := levelPeakMarker s normalLevelPeak discreteLevelPeak in
  {| lowerThreshold := lowerThreshold s;
     thresholdRange := thresholdRange s;
     upperThreshold := upperThreshold s;
     hasHighestLevel := hasHighestLevel s;
     lightPeakMarker := p;
     fBrightness := b;
     fBrightnessOutline := o;
     fHue := fHue s;
     repaintRequests :=
       if F32.neb b fBrightnessOld || negb (Bool.eqb p lightPeakMarkerOld)
       then S (repaintRequests s) else repaintRequests s |}.

(** Lines 157-161. *)
Definition setNormalLevels (s : GenericMeterSegment)
    (normalLevel normalLevelPeak : F32.float) : GenericMeterSegment :=
  setLevels s normalLevel F32.lit_m144 normalLevelPeak F32.lit_m144.

(** Lines 164-168. *)
Definition setDiscreteLevels (s : GenericMeterSegment)
    (discreteLevel discreteLevelPeak : F32.float) : GenericMeterSegment :=
  setLevels s F32.lit_m144 discreteLevel F32.lit_m144 discreteLevelPeak.

(** The constructor, lines 29-76.  [raw] is the storage before
    construction; every member except the repaint count is overwritten. *)
Definition newGenericMeterSegment (raw : GenericMeterSegment)
    (fLowerThreshold fDisplayRange : F32.float) (bHasHighestLevel : bool)
    : GenericMeterSegment :=
  let s1 := snd (setThresholds raw fLowerThreshold fDisplayRange
                               bHasHighestLevel) in
  let s2 := {| lowerThreshold := lowerThreshold s1;
               thresholdRange := thresholdRange s1;
               upperThreshold := upperThreshold s1;
               hasHighestLevel := hasHighestLevel s1;
               lightPeakMarker := lightPeakMarker s1;
               fBrightness := F32.zero;
               fBrightnessOutline := F32.zero;
               fHue := F32.zero;
               repaintRequests := repaintRequests s1 |} in
  setLevels s2 F32.lit_m144 F32.lit_m144 F32.lit_m144 F32.lit_m144.

(** Zero-filled storage, used to build concrete segments. *)
Definition blankSegment : GenericMeterSegment :=
  mkSegment F32.zero F32.zero F32.zero false false
            F32.zero F32.zero F32.zero 0%nat.

(** What [setThresholds] establishes and no other member function
    disturbs: the upper threshold is the rounded sum of the other two. *)
Definition thresholdsConsistent (s : GenericMeterSegment) : Prop :=
  upperThreshold s = F32.add (lowerThreshold s) (thresholdRange s).

(** The range the brightness members are claimed to stay in. *)
Definition brightnessInRange (s : GenericMeterSegment) : bool :=
  F32.leb F32.lit_0_25 (fBrightness s)
  && F32.leb (fBrightness s) F32.lit_0_97
  && F32.leb F32.lit_0_30 (fBrightnessOutline s)
  && F32.leb (fBrightnessOutline s) F32.lit_0_90.

(** The range they do stay in: the outline may end one unit in the last
    place above [0.90f]. *)
Definition brightnessInRoundedRange (s : GenericMeterSegment) : bool :=
  F32.leb F32.lit_0_25 (fBrightness s)
  && F32.leb (fBrightness s) F32.lit_0_97
  && F32.leb F32.lit_0_30 (fBrightnessOutline s)
  && F32.leb (fBrightnessOutline s) F32.lit_0_90_up.

(** A concrete segment: lower threshold -15.99999905 (dB), display range
    16.00000381, so that the upper threshold is 5 * 2^-20; and the level
    4 * 2^-20 just below it. *)
Definition exampleLower : F32.float := S754_finite true 16777215 (-20).
Definition exampleRange : F32.float := S754_finite false 8388610 (-19).
Definition exampleLevel : F32.float := S754_finite false 8388608 (-41).

(** The largest finite binary32 number. *)
Definition exampleHuge : F32.float := S754_finite false 16777215 104.

Definition exampleSegment : GenericMeterSegment :=
  newGenericMeterSegment blankSegment exampleLower exampleRange false.

(** One more call to the inherited [repaint]. *)
Definition requestRepaint (s : GenericMeterSegment) : GenericMeterSegment :=
  {| lowerThreshold := lowerThreshold s;
     thresholdRange := thresholdRange s;
     upperThreshold := upperThreshold s;
     hasHighestLevel := hasHighestLevel s;
     lightPeakMarker := lightPeakMarker s;
     fBrightness := fBrightness s;
     fBrightnessOutline := fBrightnessOutline s;
     fHue := fHue s;
     repaintRequests := S (repaintRequests s) |}.

(** ** The component: [setColour], [paint] and the JUCE callbacks *)

(** The calls [paint] makes on its [Graphics] argument.  JUCE's [Colour]
    is kept abstract: [Colour] is its type and [colourHSBA] its constructor
    from hue, saturation, brightness and alpha. *)
Inductive GraphicsCall (Colour : Type) : Type :=
| GSetColour (c : Colour)
| GDrawRect (x y w h : Z)
| GFillRect (x y w h : Z).
Arguments GSetColour {Colour} c.
Arguments GDrawRect {Colour} x y w h.
Arguments GFillRect {Colour} x y w h.

(** The segment together with the member [colPeak]. *)
Record SegmentComponent (Colour : Type) : Type := mkComponent {
  segment : GenericMeterSegment;
  colPeak : Colour
}.
Arguments mkComponent {Colour} segment colPeak.
Arguments segment {Colour} s.
Arguments colPeak {Colour} s.

(** The public member functions as data, to speak about call sequences. *)
Inductive MemberCall (Colour : Type) : Type :=
| CallSetThresholds (fLowerThreshold fDisplayRange : F32.float)
                    (bHasHighestLevel : bool)
| CallSetColour (fHueNew : F32.float) (colPeakNew : Colour)
| CallPaint (width height : Z)
| CallVisibilityChanged
| CallResized
| CallSetNormalLevels (normalLevel normalLevelPeak : F32.float)
| CallSetDiscreteLevels (discreteLevel discreteLevelPeak : F32.float)
| CallSetLevels (normalLevel discreteLevel normalLevelPeak discreteLevelPeak
                 : F32.float).
Arguments CallSetThresholds {Colour} _ _ _.
Arguments CallSetColour {Colour} _ _.
Arguments CallPaint {Colour} _ _.
Arguments CallVisibilityChanged {Colour}.
Arguments CallResized {Colour}.
Arguments CallSetNormalLevels {Colour} _ _.
Arguments CallSetDiscreteLevels {Colour} _ _.
Arguments CallSetLevels {Colour} _ _ _ _.

Section Component.
Variable Colour : Type.
Variable colourHSBA : F32.float -> F32.float -> F32.float -> F32.float -> Colour.

(** Lifts a member function that leaves [colPeak] alone. *)
Definition onSegment (f : GenericMeterSegment -> GenericMeterSegment)
    (c : SegmentComponent Colour) : SegmentComponent Colour :=
  mkComponent (f (segment c)) (colPeak c).

(** [void GenericMeterSegment::setColour(float, const Colour &)],
    lines 105-112. *)
Definition setColour (c : SegmentComponent Colour)
    (fHueNew : F32.float) (colPeakNew : Colour) : SegmentComponent Colour :=
  let s := segment c in
  mkComponent
    {| lowerThreshold := lowerThreshold s;
       thresholdRange := thresholdRange s;
       upperThreshold := upperThreshold s;
       hasHighestLevel := hasHighestLevel s;
       lightPeakMarker := lightPeakMarker s;
       fBrightness := fBrightness s;
       fBrightnessOutline := fBrightnessOutline s;
       fHue := fHueNew;
       repaintRequests := S (repaintRequests s) |}
    colPeakNew.

(** [void GenericMeterSegment::paint(Graphics &)], lines 115-142: the
    calls made on [g], in order.  [width] and [height] are what [getWidth]
    and [getHeight] return: component sizes, never negative, so that the
    [int] differences below do not overflow and are taken in [Z]. *)
Definition paint (c : SegmentComponent Colour) (width height : Z)
    : list (GraphicsCall Colour) :=
  let s := segment c in
  [ GSetColour (colourHSBA (fHue s) F32.one (fBrightnessOutline s) F32.one);
    GDrawRect 1 1 (width - 2) (height - 2);
    GSetColour (colourHSBA (fHue s) F32.one (fBrightness s) F32.one);
    GFillRect 2 2 (width - 4) (height - 4) ]
  ++ (if lightPeakMarker s
      then [ GSetColour (colPeak c); GDrawRect 0 0 width height ]
      else []).

(** [visibilityChanged], lines 145-149, and [resized], lines 152-154:
    empty bodies. *)
Definition visibilityChanged (c : SegmentComponent Colour)
    : SegmentComponent Colour := c.

Definition resized (c : SegmentComponent Colour)
    : SegmentComponent Colour := c.

(** The constructor, lines 29-76.  Its body does not assign [colPeak]:
    the member keeps the value it was default-constructed with, which is
    the one [raw] holds. *)
Definition newSegmentComponent (raw : SegmentComponent Colour)
    (fLowerThreshold fDisplayRange : F32.float) (bHasHighestLevel : bool)
    : SegmentComponent Colour :=
  onSegment (fun s => newGenericMeterSegment s fLowerThreshold fDisplayRange
                                             bHasHighestLevel) raw.

(** One member call: the new state and what was drawn. *)
Definition call (c : SegmentComponent Colour) (m : MemberCall Colour)
    : SegmentComponent Colour * list (GraphicsCall Colour) :=
  match m with
  | CallSetThresholds l r h =>
      (onSegment (fun s => snd (setThresholds s l r h)) c, [])
  | CallSetColour hue col => (setColour c hue col, [])
  | CallPaint w h => (c, paint c w h)
  | CallVisibilityChanged => (visibilityChanged c, [])
  | CallResized => (resized c, [])
  | CallSetNormalLevels l p =>
      (onSegment (fun s => setNormalLevels s l p) c, [])
  | CallSetDiscreteLevels l p =>
      (onSegment (fun s => setDiscreteLevels s l p) c, [])
  | CallSetLevels nl dl nlp dlp =>
      (onSegment (fun s => setLevels s nl dl nlp dlp) c, [])
  end.

(** A sequence of member calls, first call first. *)
Fixpoint calls (c : SegmentComponent Colour) (ms : list (MemberCall Colour))
    : SegmentComponent Colour :=
  match ms with
  | [] => c
  | m :: ms' => calls (fst (call c m)) ms'
  end.




Definition isSetColour (m : MemberCall Colour) : bool :=
  match m with
  | CallSetColour _ _ => true
  | _ => false
  end.

End Component.


(** The topmost variant of [exampleSegment]. *)
Definition exampleTopSegment : GenericMeterSegment :=
  newGenericMeterSegment blankSegment exampleLower exampleRange true.

(** A colour type for concrete runs: the four constructor arguments, or a
    named colour. *)
Definition exampleColour : Type :=
  option (F32.float * F32.float * F32.float * F32.float).

Definition exampleColourHSBA (h s b a : F32.float) : exampleColour :=
  Some (h, s, b, a).

Definition exampleComponent : SegmentComponent exampleColour :=
  mkComponent blankSegment None.

Definition exampleCalls : list (MemberCall exampleColour) :=
  [ CallSetNormalLevels exampleLevel exampleLevel;
    CallPaint 12 6;
    CallSetThresholds F32.zero F32.one true;
    CallResized;
    CallSetLevels F32.lit_0_25 F32.lit_m144 F32.one F32.lit_m144;
    CallVisibilityChanged;
    CallSetDiscreteLevels F32.one F32.one ].

(* ===================================================================== *)
(** * Dither (dither.h)                                                   *)
(* ===================================================================== *)

(** ** What the header fixes: default arguments

    [Dither(int number_of_bits, double noise_shaping = 0.5)] (line 36) and
    [void initialise(int number_of_bits, double noise_shaping = 0.5)]
    (line 38).  A call site either supplies the second argument or leaves
    it out; these two functions give the value the callee receives. *)
Definition Dither_noise_shaping_arg (supplied : option Qc) : Qc :=
  match supplied with
  | Some v => v
  | None => Q2Qc (1 # 2)
  end.

Definition initialise_noise_shaping_arg (supplied : option Qc) : Qc :=
  match supplied with
  | Some v => v
  | None => Q2Qc (1 # 2)
  end.

(** ** The engine, modelled from the design document *)

(** Modelled from the spec: the two failures of section 7 (dither.cpp is
    missing, and the header declares no error type). *)
Inductive DitherError : Type :=
  | InvalidConfiguration
  | PreconditionViolation.

(** Modelled from the spec: the parts of the engine the design document
    leaves to the implementation (the bodies are in dither.cpp, which is
    missing): the generator step and its uniform deviate, how the dither
    amplitude and the DC correction are derived from the word length, and
    whether reconfiguration resets the feedback history or reseeds the
    generators (section 9, open question). *)
Class DitherDesign : Type := {
  rng_next : Z -> Z;
  rng_uniform : Z -> Qc;
  derive_ditherAmplitude : Z -> Qc;
  derive_dcOffsetCorrection : Z -> Qc;
  configure_resets_feedback : bool;
  configure_reseeds : option (Z * Z)
}.

(** Modelled from the spec: the data model of section 3 (dither.cpp is
    missing).  Reals are exact rationals; [wordLength] holds the integer
    number of bits given to [configure]; [configured] is the state of the
    two-state machine of section 4.1. *)
Record DitherEngine : Type := mkEngine {
  configured : bool;
  wordLength : Z;
  noiseShapingCoefficient : Qc;
  ditherAmplitude : Qc;
  dcOffsetCorrection : Qc;
  rngStateA : Z;
  rngStateB : Z;
  errorFeedback1 : Qc;
  errorFeedback2 : Qc
}.

(** Modelled from the spec: number of quantization levels per unit,
    [2^(wordLength-1)], and the quantization step, its inverse (the body of
    the quantizer is in the missing dither.cpp). *)
Definition quantumLevels (bits : Z) : Qc := Q2Qc (inject_Z (2 ^ (bits - 1))).
Definition quantumStep (bits : Z) : Qc := (/ quantumLevels bits)%Qc.

(** Modelled from the spec: "round to nearest representable quantization
    level" (step 4; dither.cpp is missing); ties go up. *)
Definition nearestInteger (q : Qc) : Z := Qfloor (q + Q2Qc (1 # 2))%Qc.

(** Modelled from the spec: step 4 of [process], the quantizer (its body
    is in the missing dither.cpp): the nearest multiple of the step. *)
Definition quantize (bits : Z) (y : Qc) : Qc :=
  (Q2Qc (inject_Z (nearestInteger (y * quantumLevels bits)))
   * quantumStep bits)%Qc.

Section Engine.
Context {design : DitherDesign}.

(** Modelled from the spec: a new engine is Unconfigured, with the given
    generator seeds and an empty feedback history (the constructor body
    is in the missing dither.cpp). *)
Definition construct (seedA seedB : Z) : DitherEngine :=
  {| configured := false;
     wordLength := 0;
     noiseShapingCoefficient := 0%Qc;
     ditherAmplitude := 0%Qc;
     dcOffsetCorrection := 0%Qc;
     rngStateA := seedA;
     rngStateB := seedB;
     errorFeedback1 := 0%Qc;
     errorFeedback2 := 0%Qc |}.

(** Modelled from the spec: [configure(numberOfBits, noiseShaping)] of
    section 4.1 ([Dither::initialise], whose body is in the missing
    dither.cpp).  A rejected call leaves the engine as it was. *)
Definition configure (e : DitherEngine) (numberOfBits : Z) (noiseShaping : Qc)
    : DitherError + DitherEngine :=
  if numberOfBits <=? 0 then inl InvalidConfiguration
  else
    inr {| configured := true;
           wordLength := numberOfBits;
           noiseShapingCoefficient := noiseShaping;
           ditherAmplitude := derive_ditherAmplitude numberOfBits;
           dcOffsetCorrection := derive_dcOffsetCorrection numberOfBits;
           rngStateA := match configure_reseeds with
                        | Some (a, _) => a
                        | None => rngStateA e
                        end;
           rngStateB := match configure_reseeds with
                        | Some (_, b) => b
                        | None => rngStateB e
                        end;
           errorFeedback1 := if configure_resets_feedback then 0%Qc
                             else errorFeedback1 e;
           errorFeedback2 := if configure_resets_feedback then 0%Qc
                             else errorFeedback2 e |}.

(** [initialise] as a call site sees it: the second argument is optional
    (header, line 38). *)
Definition initialise (e : DitherEngine) (number_of_bits : Z)
    (noise_shaping : option Qc) : DitherError + DitherEngine :=
  configure e number_of_bits (initialise_noise_shaping_arg noise_shaping).

(** Modelled from the spec: step 1 of [process] (dither.cpp is missing). *)
Definition shapedInput (e : DitherEngine) (inputSample : Qc) : Qc :=
  (inputSample
   + noiseShapingCoefficient e
     * (Q2Qc 2 * errorFeedback1 e - errorFeedback2 e))%Qc.

(** Modelled from the spec: step 2 of [process] (dither.cpp is missing):
    both generators are stepped, then read; the two uniform deviates are
    summed, scaled and corrected. *)
Definition ditherDeviate (e : DitherEngine) : Qc :=
  (ditherAmplitude e
   * (rng_uniform (rng_next (rngStateA e))
      + rng_uniform (rng_next (rngStateB e)))
   + dcOffsetCorrection e)%Qc.

(** Modelled from the spec: [process(inputSample)] of section 4.1, steps
    1 to 6 ([Dither::dither], whose body is in the missing dither.cpp).
    An Unconfigured engine fails fast. *)
Definition process (e : DitherEngine) (inputSample : Qc)
    : DitherError + (Qc * DitherEngine) :=
  if negb (configured e) then inl PreconditionViolation
  else
    let shaped := shapedInput e inputSample in
    let quantizedResult :=
      quantize (wordLength e) (shaped + ditherDeviate e)%Qc in
    let quantizationError := (quantizedResult - shaped)%Qc in
    inr (quantizedResult,
         {| configured := configured e;
            wordLength := wordLength e;
            noiseShapingCoefficient := noiseShapingCoefficient e;
            ditherAmplitude := ditherAmplitude e;
            dcOffsetCorrection := dcOffsetCorrection e;
            rngStateA := rng_next (rngStateA e);
            rngStateB := rng_next (rngStateB e);
            errorFeedback1 := quantizationError;
            errorFeedback2 := errorFeedback1 e |}).

(** A stream: [process] called once per sample, in order; the outputs
    and the final engine. *)
Fixpoint processAll (e : DitherEngine) (inputs : list Qc)
    : DitherError + (list Qc * DitherEngine) :=
  match inputs with
  | [] => inr ([], e)
  | x :: rest =>
      match process e x with
      | inl err => inl err
      | inr (y, e') =>
          match processAll e' rest with
          | inl err => inl err
          | inr (ys, e'') => inr (y :: ys, e'')
          end
      end
  end.

(** The generators put back to a given pair of states. *)
Definition reseed (e : DitherEngine) (seedA seedB : Z) : DitherEngine :=
  {| configured := configured e;
     wordLength := wordLength e;
     noiseShapingCoefficient := noiseShapingCoefficient e;
     ditherAmplitude := ditherAmplitude e;
     dcOffsetCorrection := dcOffsetCorrection e;
     rngStateA := seedA;
     rngStateB := seedB;
     errorFeedback1 := errorFeedback1 e;
     errorFeedback2 := errorFeedback2 e |}.

(** A stream in which the generators are reseeded identically before
    each call. *)
Fixpoint processAllReseeded (seedA seedB : Z) (e : DitherEngine)
    (inputs : list Qc) : DitherError + (list Qc * DitherEngine) :=
  match inputs with
  | [] => inr ([], e)
  | x :: rest =>
      match process (reseed e seedA seedB) x with
      | inl err => inl err
      | inr (y, e') =>
          match processAllReseeded seedA seedB e' rest with
          | inl err => inl err
          | inr (ys, e'') => inr (y :: ys, e'')
          end
      end
  end.

(** Plain TPDF-dithered quantization of one sample: no feedback term. *)
Definition plainDither (seedA seedB : Z) (e : DitherEngine) (x : Qc) : Qc :=
  quantize (wordLength e)
    (x + (ditherAmplitude e
          * (rng_uniform (rng_next seedA) + rng_uniform (rng_next seedB))
          + dcOffsetCorrection e))%Qc.

(** The outputs of a stream, when it succeeds. *)
Definition outputsOf (r : DitherError + (list Qc * DitherEngine))
    : option (list Qc) :=
  match r with
  | inl _ => None
  | inr (ys, _) => Some ys
  end.

End Engine.

(** A concrete design, used to run the model: a 31-bit linear-congruential
    generator read as a deviate in [-1, 1), a dither amplitude of a quarter
    step (the sum of two deviates then spans one step peak to peak), no DC
    correction, feedback history and generators left alone by
    [configure]. *)
Definition lcgModulus : Z := 2 ^ 31.

Definition lcgDesign : DitherDesign := {|
  rng_next := fun s => (1103515245 * s + 12345) mod lcgModulus;
  rng_uniform := fun s => Q2Qc ((2 * s - lcgModulus) # Z.to_pos lcgModulus);
  derive_ditherAmplitude := fun bits => (quantumStep bits * Q2Qc (1 # 4))%Qc;
  derive_dcOffsetCorrection := fun _ => 0%Qc;
  configure_resets_feedback := false;
  configure_reseeds := None
|}.

(** Two engines with the same configuration (everything but the generator
    states and the feedback history). *)
Definition sameConfiguration (e1 e2 : DitherEngine) : Prop :=
  configured e1 = configured e2
  /\ wordLength e1 = wordLength e2
  /\ noiseShapingCoefficient e1 = noiseShapingCoefficient e2
  /\ ditherAmplitude e1 = ditherAmplitude e2
  /\ dcOffsetCorrection e1 = dcOffsetCorrection e2.

(** Concrete engines and samples for running the model under
    [lcgDesign]: seeds 1 and 2, sixteen bits. *)
Definition lcgEngine (noiseShaping : Qc) : DitherEngine :=
  match configure (design := lcgDesign) (construct 1 2) 16 noiseShaping with
  | inr e => e
  | inl _ => construct 1 2
  end.

Definition lcgStep (e : DitherEngine) (x : Qc) : Qc * DitherEngine :=
  match process (design := lcgDesign) e x with
  | inr r => r
  | inl _ => (0%Qc, e)
  end.

(** Six tenths of a sixteen-bit quantization step. *)
Definition sampleSixTenthsStep : Qc := Q2Qc (3 # 163840).

(* ===================================================================== *)
(** * Facts: the dither unit                                              *)
(* ===================================================================== *)

Section DitherFacts.
Context {design : DitherDesign}.

Lemma configure_ok_inv e bits ns e' :
  configure e bits ns = inr e' ->
  0 < bits
  /\ configured e' = true
  /\ wordLength e' = bits
  /\ noiseShapingCoefficient e' = ns
  /\ ditherAmplitude e' = derive_ditherAmplitude bits
  /\ dcOffsetCorrection e' = derive_dcOffsetCorrection bits.
Proof.
  unfold configure. destruct (Z.leb_spec bits 0) as [Hle | Hgt].
  - discriminate.
  - intros H. injection H as <-. cbn. repeat split; auto.
Qed.

Lemma configure_accepts e bits ns :
  0 < bits -> exists e', configure e bits ns = inr e'.
Proof.
  intros Hpos. unfold configure.
  destruct (Z.leb_spec bits 0) as [Hle | Hgt]; [lia | eauto].
Qed.

Lemma shapedInput_unshaped e x :
  noiseShapingCoefficient e = 0%Qc -> shapedInput e x = x.
Proof. intros H. unfold shapedInput. rewrite H. ring. Qed.

Lemma process_unshaped_reseeded seedA seedB e x :
  configured e = true ->
  noiseShapingCoefficient e = 0%Qc ->
  exists e',
    process (reseed e seedA seedB) x = inr (plainDither seedA seedB e x, e')
    /\ sameConfiguration e e'.
Proof.
  intros Hc Hns. unfold process. cbn [configured reseed]. rewrite Hc.
  cbn [negb]. rewrite shapedInput_unshaped by exact Hns.
  eexists. split; [reflexivity |].
  unfold sameConfiguration; cbn. auto.
Qed.

Lemma plainDither_same_configuration seedA seedB e e' x :
  sameConfiguration e e' ->
  plainDither seedA seedB e x = plainDither seedA seedB e' x.
Proof.
  intros (_ & Hw & _ & Ha & Hd). unfold plainDither.
  rewrite Hw, Ha, Hd. reflexivity.
Qed.

Lemma processAllReseeded_unshaped seedA seedB inputs :
  forall e,
    configured e = true ->
    noiseShapingCoefficient e = 0%Qc ->
    outputsOf (processAllReseeded seedA seedB e inputs)
    = Some (map (plainDither seedA seedB e) inputs).
Proof.
  induction inputs as [| x rest IH]; intros e Hc Hns; [reflexivity |].
  destruct (process_unshaped_reseeded seedA seedB e x Hc Hns)
    as (e' & Hstep & Hsame).
  cbn [processAllReseeded]. rewrite Hstep.
  assert (Hc' : configured e' = true)
    by (destruct Hsame as (H & _); congruence).
  assert (Hns' : noiseShapingCoefficient e' = 0%Qc)
    by (destruct Hsame as (_ & _ & H & _); congruence).
  specialize (IH e' Hc' Hns').
  destruct (processAllReseeded seedA seedB e' rest) as [err | [ys e'']];
    cbn in IH |- *; [discriminate |].
  injection IH as ->. f_equal. f_equal.
  apply map_ext. intros a. symmetry.
  apply plainDither_same_configuration; exact Hsame.
Qed.

Lemma Permutation_combine_map (A B : Type) (f : A -> B) (l l' : list A) :
  Permutation l l' ->
  Permutation (combine l (map f l)) (combine l' (map f l')).
Proof.
  induction 1; cbn.
  - constructor.
  - now constructor.
  - constructor.
  - eapply Permutation_trans; eassumption.
Qed.

End DitherFacts.

(** Inequalities between canonical rationals, as inequalities between
    plain rationals. *)
Ltac qc_to_q :=
  unfold Qcle, Qclt, Qcminus, Qcplus, Qcmult, Qcopp, Qcinv, Q2Qc in *;
  cbn [this] in *; repeat rewrite Qred_correct in *.

Section QuantizerFacts.

Lemma quantumLevels_pos bits : 0 < bits -> (0 < quantumLevels bits)%Qc.
Proof.
  intros H. unfold quantumLevels, Qclt. cbn [this Q2Qc].
  rewrite !Qred_correct.
  assert (H0 : 0 < 2 ^ (bits - 1)) by (apply Z.pow_pos_nonneg; lia).
  unfold Qlt; cbn. lia.
Qed.

(** Rounding to the nearest level moves a value by at most half a step. *)
Lemma quantize_nearest bits y :
  0 < bits ->
  (- (quantumStep bits * Q2Qc (1 # 2)) <= quantize bits y - y
   /\ quantize bits y - y <= quantumStep bits * Q2Qc (1 # 2))%Qc.
Proof.
  intros Hb. pose proof (quantumLevels_pos bits Hb) as HL.
  unfold quantize, quantumStep, nearestInteger.
  set (L := quantumLevels bits) in *.
  set (t := (y * L + Q2Qc (1 # 2))%Qc).
  pose proof (Qfloor_le t) as Hlo.
  pose proof (Qlt_floor t) as Hhi.
  set (n := Qfloor t) in *.
  unfold Qcle, Qclt in *.
  unfold Qcminus, Qcplus, Qcmult, Qcopp, Qcinv, Q2Qc in *. cbn [this] in *.
  subst t. cbn [this] in *.
  repeat rewrite Qred_correct in *.
  set (l := this L) in *. set (v := this y) in *.
  assert (Hi : (l * / l == 1)%Q) by (apply Qmult_inv_r; lra).
  assert (Hip : (0 < / l)%Q) by (apply Qinv_lt_0_compat; lra).
  set (i := (/ l)%Q) in *.
  rewrite inject_Z_plus in Hhi.
  set (nq := inject_Z n) in *.
  assert (Hy : (v == (v * l) * i)%Q) by (rewrite <- Qmult_assoc, Hi; ring).
  change (inject_Z 1) with 1%Q in Hhi.
  set (w := (v * l)%Q) in *.
  assert (H1 : (0 <= ((1 # 2) - (nq - w)) * i)%Q)
    by (apply Qmult_le_0_compat; lra).
  assert (H2 : (0 <= ((nq - w) + (1 # 2)) * i)%Q)
    by (apply Qmult_le_0_compat; lra).
  split; lra.
Qed.

(** A dither deviate [d] added to the value half a step minus [d / 2]
    carries it across the rounding boundary at half a step. *)
Lemma quantize_crosses bits d :
  0 < bits ->
  let h := (quantumStep bits * Q2Qc (1 # 2))%Qc in
  let y := (h - d * Q2Qc (1 # 2) + d)%Qc in
  ((0 < d)%Qc -> (quantumStep bits <= quantize bits y)%Qc)
  /\ ((d < 0)%Qc -> (quantize bits y <= 0)%Qc).
Proof.
  intros Hb h y. pose proof (quantumLevels_pos bits Hb) as HL.
  unfold quantize, quantumStep, nearestInteger in *. subst y h.
  set (L := quantumLevels bits) in *.
  set (t := ((/ L * Q2Qc (1 # 2) - d * Q2Qc (1 # 2) + d) * L
             + Q2Qc (1 # 2))%Qc).
  assert (Ht : (t == 1 + this d * (1 # 2) * this L)%Q).
  { subst t. qc_to_q.
    assert (Hi : (this L * / this L == 1)%Q) by (apply Qmult_inv_r; lra).
    set (l := this L) in *. set (v := this d) in *.
    setoid_replace ((/ l * (1 # 2) + - (v * (1 # 2)) + v) * l + (1 # 2))%Q
      with ((l * / l) * (1 # 2) + v * (1 # 2) * l + (1 # 2))%Q by ring.
    rewrite Hi. ring. }
  pose proof (Qfloor_le t) as Hlo.
  pose proof (Qlt_floor t) as Hhi.
  set (n := Qfloor t) in *. clearbody n. clearbody t.
  rewrite inject_Z_plus in Hhi. change (inject_Z 1) with 1%Q in Hhi.
  qc_to_q.
  set (l := this L) in *. set (v := this d) in *.
  assert (Hip : (0 < / l)%Q) by (apply Qinv_lt_0_compat; lra).
  set (i := (/ l)%Q) in *.
  split; intros Hd.
  - assert (Hvl : (0 < v * l)%Q) by (apply Qmult_lt_0_compat; lra).
    assert (Hn : 1 <= n).
    { assert ((0 < inject_Z n)%Q) by lra.
      change 0%Q with (inject_Z 0) in H. rewrite <- Zlt_Qlt in H. lia. }
    assert (Hn' : (1 <= inject_Z n)%Q)
      by (change 1%Q with (inject_Z 1); rewrite <- Zle_Qle; exact Hn).
    assert ((0 <= (inject_Z n - 1) * i)%Q) by (apply Qmult_le_0_compat; lra).
    lra.
  - assert (Hvl : (0 < (- v) * l)%Q) by (apply Qmult_lt_0_compat; lra).
    assert (Hn : n <= 0).
    { assert ((inject_Z n < 1)%Q) by lra.
      change 1%Q with (inject_Z 1) in H. rewrite <- Zlt_Qlt in H. lia. }
    assert (Hn' : (inject_Z n <= 0)%Q)
      by (change 0%Q with (inject_Z 0); rewrite <- Zle_Qle; exact Hn).
    assert ((0 <= (- inject_Z n) * i)%Q) by (apply Qmult_le_0_compat; lra).
    lra.
Qed.

End QuantizerFacts.

Section DitherBound.
Context {design : DitherDesign}.

(** Whatever the design, as soon as the dither deviate of a call is not
    zero there is an input sample whose quantization error
    [quantizedResult - shapedInput] is beyond half a step. *)
Lemma half_step_bound_fails_when_dithered e :
  configured e = true ->
  0 < wordLength e ->
  ditherDeviate e <> 0%Qc ->
  exists x q e',
    process e x = inr (q, e')
    /\ ((quantumStep (wordLength e) * Q2Qc (1 # 2) < q - shapedInput e x)%Qc
        \/ (q - shapedInput e x
            < - (quantumStep (wordLength e) * Q2Qc (1 # 2)))%Qc).
Proof.
  intros Hc Hbits Hd.
  set (d := ditherDeviate e) in *.
  set (h := (quantumStep (wordLength e) * Q2Qc (1 # 2))%Qc).
  set (k := (noiseShapingCoefficient e
             * (Q2Qc 2 * errorFeedback1 e - errorFeedback2 e))%Qc).
  set (x := (h - d * Q2Qc (1 # 2) - k)%Qc).
  assert (Hsh : shapedInput e x = (h - d * Q2Qc (1 # 2))%Qc)
    by (unfold shapedInput; fold k; subst x; ring).
  destruct (quantize_crosses (wordLength e) d Hbits) as [Hup Hdown].
  fold h in Hup, Hdown.
  set (q := quantize (wordLength e) (h - d * Q2Qc (1 # 2) + d)%Qc) in *.
  assert (Hstep : exists e', process e x = inr (q, e')).
  { unfold process. rewrite Hc. cbn [negb]. rewrite Hsh. fold d. fold q.
    eexists. reflexivity. }
  destruct Hstep as (e' & Hstep).
  exists x, q, e'. split; [exact Hstep |]. rewrite Hsh.
  assert (Hst : (quantumStep (wordLength e) = h + h)%Qc)
    by (subst h; apply Qc_is_canon; qc_to_q; ring).
  destruct (Qclt_le_dec 0%Qc d) as [Hpos | Hneg].
  - left. specialize (Hup Hpos). rewrite Hst in Hup.
    clearbody q h d. qc_to_q. lra.
  - right. assert (Hlt : (d < 0)%Qc).
    { destruct (Qcle_lt_or_eq _ _ Hneg) as [H | H]; [exact H | congruence]. }
    specialize (Hdown Hlt). clearbody q h d. qc_to_q. lra.
Qed.

End DitherBound.

Section DitherClaims.
Context {design : DitherDesign}.

(** C1: [configure] is rejected with [InvalidConfiguration] exactly when
    [numberOfBits <= 0]; for every positive [numberOfBits], whatever its
    size, the call succeeds and the engine holds the new configuration. *)
Theorem configure_rejects_exactly_nonpositive :
  forall (e : DitherEngine) (numberOfBits : Z) (noiseShaping : Qc),
    (configure e numberOfBits noiseShaping = inl InvalidConfiguration
     <-> numberOfBits <= 0)
    /\ (0 < numberOfBits
        <-> exists e',
              configure e numberOfBits noiseShaping = inr e'
              /\ configured e' = true
              /\ wordLength e' = numberOfBits
              /\ noiseShapingCoefficient e' = noiseShaping).
Proof.
  intros e bits ns. split; split.
  - unfold configure. destruct (Z.leb_spec bits 0); [auto | discriminate].
  - intros H. unfold configure.
    destruct (Z.leb_spec bits 0); [reflexivity | lia].
  - intros Hpos. destruct (configure_accepts e bits ns Hpos) as (e' & He').
    exists e'. split; [exact He' |].
    destruct (configure_ok_inv _ _ _ _ He') as (_ & Hc & Hw & Hn & _).
    auto.
  - intros (e' & He' & _).
    destruct (configure_ok_inv _ _ _ _ He') as (Hpos & _). exact Hpos.
Qed.

(** C4: with a noise-shaping coefficient of 0 and the generators reseeded
    identically before each call, every output is the plain
    TPDF-dithered quantization of its own input, whatever the feedback
    history of the engine: permuting the inputs permutes the
    (input, output) pairs and changes none of them. *)
Theorem unshaped_output_ignores_history :
  forall (seedA seedB : Z) (e1 e2 : DitherEngine) (inputs inputs' : list Qc),
    configured e1 = true ->
    noiseShapingCoefficient e1 = 0%Qc ->
    sameConfiguration e1 e2 ->
    Permutation inputs inputs' ->
    exists outs outs',
      outputsOf (processAllReseeded seedA seedB e1 inputs) = Some outs
      /\ outputsOf (processAllReseeded seedA seedB e2 inputs') = Some outs'
      /\ outs = map (plainDither seedA seedB e1) inputs
      /\ outs' = map (plainDither seedA seedB e1) inputs'
      /\ Permutation (combine inputs outs) (combine inputs' outs').
Proof.
  intros seedA seedB e1 e2 inputs inputs' Hc Hns Hsame Hperm.
  assert (Hc2 : configured e2 = true)
    by (destruct Hsame as (H & _); congruence).
  assert (Hns2 : noiseShapingCoefficient e2 = 0%Qc)
    by (destruct Hsame as (_ & _ & H & _); congruence).
  exists (map (plainDither seedA seedB e1) inputs),
         (map (plainDither seedA seedB e1) inputs').
  split; [apply processAllReseeded_unshaped; assumption |].
  split.
  - rewrite (processAllReseeded_unshaped seedA seedB inputs' e2 Hc2 Hns2).
    f_equal. apply map_ext. intros a. symmetry.
    apply plainDither_same_configuration; exact Hsame.
  - split; [reflexivity |]. split; [reflexivity |].
    apply Permutation_combine_map; exact Hperm.
Qed.

(** C5: the [noise_shaping] parameter of the constructor and of
    [initialise] is 0.5 when the caller leaves it out. *)
Theorem noise_shaping_defaults_to_half :
  Dither_noise_shaping_arg None = Q2Qc (1 # 2)
  /\ initialise_noise_shaping_arg None = Q2Qc (1 # 2)
  /\ (forall v, Dither_noise_shaping_arg (Some v) = v)
  /\ (forall v, initialise_noise_shaping_arg (Some v) = v)
  /\ (forall e number_of_bits,
        initialise e number_of_bits None
        = configure e number_of_bits (Q2Qc (1 # 2))).
Proof. repeat split. Qed.

(** C6: [configure] called twice in succession with the same arguments
    leaves [ditherAmplitude] and [dcOffsetCorrection] as the first call
    set them; a rejected call is rejected again. *)
Theorem configure_idempotent_on_derived :
  forall (e : DitherEngine) (numberOfBits : Z) (noiseShaping : Qc),
    match configure e numberOfBits noiseShaping with
    | inl err =>
        configure e numberOfBits noiseShaping = inl err
        /\ err = InvalidConfiguration
    | inr once =>
        exists twice,
          configure once numberOfBits noiseShaping = inr twice
          /\ ditherAmplitude twice = ditherAmplitude once
          /\ dcOffsetCorrection twice = dcOffsetCorrection once
    end.
Proof.
  intros e bits ns.
  destruct (configure e bits ns) as [err | once] eqn:Hfirst.
  - split; [reflexivity |].
    unfold configure in Hfirst. destruct (bits <=? 0); congruence.
  - destruct (configure_ok_inv _ _ _ _ Hfirst)
      as (Hpos & _ & _ & _ & Ha & Hd).
    destruct (configure_accepts once bits ns Hpos) as (twice & Hsecond).
    exists twice. split; [exact Hsecond |].
    destruct (configure_ok_inv _ _ _ _ Hsecond)
      as (_ & _ & _ & _ & Ha' & Hd').
    split; congruence.
Qed.

End DitherClaims.

(** ** The model run on concrete engines *)

Lemma unshaped_output_ignores_history_witness :
  let e1 := lcgEngine 0%Qc in
  let e2 := snd (lcgStep e1 sampleSixTenthsStep) in
  let xs := [sampleSixTenthsStep; 0%Qc] in
  let xs' := [0%Qc; sampleSixTenthsStep] in
  errorFeedback1 e1 <> errorFeedback1 e2
  /\ exists outs outs',
       outputsOf (processAllReseeded (design := lcgDesign) 1 2 e1 xs)
       = Some outs
       /\ outputsOf (processAllReseeded (design := lcgDesign) 1 2 e2 xs')
          = Some outs'
       /\ outs = map (plainDither (design := lcgDesign) 1 2 e1) xs
       /\ outs' = map (plainDither (design := lcgDesign) 1 2 e1) xs'
       /\ Permutation (combine xs outs) (combine xs' outs').
Proof.
  cbv zeta. split.
  { intros H. apply (f_equal this) in H. vm_compute in H. discriminate. }
  apply (unshaped_output_ignores_history (design := lcgDesign) 1 2
           (lcgEngine 0%Qc)
           (snd (lcgStep (lcgEngine 0%Qc) sampleSixTenthsStep))
           [sampleSixTenthsStep; 0%Qc] [0%Qc; sampleSixTenthsStep]).
  - reflexivity.
  - reflexivity.
  - repeat split.
  - apply perm_swap.
Defined.

(* ===================================================================== *)
(** * Facts: binary32 rounding                                            *)
(* ===================================================================== *)

(** Rounding to nearest is monotone and fixes the representable values:
    if the exact result of an operation lies on one side of a finite
    float, so does the computed result.  The section builds this up from
    the definitions of [SpecFloat]: digit counts, the right-shift with
    round and sticky bits, [binary_round_aux], then the four operations. *)

Lemma digits2_pos_log2 p : Zpos (digits2_pos p) = Z.log2 (Zpos p) + 1.
Proof.
  induction p as [p IH | p IH |]; cbn [digits2_pos]; try reflexivity.
  - rewrite Pos2Z.inj_succ, IH. destruct p; cbn; lia.
  - rewrite Pos2Z.inj_succ, IH. destruct p; cbn; lia.
Qed.

Lemma Zdigits2_log2 m : 0 < m -> Zdigits2 m = Z.log2 m + 1.
Proof. destruct m; try lia. intros _. apply digits2_pos_log2. Qed.

Lemma Zdigits2_bounds m :
  0 < m -> 2 ^ (Zdigits2 m - 1) <= m < 2 ^ Zdigits2 m.
Proof.
  intros Hm. rewrite (Zdigits2_log2 m Hm).
  replace (Z.log2 m + 1 - 1) with (Z.log2 m) by lia.
  replace (Z.log2 m + 1) with (Z.succ (Z.log2 m)) by lia.
  apply Z.log2_spec; exact Hm.
Qed.

Lemma Zdigits2_pos m : 0 < m -> 0 < Zdigits2 m.
Proof.
  intros Hm. rewrite (Zdigits2_log2 m Hm).
  pose proof (Z.log2_nonneg m). lia.
Qed.

Lemma Zdigits2_unique m d :
  2 ^ (d - 1) <= m < 2 ^ d -> 0 < m -> Zdigits2 m = d.
Proof.
  intros H Hm. rewrite (Zdigits2_log2 m Hm).
  assert (0 < d).
  { destruct (Z.lt_trichotomy d 0) as [Hd | [Hd | Hd]]; try lia.
    - rewrite (Z.pow_neg_r 2 d) in H by lia. lia.
    - subst d. cbn in H. lia. }
  enough (Z.log2 m = d - 1) by lia.
  apply Z.log2_unique; [lia |]. replace (Z.succ (d - 1)) with d by lia. exact H.
Qed.

Lemma Zdigits2_le m1 m2 : 0 < m1 -> m1 <= m2 -> Zdigits2 m1 <= Zdigits2 m2.
Proof.
  intros H1 H2. rewrite !Zdigits2_log2 by lia.
  pose proof (Z.log2_le_mono m1 m2 H2). lia.
Qed.

Lemma Zdigits2_mul_pow2 m n :
  0 < m -> 0 <= n -> Zdigits2 (m * 2 ^ n) = Zdigits2 m + n.
Proof.
  intros Hm Hn.
  assert (0 < 2 ^ n) by (apply Z.pow_pos_nonneg; lia).
  rewrite !Zdigits2_log2 by nia.
  rewrite <- Z.shiftl_mul_pow2 by lia. rewrite Z.log2_shiftl by lia. lia.
Qed.

Lemma Zdigits2_div_pow2 m n :
  0 < m -> 0 <= n -> 0 < m / 2 ^ n -> Zdigits2 (m / 2 ^ n) = Zdigits2 m - n.
Proof.
  intros Hm Hn Hq.
  rewrite !Zdigits2_log2 by lia.
  rewrite <- Z.shiftr_div_pow2 in * by lia.
  rewrite Z.log2_shiftr by lia.
  assert (n <= Z.log2 m).
  { destruct (Z.le_gt_cases n (Z.log2 m)) as [H | H]; [exact H |].
    rewrite Z.shiftr_eq_0 in Hq by lia. lia. }
  lia.
Qed.

(** One right-shift step: the mantissa is halved, the round bit is the bit
    shifted out, the sticky bit collects the earlier round and sticky
    bits. *)
Lemma shr_1_fields mrs :
  0 <= shr_m mrs ->
  shr_m (shr_1 mrs) = shr_m mrs / 2
  /\ shr_r (shr_1 mrs) = Z.odd (shr_m mrs)
  /\ shr_s (shr_1 mrs) = shr_r mrs || shr_s mrs.
Proof.
  destruct mrs as [[| [p | p |] | p] r s]; cbn [shr_m shr_1 shr_r shr_s];
    intros Hm; try lia; rewrite <- Z.div2_div; repeat split.
Qed.

(** The location encoded by the round and sticky bits. *)
Lemma loc_of_shr_record_bits mrs :
  loc_of_shr_record mrs
  = match shr_r mrs, shr_s mrs with
    | false, false => loc_Exact
    | false, true => loc_Inexact Lt
    | true, false => loc_Inexact Eq
    | true, true => loc_Inexact Gt
    end.
Proof. destruct mrs as [m [] []]; reflexivity. Qed.

Lemma shr_1_inv a b mrs :
  0 <= a -> 0 < b -> shr_inv a b mrs -> shr_inv a (2 * b) (shr_1 mrs).
Proof.
  intros Ha Hb [Hm Hl].
  pose proof (Z.mod_pos_bound a b Hb) as Hk.
  pose proof (Z.div_pos a b Ha Hb) as Hq.
  destruct (shr_1_fields mrs) as (Hm' & Hr' & Hs'); [lia |].
  split.
  - rewrite Hm', Hm, (Z.mul_comm 2 b), Z.div_div by lia. reflexivity.
  - rewrite loc_of_shr_record_bits in *. rewrite Hr', Hs', Hm.
    unfold loc_spec in *.
    rewrite (Z.mul_comm 2 b), Z.rem_mul_r, Zmod_odd by lia.
    set (k := a mod b) in *.
    destruct (Z.odd (a / b)), (Z.eqb_spec k 0) as [Hk0 | Hk0],
             (shr_r mrs), (shr_s mrs);
      try discriminate Hl; cbn [orb];
      try (injection Hl as Hl; symmetry in Hl);
      repeat match goal with
             | H : (_ ?= _) = Lt |- _ => apply Z.compare_lt_iff in H
             | H : (_ ?= _) = Eq |- _ => apply Z.compare_eq_iff in H
             | H : (_ ?= _) = Gt |- _ => apply Z.compare_gt_iff in H
             end;
      match goal with
      | |- context [?x =? 0] => destruct (Z.eqb_spec x 0); try lia
      end;
      try reflexivity; f_equal; symmetry;
      first [ apply Z.compare_lt_iff; lia
            | apply Z.compare_eq_iff; lia
            | apply Z.compare_gt_iff; lia ].
Qed.

Lemma fexp32_eq e : fexp32 e = Z.max (e - 24) (-149).
Proof. reflexivity. Qed.

Lemma shr_iter_inv a p : forall b mrs,
  0 <= a -> 0 < b -> shr_inv a b mrs ->
  shr_inv a (b * 2 ^ Zpos p) (iter_pos shr_1 p mrs).
Proof.
  induction p as [p IH | p IH |]; intros b mrs Ha Hb Hinv; cbn [iter_pos].
  - replace (b * 2 ^ Z.pos p~1) with (2 * b * 2 ^ Z.pos p * 2 ^ Z.pos p).
    + assert (0 < 2 ^ Z.pos p) by (apply Z.pow_pos_nonneg; lia).
      apply IH; [lia | nia |]. apply IH; [lia | lia |].
      apply shr_1_inv; assumption.
    + replace (Z.pos p~1) with (Z.pos p + Z.pos p + 1) by lia.
      rewrite !Z.pow_add_r by lia. ring.
  - replace (b * 2 ^ Z.pos p~0) with (b * 2 ^ Z.pos p * 2 ^ Z.pos p).
    + assert (0 < 2 ^ Z.pos p) by (apply Z.pow_pos_nonneg; lia).
      apply IH; [lia | nia |]. apply IH; assumption.
    + replace (Z.pos p~0) with (Z.pos p + Z.pos p) by lia.
      rewrite !Z.pow_add_r by lia. ring.
  - change (2 ^ 1) with 2. rewrite Z.mul_comm. apply shr_1_inv; assumption.
Qed.

Lemma shr_shift_inv a b mrs e n :
  0 <= a -> 0 < b -> shr_inv a b mrs -> 0 <= n ->
  shr_inv a (b * 2 ^ n) (fst (shr mrs e n)) /\ snd (shr mrs e n) = e + n.
Proof.
  intros Ha Hb Hinv Hn. destruct n as [| p | p]; try lia; cbn [shr fst snd].
  - rewrite Z.mul_1_r. split; [exact Hinv | lia].
  - split; [apply shr_iter_inv; assumption | reflexivity].
Qed.

Lemma shr_record_of_loc_inv a b :
  shr_inv a b (shr_record_of_loc (a / b) (loc_spec a b)).
Proof.
  unfold shr_inv. destruct (loc_spec a b) as [| []]; cbn; auto.
Qed.

Lemma round_nearest_even_cases m l :
  round_nearest_even m l = m
  \/ (round_nearest_even m l = m + 1 /\ l <> loc_Exact).
Proof.
  destruct l as [| []]; cbn [round_nearest_even]; auto.
  - destruct (Z.even m); [left; reflexivity | right].
    split; [reflexivity | discriminate].
  - right; split; [reflexivity | discriminate].
Qed.

Lemma loc_spec_exact a b : loc_spec a b <> loc_Exact -> a mod b <> 0.
Proof.
  unfold loc_spec. destruct (Z.eqb_spec (a mod b) 0); [congruence | auto].
Qed.

Lemma binary_round_aux_finish sx mx ex lx :
  binary_round_aux F32.prec F32.emax sx mx ex lx
  = round_finish sx
      (round_nearest_even (shr_m (fst (shr_fexp F32.prec F32.emax mx ex lx)))
         (loc_of_shr_record (fst (shr_fexp F32.prec F32.emax mx ex lx))))
      (snd (shr_fexp F32.prec F32.emax mx ex lx)).
Proof.
  unfold binary_round_aux, round_finish.
  destruct (shr_fexp F32.prec F32.emax mx ex lx) as [mrs' e']. reflexivity.
Qed.

Lemma round_finish_zero sx : round_finish sx 0 (-149) = S754_zero sx.
Proof. reflexivity. Qed.

Lemma round_finish_spec sx m E :
  0 < m ->
  fexp32 (Zdigits2 m + E) = E
  \/ (fexp32 (Zdigits2 m + E) = E + 1 /\ m mod 2 = 0) ->
  round_result sx m E (round_finish sx m E).
Proof.
  intros Hm Hcases. right. unfold round_finish, shr_fexp.
  cbn [shr_record_of_loc].
  destruct Hcases as [Hc | [Hc Heven]]; rewrite Hc.
  - replace (E - E) with 0 by lia. cbn [shr shr_m].
    destruct m as [| p | p]; try lia.
    exists p, E. replace (E - E) with 0 by lia.
    split; [lia |]. split; [cbn; lia |]. split; [| reflexivity].
    unfold canonical_mantissa. cbn [Zdigits2] in Hc. rewrite Hc.
    apply Z.eqb_refl.
  - replace (E + 1 - E) with 1 by lia. cbn [shr iter_pos].
    destruct m as [| p | p]; try lia.
    destruct p as [p | p |]; cbn [shr_1 shr_m].
    + rewrite Pos2Z.inj_xI in Heven. 
      rewrite Z.add_comm, Z.mul_comm, Z.mod_add in Heven by lia. discriminate.
    + exists p, (E + 1). replace (E + 1 - E) with 1 by lia.
      split; [lia |]. split; [change (2 ^ 1) with 2; lia |].
      split; [| reflexivity].
      unfold canonical_mantissa.
      assert (Hd : Zdigits2 (Z.pos p~0) = Z.pos (digits2_pos p) + 1)
        by (cbn [Zdigits2 digits2_pos]; lia).
      rewrite Hd in Hc.
      replace (Z.pos (digits2_pos p) + (E + 1))
        with (Z.pos (digits2_pos p) + 1 + E) by lia.
      rewrite Hc. apply Z.eqb_refl.
    + discriminate Heven.
Qed.

Lemma pow2_even d : 0 < d -> 2 ^ d mod 2 = 0.
Proof.
  intros Hd. replace d with (1 + (d - 1)) by lia.
  rewrite Z.pow_add_r by lia. change (2 ^ 1) with 2.
  rewrite Z.mul_comm. apply Z.mod_mul. lia.
Qed.

Lemma round_up_finish sx m E :
  0 <= m -> -149 <= E ->
  (m = 0 -> E = -149) ->
  (0 < m -> fexp32 (Zdigits2 m + E) = E) ->
  round_result sx (m + 1) E (round_finish sx (m + 1) E).
Proof.
  intros Hm HE Hzero Hcanon. apply round_finish_spec; [lia |].
  destruct (Z.eq_dec m 0) as [-> | Hne].
  - left. rewrite (Hzero eq_refl). reflexivity.
  - assert (Hpos : 0 < m) by lia. specialize (Hcanon Hpos).
    pose proof (Zdigits2_bounds m Hpos) as Hb.
    pose proof (Zdigits2_pos m Hpos) as Hd.
    set (d := Zdigits2 m) in *.
    destruct (Z.lt_ge_cases (m + 1) (2 ^ d)) as [Hlt | Hge].
    + left. rewrite (Zdigits2_unique (m + 1) d) by lia. exact Hcanon.
    + assert (Heq : m + 1 = 2 ^ d) by lia.
      assert (Hd1 : Zdigits2 (m + 1) = d + 1).
      { apply Zdigits2_unique; [| lia]. rewrite Heq.
        replace (d + 1 - 1) with d by lia. split; [lia |].
        apply Z.pow_lt_mono_r; lia. }
      rewrite Hd1. rewrite fexp32_eq in *.
      destruct (Z.le_gt_cases (-149) (d + E - 24)) as [Hn | Hs].
      * right. split; [lia |]. rewrite Heq. apply pow2_even; lia.
      * left. lia.
Qed.

Lemma binary_round_aux_spec sx mx ex lx a b :
  0 <= a -> 0 < b -> mx = a / b -> lx = loc_spec a b ->
  (0 < mx /\ ex <= fexp32 (Zdigits2 mx + ex)) \/ (mx = 0 /\ ex <= -149) ->
  exists E m'',
    ex <= E /\ -149 <= E
    /\ (m'' = a / (b * 2 ^ (E - ex))
        \/ (m'' = a / (b * 2 ^ (E - ex)) + 1
            /\ a mod (b * 2 ^ (E - ex)) <> 0))
    /\ (a / (b * 2 ^ (E - ex)) = 0 -> E = -149)
    /\ (0 < a / (b * 2 ^ (E - ex)) ->
        fexp32 (Zdigits2 (a / (b * 2 ^ (E - ex))) + E) = E)
    /\ round_result sx m'' E (binary_round_aux F32.prec F32.emax sx mx ex lx).
Proof.
  intros Ha Hb Hmx Hlx Hpre.
  set (E := fexp32 (Zdigits2 mx + ex)).
  assert (HexE : ex <= E).
  { destruct Hpre as [[_ H] | [-> H]]; [exact H |].
    subst E. cbn [Zdigits2]. rewrite fexp32_eq. lia. }
  assert (HE : -149 <= E) by (subst E; rewrite fexp32_eq; lia).
  set (n := E - ex). assert (Hn : 0 <= n) by lia.
  assert (H2n : 0 < 2 ^ n) by (apply Z.pow_pos_nonneg; lia).
  set (B := b * 2 ^ n). assert (HB : 0 < B) by nia.
  assert (Hdiv : a / B = mx / 2 ^ n)
    by (subst B mx; rewrite Z.div_div by lia; reflexivity).
  assert (Hm'0 : 0 <= a / B) by (apply Z.div_pos; lia).
  assert (Hzero : a / B = 0 -> E = -149).
  { intros H0. destruct Hpre as [[Hpos _] | [Hz Hex]].
    - rewrite Hdiv in H0.
      apply Z.div_small_iff in H0; [| lia]. destruct H0 as [H0 | H0]; [| lia].
      pose proof (Zdigits2_bounds mx Hpos) as Hbd.
      assert (Zdigits2 mx - 1 < n).
      { apply (Z.pow_lt_mono_r_iff 2); lia. }
      subst E n. rewrite fexp32_eq in *. lia.
    - subst E. rewrite Hz. cbn [Zdigits2]. rewrite fexp32_eq. lia. }
  assert (Hcanon : 0 < a / B -> fexp32 (Zdigits2 (a / B) + E) = E).
  { intros Hpos. destruct Hpre as [[Hmxpos _] | [Hz _]].
    - rewrite Hdiv in *. rewrite Zdigits2_div_pow2 by lia.
      subst n.
      replace (Zdigits2 mx - (E - ex) + E) with (Zdigits2 mx + ex) by lia.
      reflexivity.
    - rewrite Hdiv, Hz in Hpos. rewrite Z.div_0_l in Hpos by lia. lia. }
  destruct (shr_shift_inv a b (shr_record_of_loc mx lx) ex n Ha Hb)
    as [Hinv He'];
    [subst mx lx; apply shr_record_of_loc_inv | exact Hn |].
  fold B in Hinv. destruct Hinv as [Hm' Hl'].
  rewrite binary_round_aux_finish.
  unfold shr_fexp at 1 2 3. fold E. fold n.
  rewrite He', Hm', Hl'. replace (ex + n) with E by (subst n; lia).
  exists E, (round_nearest_even (a / B) (loc_spec a B)).
  split; [exact HexE |]. split; [exact HE |].
  destruct (round_nearest_even_cases (a / B) (loc_spec a B)) as [Hr | [Hr Hne]];
    rewrite Hr.
  - split; [left; reflexivity |]. split; [exact Hzero |].
    split; [exact Hcanon |].
    destruct (Z.eq_dec (a / B) 0) as [H0 | H0].
    + left. split; [exact H0 |]. rewrite H0, (Hzero H0). reflexivity.
    + apply round_finish_spec; [lia |]. left. apply Hcanon. lia.
  - split; [right; split; [reflexivity | apply loc_spec_exact; exact Hne] |].
    split; [exact Hzero |]. split; [exact Hcanon |].
    apply round_up_finish; assumption.
Qed.

Lemma pow2_pos e : (0 < 2 ^ e)%Q.
Proof. apply Qpower_0_lt. reflexivity. Qed.

Lemma pow2_add a b : (2 ^ (a + b) == 2 ^ a * 2 ^ b)%Q.
Proof. apply Qpower_plus. discriminate. Qed.

Lemma pow2_inject n : 0 <= n -> (inject_Z (2 ^ n) == 2 ^ n)%Q.
Proof. intros Hn. rewrite Zpower_Qpower by exact Hn. reflexivity. Qed.

Lemma mag_shift m e E : E <= e -> (mag m e == mag (m * 2 ^ (e - E)) E)%Q.
Proof.
  intros H. unfold mag. rewrite inject_Z_mult, pow2_inject by lia.
  replace e with ((e - E) + E) at 1 by lia. rewrite pow2_add. ring.
Qed.

Lemma mag_le m1 m2 e : (mag m1 e <= mag m2 e)%Q <-> m1 <= m2.
Proof.
  unfold mag. rewrite Qmult_le_r by apply pow2_pos. rewrite <- Zle_Qle.
  reflexivity.
Qed.

Lemma mag_lt m1 m2 e : (mag m1 e < mag m2 e)%Q <-> m1 < m2.
Proof.
  unfold mag. rewrite Qmult_lt_r by apply pow2_pos. rewrite <- Zlt_Qlt.
  reflexivity.
Qed.

Lemma mag_scale k m e : (inject_Z k * mag m e == mag (k * m) e)%Q.
Proof. unfold mag. rewrite inject_Z_mult. ring. Qed.

Lemma mag_pos m e : 0 < m -> (0 < mag m e)%Q.
Proof.
  intros H. unfold mag. apply Qmult_lt_0_compat; [| apply pow2_pos].
  change 0%Q with (inject_Z 0). rewrite <- Zlt_Qlt. exact H.
Qed.

Lemma Qcompare_lt p q : (p < q)%Q -> (p ?= q)%Q = Lt.
Proof. apply (proj1 (Qlt_alt p q)). Qed.

Lemma Qcompare_gt p q : (q < p)%Q -> (p ?= q)%Q = Gt.
Proof. apply (proj1 (Qgt_alt p q)). Qed.

Lemma Qcompare_eq p q : (p == q)%Q -> (p ?= q)%Q = Eq.
Proof. apply (proj1 (Qeq_alt p q)). Qed.

Lemma canonical_eq m e :
  canonical m e <-> Z.max (Zdigits2 (Zpos m) + e - 24) (-149) = e.
Proof.
  unfold canonical, canonical_mantissa. rewrite Z.eqb_eq, fexp32_eq.
  cbn [Zdigits2]. reflexivity.
Qed.

(** Among canonical data, a smaller exponent means a smaller value. *)
Lemma canonical_order m1 e1 m2 e2 :
  canonical m1 e1 -> canonical m2 e2 -> e1 < e2 ->
  (mag (Zpos m1) e1 < mag (Zpos m2) e2)%Q.
Proof.
  rewrite !canonical_eq. intros H1 H2 Hlt.
  rewrite (mag_shift (Zpos m2) e2 e1) by lia. apply mag_lt.
  pose proof (Zdigits2_bounds (Zpos m1) ltac:(lia)) as B1.
  pose proof (Zdigits2_bounds (Zpos m2) ltac:(lia)) as B2.
  assert (D2 : Zdigits2 (Zpos m2) = 24) by lia.
  assert (D1 : Zdigits2 (Zpos m1) <= 24) by lia.
  rewrite D2 in B2.
  assert (Z.pos m1 < 2 ^ 24).
  { apply Z.lt_le_trans with (2 ^ Zdigits2 (Z.pos m1)); [lia |].
    apply Z.pow_le_mono_r; lia. }
  assert (2 ^ 1 <= 2 ^ (e2 - e1)) by (apply Z.pow_le_mono_r; lia).
  change (2 ^ 1) with 2 in *. change (2 ^ (24 - 1)) with 8388608 in *.
  change (2 ^ 24) with 16777216 in *. nia.
Qed.

Lemma canonical_exponent_le m1 e1 m2 e2 :
  canonical m1 e1 -> canonical m2 e2 ->
  (mag (Zpos m1) e1 <= mag (Zpos m2) e2)%Q -> e1 <= e2.
Proof.
  intros H1 H2 Hle. destruct (Z.le_gt_cases e1 e2) as [H | H]; [exact H |].
  pose proof (canonical_order m2 e2 m1 e1 H2 H1 H). lra.
Qed.

Lemma canonical_compare m1 e1 m2 e2 :
  canonical m1 e1 -> canonical m2 e2 ->
  (mag (Zpos m1) e1 ?= mag (Zpos m2) e2)%Q
  = match e1 ?= e2 with
    | Lt => Lt
    | Gt => Gt
    | Eq => Pos.compare_cont Eq m1 m2
    end.
Proof.
  intros H1 H2. destruct (Z.compare_spec e1 e2) as [He | He | He].
  - subst e2. change (Pos.compare_cont Eq m1 m2) with (Zpos m1 ?= Zpos m2).
    destruct (Z.compare_spec (Zpos m1) (Zpos m2)) as [Hm | Hm | Hm].
    + rewrite Hm. apply Qcompare_eq. reflexivity.
    + apply Qcompare_lt. apply mag_lt. exact Hm.
    + apply Qcompare_gt. apply mag_lt. exact Hm.
  - apply Qcompare_lt. apply canonical_order; assumption.
  - apply Qcompare_gt. apply canonical_order; assumption.
Qed.

Lemma canonical_emin m e : canonical m e -> -149 <= e.
Proof. rewrite canonical_eq. lia. Qed.

Lemma round_result_value sx m E R :
  round_result sx m E R -> 0 < m ->
  exists m3 e3,
    canonical m3 e3
    /\ (mag (Zpos m3) e3 == mag m E)%Q
    /\ R = if e3 <=? 104 then S754_finite sx m3 e3 else S754_infinity sx.
Proof.
  intros [[H0 _] | (m3 & e3 & HE & Hm & Hc & HR)] Hpos; [lia |].
  exists m3, e3. split; [exact Hc |]. split; [| exact HR].
  rewrite (mag_shift (Zpos m3) e3 E) by lia. rewrite Hm. reflexivity.
Qed.

Lemma floor_scaled_le a b n m' E ex :
  0 <= a -> 0 < b -> E - ex = n -> 0 <= n -> m' = a / (b * 2 ^ n) ->
  (inject_Z b * mag m' E <= mag a ex)%Q.
Proof.
  intros Ha Hb Hn Hn0 Hm'. rewrite mag_scale.
  rewrite (mag_shift (b * m') E ex) by lia. apply mag_le. rewrite Hn.
  assert (0 < 2 ^ n) by (apply Z.pow_pos_nonneg; lia).
  pose proof (Z.mul_div_le a (b * 2 ^ n) ltac:(nia)). subst m'. nia.
Qed.

Lemma floor_up_le a B G :
  0 < B -> a <= B * G -> a mod B <> 0 -> a / B + 1 <= G.
Proof.
  intros HB Hle Hrem.
  pose proof (Z.div_mod a B ltac:(lia)) as Hdm.
  pose proof (Z.mod_pos_bound a B HB) as Hmb.
  assert (B * (a / B) < B * G) by lia.
  assert (a / B < G) by (apply (Z.mul_lt_mono_pos_l B); assumption). lia.
Qed.

Lemma round_magnitude_le sx mx ex lx a b mf ef :
  0 < a -> 0 < b -> mx = a / b -> lx = loc_spec a b ->
  round_pre mx ex ->
  canonical mf ef -> ef <= 104 ->
  (mag a ex <= inject_Z b * mag (Zpos mf) ef)%Q ->
  binary_round_aux F32.prec F32.emax sx mx ex lx = S754_zero sx
  \/ exists m3 e3,
       binary_round_aux F32.prec F32.emax sx mx ex lx = S754_finite sx m3 e3
       /\ canonical m3 e3 /\ e3 <= 104
       /\ (mag (Zpos m3) e3 <= mag (Zpos mf) ef)%Q.
Proof.
  intros Ha Hb Hmx Hlx Hpre Hcf Hef Hle.
  destruct (binary_round_aux_spec sx mx ex lx a b ltac:(lia) Hb Hmx Hlx Hpre)
    as (E & m'' & HexE & HE & Hm'' & Hzero & Hcanon & Hres).
  set (n := E - ex) in *. assert (Hn : 0 <= n) by lia.
  assert (H2n : 0 < 2 ^ n) by (apply Z.pow_pos_nonneg; lia).
  set (B := b * 2 ^ n) in *. assert (HB : 0 < B) by nia.
  set (m' := a / B) in *.
  assert (Hm'0 : 0 <= m') by (apply Z.div_pos; lia).
  pose proof (canonical_emin mf ef Hcf) as Hefmin.
  assert (Hqb : (0 < inject_Z b)%Q)
    by (change 0%Q with (inject_Z 0); rewrite <- Zlt_Qlt; exact Hb).
  assert (HefE : E <= ef).
  { destruct (Z.eq_dec m' 0) as [H0 | H0]; [rewrite (Hzero H0); exact Hefmin |].
    destruct (Z.le_gt_cases E ef) as [H | H]; [exact H | exfalso].
    assert (Hpos : 0 < m') by lia. specialize (Hcanon Hpos).
    destruct m' as [| p | p] eqn:Ep; try lia.
    assert (Hcp : canonical p E)
      by (unfold canonical, canonical_mantissa; cbn [Zdigits2] in Hcanon;
          rewrite Hcanon; apply Z.eqb_refl).
    pose proof (canonical_order mf ef p E Hcf Hcp H) as Hlt.
    pose proof (floor_scaled_le a b n (Zpos p) E ex ltac:(lia) Hb eq_refl Hn
                  ltac:(subst m' B; congruence)) as Hfl.
    assert ((inject_Z b * mag (Zpos mf) ef < inject_Z b * mag (Zpos p) E)%Q)
      by (apply Qmult_lt_l; assumption).
    lra. }
  set (G := Zpos mf * 2 ^ (ef - E)).
  assert (HaBG : a <= B * G).
  { rewrite mag_scale in Hle.
    rewrite (mag_shift (b * Zpos mf) ef ex) in Hle by lia.
    apply mag_le in Hle.
    replace (ef - ex) with ((ef - E) + n) in Hle by (subst n; lia).
    rewrite Z.pow_add_r in Hle by lia. subst B G. nia. }
  assert (Hm''G : m'' <= G).
  { assert (m' <= G) by (subst m'; apply Z.div_le_upper_bound; lia).
    destruct Hm'' as [-> | [-> Hrem]]; [assumption |].
    apply floor_up_le; assumption. }
  assert (Hm''0 : 0 <= m'') by (destruct Hm'' as [-> | [-> _]]; lia).
  destruct (Z.eq_dec m'' 0) as [H0 | H0].
  - left. destruct Hres as [[_ HR] | (m3 & e3 & He3 & Hm3 & _)]; [exact HR |].
    assert (Hp : 0 < 2 ^ (e3 - E)) by (apply Z.pow_pos_nonneg; lia).
    pose proof (Z.mul_pos_pos (Zpos m3) _ ltac:(lia) Hp). lia.
  - right.
    destruct (round_result_value sx m'' E _ Hres ltac:(lia))
      as (m3 & e3 & Hc3 & Hv3 & HR).
    assert (Hval : (mag (Zpos m3) e3 <= mag (Zpos mf) ef)%Q).
    { rewrite Hv3. rewrite (mag_shift (Zpos mf) ef E) by lia.
      apply mag_le. exact Hm''G. }
    pose proof (canonical_exponent_le m3 e3 mf ef Hc3 Hcf Hval) as He3.
    exists m3, e3. split; [| auto with zarith].
    rewrite HR. destruct (Z.leb_spec e3 104); [reflexivity | lia].
Qed.

Lemma round_magnitude_ge sx mx ex lx a b mf ef :
  0 < a -> 0 < b -> mx = a / b -> lx = loc_spec a b ->
  round_pre mx ex ->
  canonical mf ef ->
  (inject_Z b * mag (Zpos mf) ef <= mag a ex)%Q ->
  binary_round_aux F32.prec F32.emax sx mx ex lx = S754_infinity sx
  \/ exists m3 e3,
       binary_round_aux F32.prec F32.emax sx mx ex lx = S754_finite sx m3 e3
       /\ canonical m3 e3 /\ e3 <= 104
       /\ (mag (Zpos mf) ef <= mag (Zpos m3) e3)%Q.
Proof.
  intros Ha Hb Hmx Hlx Hpre Hcf Hle.
  destruct (binary_round_aux_spec sx mx ex lx a b ltac:(lia) Hb Hmx Hlx Hpre)
    as (E & m'' & HexE & HE & Hm'' & Hzero & Hcanon & Hres).
  set (n := E - ex) in *. assert (Hn : 0 <= n) by lia.
  assert (H2n : 0 < 2 ^ n) by (apply Z.pow_pos_nonneg; lia).
  set (B := b * 2 ^ n) in *. assert (HB : 0 < B) by nia.
  set (m' := a / B) in *.
  assert (Hm'0 : 0 <= m') by (apply Z.div_pos; lia).
  pose proof (canonical_emin mf ef Hcf) as Hefmin.
  assert (Hm'm'' : m' <= m'') by (destruct Hm'' as [-> | [-> _]]; lia).
  assert (Hval : (mag (Zpos mf) ef <= mag m'' E)%Q).
  { destruct (Z.le_gt_cases E ef) as [HefE | HefE].
    - rewrite (mag_shift (Zpos mf) ef E) by lia. apply mag_le.
      apply Z.le_trans with m'; [| exact Hm'm''].
      rewrite mag_scale in Hle.
      rewrite (mag_shift (b * Zpos mf) ef ex) in Hle by lia.
      apply mag_le in Hle.
      replace (ef - ex) with ((ef - E) + n) in Hle by (subst n; lia).
      rewrite Z.pow_add_r in Hle by lia.
      subst m'. apply Z.div_le_lower_bound; [lia |]. subst B. nia.
    - destruct (Z.eq_dec m' 0) as [H0 | H0]; [specialize (Hzero H0); lia |].
      assert (Hpos : 0 < m') by lia. specialize (Hcanon Hpos).
      destruct m' as [| p | p] eqn:Ep; try lia.
      assert (Hcp : canonical p E)
        by (unfold canonical, canonical_mantissa; cbn [Zdigits2] in Hcanon;
            rewrite Hcanon; apply Z.eqb_refl).
      pose proof (canonical_order mf ef p E Hcf Hcp HefE) as Hlt.
      assert ((mag (Zpos p) E <= mag m'' E)%Q) by (apply mag_le; exact Hm'm'').
      lra. }
  assert (Hm''pos : 0 < m'').
  { pose proof (mag_pos (Zpos mf) ef ltac:(lia)) as HF.
    destruct (Z.lt_ge_cases 0 m'') as [H | H]; [exact H | exfalso].
    assert ((mag m'' E <= mag 0 E)%Q) by (apply mag_le; lia).
    unfold mag at 2 in H0. change (inject_Z 0) with 0%Q in H0. lra. }
  destruct (round_result_value sx m'' E _ Hres Hm''pos)
    as (m3 & e3 & Hc3 & Hv3 & HR).
  rewrite HR.
  destruct (Z.leb_spec e3 104) as [He3 | He3]; [right | left; reflexivity].
  exists m3, e3. split; [reflexivity |]. split; [exact Hc3 |].
  split; [exact He3 |]. rewrite Hv3. exact Hval.
Qed.

Lemma round_shape sx mx ex lx a b :
  0 < a -> 0 < b -> mx = a / b -> lx = loc_spec a b ->
  round_pre mx ex ->
  let R := binary_round_aux F32.prec F32.emax sx mx ex lx in
  R = S754_zero sx
  \/ R = S754_infinity sx
  \/ exists m3 e3, R = S754_finite sx m3 e3 /\ canonical m3 e3 /\ e3 <= 104.
Proof.
  intros Ha Hb Hmx Hlx Hpre R. subst R.
  destruct (binary_round_aux_spec sx mx ex lx a b ltac:(lia) Hb Hmx Hlx Hpre)
    as (E & m'' & _ & _ & _ & _ & _ & Hres).
  destruct Hres as [[_ HR] | (m3 & e3 & _ & _ & Hc & HR)]; [left; exact HR |].
  right. rewrite HR. destruct (Z.leb_spec e3 (F32.emax - F32.prec)) as [H | H].
  - right. exists m3, e3. split; [reflexivity |]. split; [exact Hc |]. exact H.
  - left. reflexivity.
Qed.

Lemma valid_finite s m e :
  F32.valid (S754_finite s m e) = true <-> canonical m e /\ e <= 104.
Proof.
  unfold F32.valid, valid_binary, bounded, canonical.
  rewrite andb_true_iff, Z.leb_le. reflexivity.
Qed.

Lemma Qcompare_opp a b : (- a ?= - b)%Q = (b ?= a)%Q.
Proof.
  destruct (Qcompare_spec b a) as [H | H | H].
  - apply Qcompare_eq. rewrite H. reflexivity.
  - apply Qcompare_lt. lra.
  - apply Qcompare_gt. lra.
Qed.

Lemma SFcompare_F2Q f1 f2 :
  F32.valid f1 = true -> F32.valid f2 = true ->
  F32.is_finite f1 = true -> F32.is_finite f2 = true ->
  SFcompare f1 f2 = Some (F2Q f1 ?= F2Q f2)%Q.
Proof.
  intros V1 V2 N1 N2.
  destruct f1 as [s1 | s1 | | s1 m1 e1]; try discriminate;
    destruct f2 as [s2 | s2 | | s2 m2 e2]; try discriminate.
  - reflexivity.
  - pose proof (mag_pos (Zpos m2) e2 ltac:(lia)) as Hp.
    cbn [SFcompare F2Q]. f_equal. symmetry.
    destruct s2; cbn [sgn]; [apply Qcompare_gt | apply Qcompare_lt]; lra.
  - pose proof (mag_pos (Zpos m1) e1 ltac:(lia)) as Hp.
    cbn [SFcompare F2Q]. f_equal. symmetry.
    destruct s1; cbn [sgn]; [apply Qcompare_lt | apply Qcompare_gt]; lra.
  - apply valid_finite in V1, V2. destruct V1 as [C1 _], V2 as [C2 _].
    pose proof (mag_pos (Zpos m1) e1 ltac:(lia)) as Hp1.
    pose proof (mag_pos (Zpos m2) e2 ltac:(lia)) as Hp2.
    cbn [SFcompare F2Q]. f_equal. symmetry.
    destruct s1, s2; cbn [sgn].
    + rewrite Qcompare_opp. rewrite (canonical_compare m2 e2 m1 e1 C2 C1).
      rewrite (Z.compare_antisym e2 e1).
      destruct (e2 ?= e1); cbn [CompOpp]; try reflexivity.
      symmetry. apply (Pos.compare_cont_antisym m1 m2 Eq).
    + apply Qcompare_lt. lra.
    + apply Qcompare_gt. lra.
    + apply canonical_compare; assumption.
Qed.

Lemma SFleb_F2Q f1 f2 :
  F32.valid f1 = true -> F32.valid f2 = true ->
  F32.is_finite f1 = true -> F32.is_finite f2 = true ->
  (SFleb f1 f2 = true <-> (F2Q f1 <= F2Q f2)%Q).
Proof.
  intros V1 V2 N1 N2. unfold SFleb.
  rewrite (SFcompare_F2Q f1 f2 V1 V2 N1 N2).
  destruct (Qcompare_spec (F2Q f1) (F2Q f2)) as [H | H | H];
    split; intros; try reflexivity; try discriminate; lra.
Qed.

Lemma SFltb_F2Q f1 f2 :
  F32.valid f1 = true -> F32.valid f2 = true ->
  F32.is_finite f1 = true -> F32.is_finite f2 = true ->
  (SFltb f1 f2 = true <-> (F2Q f1 < F2Q f2)%Q).
Proof.
  intros V1 V2 N1 N2. unfold SFltb.
  rewrite (SFcompare_F2Q f1 f2 V1 V2 N1 N2).
  destruct (Qcompare_spec (F2Q f1) (F2Q f2)) as [H | H | H];
    split; intros; try reflexivity; try discriminate; lra.
Qed.

Section SignedRounding.
Variables (sx : bool) (mx ex : Z) (lx : location) (a b : Z).
Hypothesis Ha : 0 < a.
Hypothesis Hb : 0 < b.
Hypothesis Hmx : mx = a / b.
Hypothesis Hlx : lx = loc_spec a b.
Hypothesis Hpre : round_pre mx ex.

Let R := binary_round_aux F32.prec F32.emax sx mx ex lx.

Lemma round_aux_valid : F32.valid R = true.
Proof.
  destruct (round_shape sx mx ex lx a b Ha Hb Hmx Hlx Hpre)
    as [H | [H | (m3 & e3 & H & Hc & He)]]; fold R in H; rewrite H;
    try reflexivity.
  apply valid_finite. auto.
Qed.

Lemma round_aux_le F :
  F32.valid F = true -> F32.is_finite F = true ->
  (sgn sx (mag a ex) <= inject_Z b * F2Q F)%Q ->
  SFleb R F = true.
Proof.
  intros VF NF Hle.
  pose proof (mag_pos a ex Ha) as Hpa.
  assert (Hqb : (0 < inject_Z b)%Q)
    by (change 0%Q with (inject_Z 0); rewrite <- Zlt_Qlt; exact Hb).
  destruct F as [sf | sf | | sf mf ef]; try discriminate.
  - (* F = 0 *)
    destruct sx; cbn [sgn F2Q] in Hle; [| lra].
    destruct (round_shape true mx ex lx a b Ha Hb Hmx Hlx Hpre)
      as [H | [H | (m3 & e3 & H & _)]]; fold R in H; rewrite H; reflexivity.
  - apply valid_finite in VF. destruct VF as [Cf Hef].
    pose proof (mag_pos (Zpos mf) ef ltac:(lia)) as Hpf.
    assert (Hbf : (0 < inject_Z b * mag (Zpos mf) ef)%Q)
      by (apply Qmult_lt_0_compat; assumption).
    cbn [F2Q] in Hle. destruct sx, sf; cbn [sgn] in Hle.
    + (* both negative *)
      destruct (round_magnitude_ge true mx ex lx a b mf ef
                  Ha Hb Hmx Hlx Hpre Cf)
        as [H | (m3 & e3 & H & Hc & He & Hv)]; [lra | |];
        fold R in H; rewrite H.
      * reflexivity.
      * apply SFleb_F2Q; try reflexivity; try (apply valid_finite; auto).
        cbn [F2Q sgn]. lra.
    + destruct (round_shape true mx ex lx a b Ha Hb Hmx Hlx Hpre)
        as [H | [H | (m3 & e3 & H & _)]]; fold R in H; rewrite H; reflexivity.
    + lra.
    + destruct (round_magnitude_le false mx ex lx a b mf ef
                  Ha Hb Hmx Hlx Hpre Cf Hef)
        as [H | (m3 & e3 & H & Hc & He & Hv)]; [lra | |];
        fold R in H; rewrite H.
      * reflexivity.
      * apply SFleb_F2Q; try reflexivity; try (apply valid_finite; auto).
        cbn [F2Q sgn]. lra.
Qed.

Lemma round_aux_ge F :
  F32.valid F = true -> F32.is_finite F = true ->
  (inject_Z b * F2Q F <= sgn sx (mag a ex))%Q ->
  SFleb F R = true.
Proof.
  intros VF NF Hle.
  pose proof (mag_pos a ex Ha) as Hpa.
  assert (Hqb : (0 < inject_Z b)%Q)
    by (change 0%Q with (inject_Z 0); rewrite <- Zlt_Qlt; exact Hb).
  destruct F as [sf | sf | | sf mf ef]; try discriminate.
  - destruct sx; cbn [sgn F2Q] in Hle; [lra |].
    destruct (round_shape false mx ex lx a b Ha Hb Hmx Hlx Hpre)
      as [H | [H | (m3 & e3 & H & _)]]; fold R in H; rewrite H; reflexivity.
  - apply valid_finite in VF. destruct VF as [Cf Hef].
    pose proof (mag_pos (Zpos mf) ef ltac:(lia)) as Hpf.
    assert (Hbf : (0 < inject_Z b * mag (Zpos mf) ef)%Q)
      by (apply Qmult_lt_0_compat; assumption).
    cbn [F2Q] in Hle. destruct sx, sf; cbn [sgn] in Hle.
    + destruct (round_magnitude_le true mx ex lx a b mf ef
                  Ha Hb Hmx Hlx Hpre Cf Hef)
        as [H | (m3 & e3 & H & Hc & He & Hv)]; [lra | |];
        fold R in H; rewrite H.
      * reflexivity.
      * apply SFleb_F2Q; try reflexivity; try (apply valid_finite; auto).
        cbn [F2Q sgn]. lra.
    + lra.
    + destruct (round_shape false mx ex lx a b Ha Hb Hmx Hlx Hpre)
        as [H | [H | (m3 & e3 & H & _)]]; fold R in H; rewrite H; reflexivity.
    + destruct (round_magnitude_ge false mx ex lx a b mf ef
                  Ha Hb Hmx Hlx Hpre Cf)
        as [H | (m3 & e3 & H & Hc & He & Hv)]; [lra | |];
        fold R in H; rewrite H.
      * reflexivity.
      * apply SFleb_F2Q; try reflexivity; try (apply valid_finite; auto).
        cbn [F2Q sgn]. lra.
Qed.
End SignedRounding.

Lemma iter_xO m d : Zpos (Pos.iter xO m d) = Zpos m * 2 ^ Zpos d.
Proof.
  induction d as [| d IH] using Pos.peano_ind.
  - cbn. lia.
  - rewrite Pos.iter_succ, Pos2Z.inj_xO, IH, Pos2Z.inj_succ.
    rewrite Z.pow_succ_r by lia. ring.
Qed.

Lemma shl_align_spec mx ex ex' :
  snd (shl_align mx ex ex') = Z.min ex ex'
  /\ Zpos (fst (shl_align mx ex ex')) = Zpos mx * 2 ^ (ex - Z.min ex ex').
Proof.
  unfold shl_align. destruct (ex' - ex) as [| d | d] eqn:Hd; cbn [fst snd].
  - replace (Z.min ex ex') with ex by lia. rewrite Z.sub_diag. cbn. lia.
  - replace (Z.min ex ex') with ex by lia. rewrite Z.sub_diag. cbn. lia.
  - replace (Z.min ex ex') with ex' by lia. split; [reflexivity |].
    rewrite iter_xO. f_equal. f_equal. lia.
Qed.

Lemma exact_described (m : positive) :
  Zpos m = Zpos m / 1 /\ loc_Exact = loc_spec (Zpos m) 1.
Proof.
  split; [rewrite Z.div_1_r; reflexivity |].
  unfold loc_spec. rewrite Z.mod_1_r. reflexivity.
Qed.

Lemma binary_round_eq sx mx ex :
  exists mz ez,
    binary_round F32.prec F32.emax sx mx ex
    = binary_round_aux F32.prec F32.emax sx (Zpos mz) ez loc_Exact
    /\ round_pre (Zpos mz) ez
    /\ (mag (Zpos mz) ez == mag (Zpos mx) ex)%Q.
Proof.
  unfold binary_round.
  pose proof (shl_align_spec mx ex (fexp32 (Zpos (digits2_pos mx) + ex)))
    as [Hez Hmz].
  destruct (shl_align mx ex (fexp32 (Zpos (digits2_pos mx) + ex)))
    as [mz ez]. cbn [fst snd] in *.
  exists mz, ez. split; [reflexivity |].
  assert (Hle : ez <= ex) by lia.
  split.
  - left. split; [lia |]. rewrite Hmz.
    rewrite Zdigits2_mul_pow2 by lia. rewrite <- Hez.
    replace (Zdigits2 (Z.pos mx) + (ex - ez) + ez)
      with (Zpos (digits2_pos mx) + ex) by (cbn [Zdigits2]; lia).
    lia.
  - rewrite (mag_shift (Zpos mx) ex ez) by lia. rewrite Hmz, <- Hez.
    reflexivity.
Qed.

Lemma mag_neg p e : (mag (Zneg p) e == - mag (Zpos p) e)%Q.
Proof.
  unfold mag. change (Zneg p) with (- Zpos p). rewrite inject_Z_opp. ring.
Qed.

Lemma mag_zero e : (mag 0 e == 0)%Q.
Proof. unfold mag. change (inject_Z 0) with 0%Q. ring. Qed.

Lemma mag_add m1 m2 e : (mag (m1 + m2) e == mag m1 e + mag m2 e)%Q.
Proof. unfold mag. rewrite inject_Z_plus. ring. Qed.

Lemma mag_sub m1 m2 e : (mag (m1 - m2) e == mag m1 e - mag m2 e)%Q.
Proof.
  unfold mag, Z.sub. rewrite inject_Z_plus, inject_Z_opp. ring.
Qed.

Lemma rounds_to_valid R v : rounds_to R v -> F32.valid R = true.
Proof.
  intros [(_ & H & _)
         | (sx & mx & ex & lx & a & b
            & Ha & Hb & Hmx & Hlx & Hpre & -> & _)];
    [exact H |].
  apply (round_aux_valid sx mx ex lx a b); assumption.
Qed.

Lemma rounds_to_le R v F :
  rounds_to R v -> F32.valid F = true -> F32.is_finite F = true ->
  (v <= F2Q F)%Q -> SFleb R F = true.
Proof.
  intros [(N & V & Hv)
         | (sx & mx & ex & lx & a & b
            & Ha & Hb & Hmx & Hlx & Hpre & -> & Hv)]
    VF NF Hle.
  - apply SFleb_F2Q; auto. lra.
  - apply (round_aux_le sx mx ex lx a b); auto. rewrite Hv.
    apply Qmult_le_l; [| exact Hle].
    change 0%Q with (inject_Z 0); rewrite <- Zlt_Qlt; exact Hb.
Qed.

Lemma rounds_to_ge R v F :
  rounds_to R v -> F32.valid F = true -> F32.is_finite F = true ->
  (F2Q F <= v)%Q -> SFleb F R = true.
Proof.
  intros [(N & V & Hv)
         | (sx & mx & ex & lx & a & b
            & Ha & Hb & Hmx & Hlx & Hpre & -> & Hv)]
    VF NF Hle.
  - apply SFleb_F2Q; auto. lra.
  - apply (round_aux_ge sx mx ex lx a b); auto. rewrite Hv.
    apply Qmult_le_l; [| exact Hle].
    change 0%Q with (inject_Z 0); rewrite <- Zlt_Qlt; exact Hb.
Qed.

Lemma binary_round_rounds sx mx ex :
  rounds_to (binary_round F32.prec F32.emax sx mx ex)
            (sgn sx (mag (Zpos mx) ex)).
Proof.
  destruct (binary_round_eq sx mx ex) as (mz & ez & -> & Hpre & Hv).
  destruct (exact_described mz) as [Hm Hl].
  right. exists sx, (Zpos mz), ez, loc_Exact, (Zpos mz), 1.
  split; [lia |]. split; [lia |]. split; [exact Hm |]. split; [exact Hl |].
  split; [exact Hpre |]. split; [reflexivity |].
  change (inject_Z 1) with 1%Q. destruct sx; cbn [sgn]; lra.
Qed.

Lemma normalize_rounds z e :
  rounds_to (binary_normalize F32.prec F32.emax z e false) (mag z e).
Proof.
  destruct z as [| p | p]; cbn [binary_normalize].
  - left. split; [reflexivity |]. split; [reflexivity |].
    cbn [F2Q]. rewrite mag_zero. reflexivity.
  - apply (binary_round_rounds false p e).
  - destruct (binary_round_rounds true p e)
      as [(N & V & Hv)
         | (sx & mx & ex & lx & a & b
            & Ha & Hb & Hmx & Hlx & Hpre & HR & Hv)].
    + left. split; [exact N |]. split; [exact V |].
      rewrite Hv. cbn [sgn]. rewrite mag_neg. reflexivity.
    + right. exists sx, mx, ex, lx, a, b. repeat (split; [assumption |]).
      rewrite Hv. cbn [sgn]. rewrite mag_neg. reflexivity.
Qed.

Lemma rounds_to_ext R v w : rounds_to R v -> (v == w)%Q -> rounds_to R w.
Proof.
  intros [(N & V & Hv)
         | (sx & mx & ex & lx & a & b
            & Ha & Hb & Hmx & Hlx & Hpre & HR & Hv)] Heq.
  - left. split; [exact N |]. split; [exact V |]. lra.
  - right. exists sx, mx, ex, lx, a, b. repeat (split; [assumption |]).
    rewrite Hv, Heq. reflexivity.
Qed.

(** Alignment of a mantissa onto a smaller exponent keeps the value. *)
Lemma aligned_value s m e ez :
  ez <= e ->
  (mag (cond_Zopp s (Zpos (fst (shl_align m e ez)))) ez
   == F2Q (S754_finite s m e))%Q.
Proof.
  intros Hle. destruct (shl_align_spec m e ez) as [_ Hm].
  replace (Z.min e ez) with ez in Hm by lia. rewrite Hm.
  cbn [F2Q]. pose proof (mag_shift (Zpos m) e ez Hle) as Hs.
  destruct s; cbn [cond_Zopp sgn]; [| lra].
  rewrite Hs. unfold mag. rewrite inject_Z_opp. ring.
Qed.

Lemma exact_rounds R : 
  F32.is_finite R = true -> F32.valid R = true -> rounds_to R (F2Q R).
Proof.
  intros N V. left. split; [exact N |]. split; [exact V | reflexivity].
Qed.

Lemma add_rounds x y :
  F32.valid x = true -> F32.valid y = true ->
  F32.is_finite x = true -> F32.is_finite y = true ->
  rounds_to (F32.add x y) (F2Q x + F2Q y).
Proof.
  intros Vx Vy Nx Ny.
  destruct x as [sx | sx | | sx mx ex]; try discriminate;
    destruct y as [sy | sy | | sy my ey]; try discriminate.
  - left. destruct sx, sy; (split; [reflexivity |]; split; reflexivity).
  - apply rounds_to_ext with (F2Q (S754_finite sy my ey));
      [apply exact_rounds; assumption | cbn [F2Q]; lra].
  - apply rounds_to_ext with (F2Q (S754_finite sx mx ex));
      [apply exact_rounds; assumption | cbn [F2Q]; lra].
  - unfold F32.add. cbn [SFadd].
    eapply rounds_to_ext; [apply normalize_rounds |].
    rewrite mag_add. rewrite !aligned_value by lia. reflexivity.
Qed.

Lemma sub_rounds x y :
  F32.valid x = true -> F32.valid y = true ->
  F32.is_finite x = true -> F32.is_finite y = true ->
  rounds_to (F32.sub x y) (F2Q x - F2Q y).
Proof.
  intros Vx Vy Nx Ny.
  destruct x as [sx | sx | | sx mx ex]; try discriminate;
    destruct y as [sy | sy | | sy my ey]; try discriminate.
  - left. destruct sx, sy; (split; [reflexivity |]; split; reflexivity).
  - left. unfold F32.sub. cbn [SFsub]. split; [reflexivity |].
    split; [exact Vy |]. cbn [F2Q]. destruct sy; cbn [negb sgn]; lra.
  - apply rounds_to_ext with (F2Q (S754_finite sx mx ex));
      [apply exact_rounds; assumption | cbn [F2Q]; lra].
  - unfold F32.sub. cbn [SFsub].
    eapply rounds_to_ext; [apply normalize_rounds |].
    rewrite mag_sub. rewrite !aligned_value by lia. reflexivity.
Qed.

Lemma Zdigits2_pow2 k : 0 <= k -> Zdigits2 (2 ^ k) = k + 1.
Proof.
  intros Hk. assert (0 < 2 ^ k) by (apply Z.pow_pos_nonneg; lia).
  rewrite Zdigits2_log2 by lia. rewrite Z.log2_pow2 by lia. reflexivity.
Qed.

Lemma Zdigits2_mul_ge m1 m2 :
  0 < m1 -> 0 < m2 -> Zdigits2 m1 + Zdigits2 m2 - 1 <= Zdigits2 (m1 * m2).
Proof.
  intros H1 H2.
  pose proof (Zdigits2_bounds m1 H1) as B1.
  pose proof (Zdigits2_bounds m2 H2) as B2.
  pose proof (Zdigits2_pos m1 H1) as P1.
  pose proof (Zdigits2_pos m2 H2) as P2.
  set (d1 := Zdigits2 m1) in *. set (d2 := Zdigits2 m2) in *.
  assert (Hp : 2 ^ (d1 + d2 - 2) <= m1 * m2).
  { replace (d1 + d2 - 2) with ((d1 - 1) + (d2 - 1)) by lia.
    rewrite Z.pow_add_r by lia.
    assert (0 < 2 ^ (d1 - 1)) by (apply Z.pow_pos_nonneg; lia).
    assert (0 < 2 ^ (d2 - 1)) by (apply Z.pow_pos_nonneg; lia).
    apply Z.mul_le_mono_nonneg; lia. }
  assert (0 < 2 ^ (d1 + d2 - 2)) by (apply Z.pow_pos_nonneg; lia).
  pose proof (Zdigits2_le _ _ H Hp) as Hd.
  rewrite Zdigits2_pow2 in Hd by lia. lia.
Qed.

Lemma mag_mul m1 e1 m2 e2 :
  (mag (m1 * m2) (e1 + e2) == mag m1 e1 * mag m2 e2)%Q.
Proof. unfold mag. rewrite inject_Z_mult, pow2_add. ring. Qed.

Lemma mul_rounds x y :
  F32.valid x = true -> F32.valid y = true ->
  F32.is_finite x = true -> F32.is_finite y = true ->
  rounds_to (F32.mul x y) (F2Q x * F2Q y).
Proof.
  intros Vx Vy Nx Ny.
  destruct x as [sx | sx | | sx mx ex]; try discriminate;
    destruct y as [sy | sy | | sy my ey]; try discriminate;
    try (left; split; [reflexivity |]; split; [reflexivity |];
         unfold F32.mul; cbn [SFmul F2Q]; ring).
  apply valid_finite in Vx, Vy. destruct Vx as [Cx _], Vy as [Cy _].
  apply canonical_eq in Cx, Cy.
  unfold F32.mul. cbn [SFmul].
  destruct (exact_described (mx * my)) as [Hm Hl].
  right.
  exists (xorb sx sy), (Zpos (mx * my)), (ex + ey), loc_Exact,
         (Zpos (mx * my)), 1.
  split; [lia |]. split; [lia |]. split; [exact Hm |]. split; [exact Hl |].
  split.
  - left. split; [lia |]. rewrite fexp32_eq. rewrite Pos2Z.inj_mul.
    pose proof (Zdigits2_mul_ge (Zpos mx) (Zpos my) ltac:(lia) ltac:(lia)).
    pose proof (Zdigits2_pos (Zpos mx) ltac:(lia)).
    pose proof (Zdigits2_pos (Zpos my) ltac:(lia)).
    lia.
  - split; [reflexivity |]. change (inject_Z 1) with 1%Q.
    pose proof (mag_mul (Zpos mx) ex (Zpos my) ey) as Hp.
    rewrite <- Pos2Z.inj_mul in Hp. cbn [F2Q].
    destruct sx, sy; cbn [xorb sgn]; rewrite Hp; ring.
Qed.

Lemma new_location_spec nb k :
  0 < nb ->
  new_location nb k
  = if k =? 0 then loc_Exact else loc_Inexact (2 * k ?= nb).
Proof.
  intros Hnb. unfold new_location.
  destruct (Z.even nb) eqn:Hev; [reflexivity |].
  unfold new_location_odd. destruct (k =? 0); [reflexivity |]. f_equal.
  assert (Hodd : Z.odd nb = true) by (rewrite <- Z.negb_even, Hev; reflexivity).
  apply Z.odd_spec in Hodd. destruct Hodd as [h Hh].
  destruct (Z.compare_spec (2 * k + 1) nb);
    destruct (Z.compare_spec (2 * k) nb); try reflexivity; lia.
Qed.

Lemma shift_match m s :
  0 <= s ->
  match s with
  | 0 => m
  | Z.pos _ => Z.shiftl m s
  | Z.neg _ => 0
  end = m * 2 ^ s.
Proof.
  intros Hs. destruct s as [| p | p].
  - rewrite Z.pow_0_r. lia.
  - rewrite Z.shiftl_mul_pow2 by lia. reflexivity.
  - lia.
Qed.

Lemma div_core_spec m1 e1 m2 e2 :
  exists q e' l s,
    SFdiv_core_binary F32.prec F32.emax (Zpos m1) e1 (Zpos m2) e2 = (q, e', l)
    /\ 0 <= s /\ e' + s = e1 - e2
    /\ q = (Zpos m1 * 2 ^ s) / Zpos m2
    /\ l = loc_spec (Zpos m1 * 2 ^ s) (Zpos m2)
    /\ round_pre q e'.
Proof.
  unfold SFdiv_core_binary.
  set (d1 := Zdigits2 (Zpos m1)). set (d2 := Zdigits2 (Zpos m2)).
  set (e' := Z.min (fexp32 (d1 + e1 - (d2 + e2))) (e1 - e2)).
  set (s := e1 - e2 - e').
  assert (Hs : 0 <= s) by (subst s e'; lia).
  set (m' := match s with
             | 0 => Z.pos m1
             | Z.pos _ => Z.shiftl (Z.pos m1) s
             | Z.neg _ => 0
             end).
  assert (Hm' : m' = Zpos m1 * 2 ^ s) by (apply shift_match; exact Hs).
  assert (H2s : 0 < 2 ^ s) by (apply Z.pow_pos_nonneg; lia).
  destruct (Z.div_eucl m' (Z.pos m2)) as [q r] eqn:Hde.
  assert (Hq : q = m' / Zpos m2) by (unfold Z.div; rewrite Hde; reflexivity).
  assert (Hr : r = m' mod Zpos m2)
    by (unfold Z.modulo; rewrite Hde; reflexivity).
  exists q, e', (new_location (Zpos m2) r), s.
  split; [reflexivity |]. split; [exact Hs |]. split; [subst s; lia |].
  split; [rewrite <- Hm'; exact Hq |].
  split.
  { rewrite new_location_spec by lia. unfold loc_spec.
    rewrite <- Hm', <- Hr. reflexivity. }
  pose proof (Zdigits2_bounds (Zpos m1) ltac:(lia)) as B1.
  pose proof (Zdigits2_bounds (Zpos m2) ltac:(lia)) as B2.
  pose proof (Zdigits2_pos (Zpos m1) ltac:(lia)) as P1.
  pose proof (Zdigits2_pos (Zpos m2) ltac:(lia)) as P2.
  fold d1 in B1, P1. fold d2 in B2, P2.
  assert (Hq0 : 0 <= q) by (rewrite Hq; apply Z.div_pos; nia).
  assert (Hkey : -149 < e' -> 24 <= d1 - d2 + s /\ 2 ^ (d1 - d2 + s - 1) <= q).
  { intros He'. 
    assert (Hd : 24 <= d1 - d2 + s).
    { subst s e'. rewrite fexp32_eq in *. lia. }
    split; [exact Hd |].
    rewrite Hq, Hm'. apply Z.div_le_lower_bound; [lia |].
    set (k := d1 - d2 + s - 1) in *.
    assert (Hk : 2 ^ k * 2 ^ d2 = 2 ^ (d1 - 1) * 2 ^ s).
    { rewrite <- !Z.pow_add_r by lia. f_equal. lia. }
    assert (0 < 2 ^ k) by (apply Z.pow_pos_nonneg; lia).
    assert (Z.pos m2 * 2 ^ k <= 2 ^ k * 2 ^ d2) by nia.
    assert (2 ^ (d1 - 1) * 2 ^ s <= Z.pos m1 * 2 ^ s) by nia.
    lia. }
  unfold round_pre. rewrite fexp32_eq.
  destruct (Z.le_gt_cases e' (-149)) as [Hlow | Hhigh].
  - destruct (Z.eq_dec q 0); [right | left]; lia.
  - destruct (Hkey Hhigh) as [Hd Hpow]. left.
    assert (Hkpos : 0 < 2 ^ (d1 - d2 + s - 1)) by (apply Z.pow_pos_nonneg; lia).
    split; [lia |].
    pose proof (Zdigits2_le _ _ Hkpos Hpow) as Hdq.
    rewrite Zdigits2_pow2 in Hdq by lia.
    subst s e'. rewrite fexp32_eq in *. lia.
Qed.

Lemma div_rounds x my ey :
  F32.valid x = true -> F32.is_finite x = true ->
  rounds_to (F32.div x (S754_finite false my ey))
            (F2Q x / mag (Zpos my) ey).
Proof.
  intros Vx Nx. destruct x as [sx | sx | | sx mx ex]; try discriminate.
  - left. split; [reflexivity |]. split; [reflexivity |].
    unfold F32.div. cbn [SFdiv F2Q]. unfold Qdiv. ring.
  - unfold F32.div. cbn [SFdiv].
    destruct (div_core_spec mx ex my ey)
      as (q & e' & l & s & Heq & Hs & Hes & Hq & Hl & Hpre).
    rewrite Heq. right.
    assert (H2s : 0 < 2 ^ s) by (apply Z.pow_pos_nonneg; lia).
    exists (xorb sx false), q, e', l, (Zpos mx * 2 ^ s), (Zpos my).
    split; [nia |]. split; [lia |]. split; [exact Hq |]. split; [exact Hl |].
    split; [exact Hpre |]. split; [reflexivity |].
    assert (Hv : (mag (Zpos mx * 2 ^ s) e' * 2 ^ ey == mag (Zpos mx) ex)%Q).
    { pose proof (mag_shift (Zpos mx) (e' + s) e' ltac:(lia)) as Hsh.
      replace (e' + s - e') with s in Hsh by lia. rewrite <- Hsh.
      unfold mag. replace ex with ((e' + s) + ey) by lia.
      rewrite (pow2_add (e' + s) ey). ring. }
    pose proof (pow2_pos ey) as Hpe.
    assert (Hqm : (0 < inject_Z (Zpos my))%Q)
      by (change 0%Q with (inject_Z 0); rewrite <- Zlt_Qlt; lia).
    cbn [F2Q]. unfold mag at 3.
    set (V := mag (Zpos mx * 2 ^ s) e') in *.
    set (P := (2 ^ ey)%Q) in *. set (M := inject_Z (Zpos my)) in *.
    destruct sx; cbn [xorb sgn]; rewrite <- Hv; field; split; lra.
Qed.

Lemma rounds_to_not_nan R v : rounds_to R v -> F32.is_nan R = false.
Proof.
  intros [(N & _ & _)
         | (sx & mx & ex & lx & a & b
            & Ha & Hb & Hmx & Hlx & Hpre & -> & _)].
  - destruct R; try discriminate; reflexivity.
  - destruct (round_shape sx mx ex lx a b Ha Hb Hmx Hlx Hpre)
      as [H | [H | (m3 & e3 & H & _)]]; rewrite H; reflexivity.
Qed.

Lemma finite_between R lo hi :
  F32.is_finite lo = true -> F32.is_finite hi = true ->
  SFleb lo R = true -> SFleb R hi = true -> F32.is_finite R = true.
Proof.
  intros Nlo Nhi Hlo Hhi.
  destruct R as [s | s | | s m e]; try reflexivity.
  - destruct s.
    + destruct lo as [? | ? | | [] ? ?]; discriminate.
    + destruct hi as [? | ? | | [] ? ?]; discriminate.
  - destruct lo as [? | ? | | [] ? ?]; discriminate.
Qed.

Lemma leb_infinity_r x :
  F32.is_nan x = false -> SFleb x (S754_infinity false) = true.
Proof. destruct x as [? | [] | | [] ? ?]; try discriminate; reflexivity. Qed.

Lemma ltb_infinity_l x :
  F32.is_finite x = true -> SFltb (S754_infinity true) x = true.
Proof. destruct x as [? | [] | | [] ? ?]; try discriminate; reflexivity. Qed.

(** The values of the literals. *)
Lemma literal_values :
  (F2Q F32.zero == 0 /\ F2Q F32.one == 1
   /\ 0 < F2Q F32.lit_0_25 /\ 0 < F2Q F32.lit_0_30
   /\ 0 < F2Q F32.lit_0_72 /\ 0 < F2Q F32.lit_0_60
   /\ F2Q F32.lit_0_72 + F2Q F32.lit_0_25 == F2Q F32.lit_0_97
   /\ F2Q F32.lit_0_60 + F2Q F32.lit_0_30 == F2Q F32.lit_0_90_up
   /\ F2Q F32.lit_0_97 < 1 /\ F2Q F32.lit_0_90_up < 1)%Q.
Proof. vm_compute. repeat split; intros; discriminate. Qed.

(** One rounding step: an operation whose exact result lies between the
    values of two finite floats yields a finite, valid float whose value
    lies between them too. *)
Lemma rounds_to_between R v lo hi :
  rounds_to R v ->
  F32.valid lo = true -> F32.is_finite lo = true ->
  F32.valid hi = true -> F32.is_finite hi = true ->
  (F2Q lo <= v)%Q -> (v <= F2Q hi)%Q ->
  F32.valid R = true /\ F32.is_finite R = true
  /\ SFleb lo R = true /\ SFleb R hi = true
  /\ (F2Q lo <= F2Q R)%Q /\ (F2Q R <= F2Q hi)%Q.
Proof.
  intros HR Vlo Nlo Vhi Nhi Hlo Hhi.
  pose proof (rounds_to_valid R v HR) as VR.
  pose proof (rounds_to_ge R v lo HR Vlo Nlo Hlo) as Lge.
  pose proof (rounds_to_le R v hi HR Vhi Nhi Hhi) as Lle.
  pose proof (finite_between R lo hi Nlo Nhi Lge Lle) as NR.
  repeat (split; [assumption |]).
  split; apply SFleb_F2Q; assumption.
Qed.

Lemma scaled_offset_between b c d lo hi :
  F32.valid b = true -> F32.is_finite b = true ->
  (0 <= F2Q b)%Q -> (F2Q b <= 1)%Q ->
  F32.valid c = true -> F32.is_finite c = true -> (0 < F2Q c)%Q ->
  F32.valid d = true -> F32.is_finite d = true ->
  F32.valid lo = true -> F32.is_finite lo = true ->
  F32.valid hi = true -> F32.is_finite hi = true ->
  (F2Q lo <= F2Q d)%Q -> (F2Q c + F2Q d <= F2Q hi)%Q ->
  let r := F32.add (F32.mul b c) d in
  F32.valid r = true /\ F32.is_finite r = true
  /\ SFleb lo r = true /\ SFleb r hi = true
  /\ (F2Q lo <= F2Q r)%Q /\ (F2Q r <= F2Q hi)%Q.
Proof.
  intros Vb Nb Hb0 Hb1 Vc Nc Hc Vd Nd Vlo Nlo Vhi Nhi Hlo Hhi r.
  destruct literal_values as (Hz & _).
  assert (Hp0 : (0 <= F2Q b * F2Q c)%Q) by (apply Qmult_le_0_compat; lra).
  assert (Hp1 : (F2Q b * F2Q c <= 1 * F2Q c)%Q)
    by (apply Qmult_le_compat_r; lra).
  destruct (rounds_to_between (F32.mul b c) (F2Q b * F2Q c) F32.zero c
              (mul_rounds b c Vb Vc Nb Nc))
    as (Vp & Np & _ & _ & Hp0' & Hp1'); try reflexivity; try assumption;
    try lra.
  apply (rounds_to_between r (F2Q (F32.mul b c) + F2Q d) lo hi);
    try assumption; try lra.
  apply add_rounds; assumption.
Qed.

Section Interpolation.
Variables lower range level : F32.float.
Hypothesis Vlower : F32.valid lower = true.
Hypothesis Nlower : F32.is_finite lower = true.
Hypothesis Vrange : F32.valid range = true.
Hypothesis Nrange : F32.is_finite range = true.
Hypothesis Prange : F32.ltb F32.zero range = true.
Hypothesis Vlevel : F32.valid level = true.
Hypothesis Nlevel : F32.is_nan level = false.
Hypothesis Hbelow : F32.geb level (F32.add lower range) = false.
Hypothesis Habove : F32.ltb level lower = false.

Lemma interpolation_ratio :
  let b := F32.div (F32.sub level lower) range in
  F32.valid b = true /\ F32.is_finite b = true
  /\ (0 <= F2Q b)%Q /\ (F2Q b <= 1)%Q.
Proof.
  intros b. subst b.
  destruct literal_values as (Hz & H1 & _).
  pose proof (add_rounds lower range Vlower Vrange Nlower Nrange) as Hup.
  set (upper := F32.add lower range) in *.
  assert (Hrpos : (0 < F2Q range)%Q)
    by (apply (SFltb_F2Q F32.zero range); auto).
  (* the level is finite *)
  assert (Nlev : F32.is_finite level = true).
  { destruct level as [s | [] | | s m e]; try reflexivity; try discriminate.
    - unfold F32.ltb in Habove.
      rewrite (ltb_infinity_l lower Nlower) in Habove. discriminate.
    - unfold F32.geb in Hbelow.
      rewrite (leb_infinity_r upper (rounds_to_not_nan _ _ Hup)) in Hbelow.
      discriminate. }
  assert (Hlo : (F2Q lower <= F2Q level)%Q).
  { destruct (Qlt_le_dec (F2Q level) (F2Q lower)) as [H | H]; [| exact H].
    apply (SFltb_F2Q level lower) in H; auto.
    unfold F32.ltb in Habove. congruence. }
  assert (Hhi : (F2Q level < F2Q lower + F2Q range)%Q).
  { destruct (Qlt_le_dec (F2Q level) (F2Q lower + F2Q range)) as [H | H];
      [exact H |].
    pose proof (rounds_to_le upper _ level Hup Vlevel Nlev H) as Hle.
    unfold F32.geb in Hbelow. congruence. }
  (* the difference *)
  destruct (rounds_to_between (F32.sub level lower) (F2Q level - F2Q lower)
              F32.zero range
              (sub_rounds level lower Vlevel Vlower Nlev Nlower))
    as (Vd & Nd & _ & _ & Hd0 & Hd1); try reflexivity; try assumption;
    try lra.
  rewrite Hz in Hd0.
  (* the quotient *)
  destruct range as [? | ? | | [] my ey] eqn:Er; try discriminate;
    cbn [F2Q sgn] in Hrpos, Hd1; try lra.
  set (d := F32.sub level lower) in *.
  destruct (rounds_to_between (F32.div d (S754_finite false my ey))
              (F2Q d / mag (Zpos my) ey) F32.zero F32.one
              (div_rounds d my ey Vd Nd))
    as (Vb & Nb & _ & _ & Hb0 & Hb1); try reflexivity.
  - rewrite Hz. apply Qle_shift_div_l; lra.
  - rewrite H1. apply Qle_shift_div_r; lra.
  - rewrite Hz in Hb0. rewrite H1 in Hb1. auto.
Qed.
End Interpolation.


(* ===================================================================== *)
(** * Facts: the meter segment                                            *)
(* ===================================================================== *)

Section SegmentFacts.

(** The brightness pair only reads the three thresholds. *)
Lemma levelBrightness_reads_thresholds s1 s2 normalLevel discreteLevel :
  lowerThreshold s1 = lowerThreshold s2 ->
  thresholdRange s1 = thresholdRange s2 ->
  upperThreshold s1 = upperThreshold s2 ->
  levelBrightness s1 normalLevel discreteLevel
  = levelBrightness s2 normalLevel discreteLevel.
Proof.
  intros Hl Hr Hu. unfold levelBrightness. rewrite Hl, Hr, Hu. reflexivity.
Qed.

(** The peak marker only reads the thresholds and [hasHighestLevel]. *)
Lemma levelPeakMarker_reads_thresholds s1 s2 normalLevelPeak discreteLevelPeak :
  lowerThreshold s1 = lowerThreshold s2 ->
  upperThreshold s1 = upperThreshold s2 ->
  hasHighestLevel s1 = hasHighestLevel s2 ->
  levelPeakMarker s1 normalLevelPeak discreteLevelPeak
  = levelPeakMarker s2 normalLevelPeak discreteLevelPeak.
Proof.
  intros Hl Hu Hh. unfold levelPeakMarker. rewrite Hl, Hu, Hh. reflexivity.
Qed.

Lemma setLevels_fields s nl dl nlp dlp :
  fBrightness (setLevels s nl dl nlp dlp) = fst (levelBrightness s nl dl)
  /\ fBrightnessOutline (setLevels s nl dl nlp dlp)
     = snd (levelBrightness s nl dl)
  /\ lightPeakMarker (setLevels s nl dl nlp dlp)
     = levelPeakMarker s nlp dlp.
Proof.
  unfold setLevels. destruct (levelBrightness s nl dl) as [b o].
  cbn. auto.
Qed.

(** The literals are the correctly rounded decimal constants. *)
Lemma literals_rounded :
  F32.lit_0_97 = F32.of_ratio 97 100
  /\ F32.lit_0_90 = F32.of_ratio 90 100
  /\ F32.lit_0_25 = F32.of_ratio 25 100
  /\ F32.lit_0_30 = F32.of_ratio 30 100
  /\ F32.lit_0_72 = F32.of_ratio 72 100
  /\ F32.lit_0_60 = F32.of_ratio 60 100
  /\ F32.lit_m144 = F32.of_Z (-144)
  /\ F32.one = F32.of_Z 1
  /\ F32.lit_0_90_up = F32.add F32.lit_0_60 F32.lit_0_30
  /\ F32.lit_0_97 = F32.add F32.lit_0_72 F32.lit_0_25.
Proof. vm_compute. repeat split. Qed.

End SegmentFacts.

(** C7: [setLevels] is stateless per call: two segments with equal
    thresholds and [hasHighestLevel] end with the same [fBrightness],
    [fBrightnessOutline] and [lightPeakMarker] after the same call,
    whatever their brightness and peak marker were before. *)
Theorem setLevels_stateless :
  forall (s1 s2 : GenericMeterSegment)
         (normalLevel discreteLevel normalLevelPeak discreteLevelPeak
          : F32.float),
    lowerThreshold s1 = lowerThreshold s2 ->
    thresholdRange s1 = thresholdRange s2 ->
    upperThreshold s1 = upperThreshold s2 ->
    hasHighestLevel s1 = hasHighestLevel s2 ->
    let s1' := setLevels s1 normalLevel discreteLevel
                         normalLevelPeak discreteLevelPeak in
    let s2' := setLevels s2 normalLevel discreteLevel
                         normalLevelPeak discreteLevelPeak in
    fBrightness s1' = fBrightness s2'
    /\ fBrightnessOutline s1' = fBrightnessOutline s2'
    /\ lightPeakMarker s1' = lightPeakMarker s2'.
Proof.
  intros s1 s2 nl dl nlp dlp Hl Hr Hu Hh. cbv zeta.
  destruct (setLevels_fields s1 nl dl nlp dlp) as (-> & -> & ->).
  destruct (setLevels_fields s2 nl dl nlp dlp) as (-> & -> & ->).
  rewrite (levelBrightness_reads_thresholds s1 s2 nl dl Hl Hr Hu).
  rewrite (levelPeakMarker_reads_thresholds s1 s2 nlp dlp Hl Hu Hh).
  auto.
Qed.

(** C8: [setThresholds] stores [fLowerThreshold + fDisplayRange] as the
    upper threshold, returns that sum, and hides the peak marker, whatever
    the state before. *)
Theorem setThresholds_upper_and_marker :
  forall (s : GenericMeterSegment) (fLowerThreshold fDisplayRange : F32.float)
         (bHasHighestLevel : bool),
    let r := setThresholds s fLowerThreshold fDisplayRange bHasHighestLevel in
    upperThreshold (snd r) = F32.add fLowerThreshold fDisplayRange
    /\ fst r = F32.add fLowerThreshold fDisplayRange
    /\ lightPeakMarker (snd r) = false
    /\ lowerThreshold (snd r) = fLowerThreshold
    /\ thresholdRange (snd r) = fDisplayRange
    /\ hasHighestLevel (snd r) = bHasHighestLevel.
Proof. intros. subst r. cbn. repeat split. Qed.

(** C10: [setNormalLevels] is [setLevels] with both discrete levels at
    -144, and [setDiscreteLevels] is [setLevels] with both normal levels
    at -144; the whole resulting state, repaint request included, is the
    same. *)
Theorem setNormalLevels_setDiscreteLevels_as_setLevels :
  forall (s : GenericMeterSegment) (level levelPeak : F32.float),
    setNormalLevels s level levelPeak
    = setLevels s level (F32.of_Z (-144)) levelPeak (F32.of_Z (-144))
    /\ setDiscreteLevels s level levelPeak
       = setLevels s (F32.of_Z (-144)) level (F32.of_Z (-144)) levelPeak.
Proof.
  intros s level levelPeak.
  destruct literals_rounded as (_ & _ & _ & _ & _ & _ & <- & _).
  split; reflexivity.
Qed.

Lemma levelBrightness_cases s normalLevel discreteLevel :
  levelBrightness s normalLevel discreteLevel = (F32.lit_0_97, F32.lit_0_90)
  \/ levelBrightness s normalLevel discreteLevel
     = (F32.lit_0_25, F32.lit_0_30)
  \/ (F32.geb normalLevel (upperThreshold s) = false
      /\ F32.ltb normalLevel (lowerThreshold s) = false
      /\ levelBrightness s normalLevel discreteLevel
         = (let b := F32.div (F32.sub normalLevel (lowerThreshold s))
                             (thresholdRange s) in
            (F32.add (F32.mul b F32.lit_0_72) F32.lit_0_25,
             F32.add (F32.mul b F32.lit_0_60) F32.lit_0_30))).
Proof.
  unfold levelBrightness.
  destruct (F32.geb normalLevel (upperThreshold s)); [left; reflexivity |].
  destruct (F32.geb discreteLevel (lowerThreshold s)
            && F32.ltb discreteLevel (upperThreshold s));
    [left; reflexivity |].
  destruct (F32.ltb normalLevel (lowerThreshold s));
    [right; left; reflexivity |].
  right; right. repeat split.
Qed.

(** The thresholds stay consistent from construction on. *)
Lemma thresholdsConsistent_setThresholds s lower range highest :
  thresholdsConsistent (snd (setThresholds s lower range highest)).
Proof. reflexivity. Qed.

Lemma thresholdsConsistent_setLevels s nl dl nlp dlp :
  thresholdsConsistent s -> thresholdsConsistent (setLevels s nl dl nlp dlp).
Proof.
  unfold thresholdsConsistent, setLevels.
  destruct (levelBrightness s nl dl). cbn. auto.
Qed.

Lemma thresholdsConsistent_new raw lower range highest :
  thresholdsConsistent (newGenericMeterSegment raw lower range highest).
Proof.
  unfold newGenericMeterSegment. apply thresholdsConsistent_setLevels.
  reflexivity.
Qed.

(** C9 (as amended): for a segment whose lower threshold is not a NaN,
    whose range is finite and positive and whose upper threshold is the
    one [setThresholds] stores, [setLevels] with a normal level that is not
    a NaN leaves [fBrightness] in [0.25f, 0.97f] and [fBrightnessOutline]
    in [0.30f, 0.60f + 0.30f], where [0.60f + 0.30f] is one unit in the
    last place above [0.90f]; both stay strictly between 0.0 and 1.0. *)
Theorem setLevels_brightness_bounded :
  forall (s : GenericMeterSegment)
         (normalLevel discreteLevel normalLevelPeak discreteLevelPeak
          : F32.float),
    F32.valid (lowerThreshold s) = true ->
    F32.is_nan (lowerThreshold s) = false ->
    F32.valid (thresholdRange s) = true ->
    F32.is_finite (thresholdRange s) = true ->
    F32.ltb F32.zero (thresholdRange s) = true ->
    thresholdsConsistent s ->
    F32.valid normalLevel = true ->
    F32.is_nan normalLevel = false ->
    let s' := setLevels s normalLevel discreteLevel
                        normalLevelPeak discreteLevelPeak in
    brightnessInRoundedRange s' = true
    /\ F32.ltb F32.zero (fBrightness s') = true
    /\ F32.ltb (fBrightness s') F32.one = true
    /\ F32.ltb F32.zero (fBrightnessOutline s') = true
    /\ F32.ltb (fBrightnessOutline s') F32.one = true.
Proof.
  intros s nl dl nlp dlp Vl NnL Vr Nr Pr Hcons Vn Nn. cbv zeta.
  unfold brightnessInRoundedRange.
  destruct (setLevels_fields s nl dl nlp dlp) as (-> & -> & _).
  destruct (levelBrightness_cases s nl dl) as [-> | [-> | (Hge & Hlt & ->)]];
    [vm_compute; repeat split | vm_compute; repeat split |].
  rewrite Hcons in Hge.
  (* with an infinite lower threshold the level is on one side of both
     thresholds, and the interpolating branch is not taken *)
  assert (Nl : F32.is_finite (lowerThreshold s) = true).
  { destruct (lowerThreshold s) as [? | sl | | ? ? ?];
      try reflexivity; [exfalso | discriminate NnL].
    unfold F32.geb, F32.ltb, F32.add in Hge, Hlt.
    destruct (thresholdRange s) as [? | ? | | ? ? ?]; try discriminate Nr;
      destruct sl; destruct nl as [? | [] | | [] ? ?];
      try discriminate Nn; cbn in Hge, Hlt; discriminate. }
  destruct (interpolation_ratio (lowerThreshold s) (thresholdRange s) nl
              Vl Nl Vr Nr Pr Vn Nn Hge Hlt) as (Vb & Nb & Hb0 & Hb1).
  set (b := F32.div (F32.sub nl (lowerThreshold s)) (thresholdRange s)) in *.
  destruct literal_values
    as (Hz & H1 & P25 & P30 & P72 & P60 & S97 & S90 & L97 & L90).
  destruct (scaled_offset_between b F32.lit_0_72 F32.lit_0_25
              F32.lit_0_25 F32.lit_0_97)
    as (Vf & Nf & Lf0 & Lf1 & Qf0 & Qf1);
    try reflexivity; try assumption; try lra.
  destruct (scaled_offset_between b F32.lit_0_60 F32.lit_0_30
              F32.lit_0_30 F32.lit_0_90_up)
    as (Vo & No & Lo0 & Lo1 & Qo0 & Qo1);
    try reflexivity; try assumption; try lra.
  cbv zeta. cbn [fst snd]. unfold F32.leb, F32.ltb.
  rewrite Lf0, Lf1, Lo0, Lo1.
  split; [reflexivity |].
  repeat split; apply SFltb_F2Q; try reflexivity; try assumption; lra.
Qed.

(** Why the range has to be finite and the lower threshold a number: with
    an infinite (hence positive) range the difference
    [normalLevel - lowerThreshold] can overflow and the ratio is
    infinity / infinity; with a NaN lower threshold every comparison is
    false and the interpolating branch computes with the NaN. *)
Lemma brightness_needs_numeric_thresholds :
  let sInf := newGenericMeterSegment blankSegment
                (SFopp exampleHuge) (S754_infinity false) false in
  let sNan := newGenericMeterSegment blankSegment
                F32.nan (F32.of_Z 10) false in
  F32.ltb F32.zero (thresholdRange sInf) = true
  /\ fBrightness (setLevels sInf exampleHuge (S754_infinity true)
                            F32.lit_m144 F32.lit_m144) = F32.nan
  /\ F32.ltb F32.zero (thresholdRange sNan) = true
  /\ fBrightness (setNormalLevels sNan F32.zero F32.lit_m144) = F32.nan.
Proof. vm_compute. repeat split. Qed.

(** C9, the claim as stated fails: on [exampleSegment], whose range is
    positive, the level 4 * 2^-20 gives a brightness ratio that rounds to
    exactly 1, and the outline brightness becomes [0.60f + 0.30f], one unit
    in the last place above [0.90f]; and a NaN level gives a NaN
    brightness. *)
Lemma brightness_leaves_claimed_range :
  let s := exampleSegment in
  let s' := setNormalLevels s exampleLevel F32.lit_m144 in
  let s'' := setNormalLevels s F32.nan F32.lit_m144 in
  F32.ltb F32.zero (thresholdRange s) = true
  /\ fBrightnessOutline s' = F32.lit_0_90_up
  /\ F32.leb (fBrightnessOutline s') F32.lit_0_90 = false
  /\ brightnessInRange s' = false
  /\ fBrightness s'' = F32.nan
  /\ brightnessInRange s'' = false.
Proof. vm_compute. repeat split. Qed.

Lemma setLevels_stateless_witness :
  let s1 := exampleSegment in
  let s2 := setNormalLevels exampleSegment exampleLevel exampleLevel in
  fBrightness s1 <> fBrightness s2
  /\ lightPeakMarker s1 <> lightPeakMarker s2
  /\ fBrightness (setLevels s1 F32.one F32.zero F32.lit_m144 F32.one)
     = fBrightness (setLevels s2 F32.one F32.zero F32.lit_m144 F32.one)
  /\ fBrightnessOutline (setLevels s1 F32.one F32.zero F32.lit_m144 F32.one)
     = fBrightnessOutline (setLevels s2 F32.one F32.zero F32.lit_m144 F32.one)
  /\ lightPeakMarker (setLevels s1 F32.one F32.zero F32.lit_m144 F32.one)
     = lightPeakMarker (setLevels s2 F32.one F32.zero F32.lit_m144 F32.one).
Proof.
  cbv zeta. split; [vm_compute; discriminate |].
  split; [vm_compute; discriminate |].
  apply (setLevels_stateless exampleSegment
           (setNormalLevels exampleSegment exampleLevel exampleLevel)
           F32.one F32.zero F32.lit_m144 F32.one); reflexivity.
Defined.

Lemma setLevels_brightness_bounded_witness :
  let s := exampleSegment in
  let s' := setNormalLevels s exampleLevel F32.lit_m144 in
  F32.ltb F32.zero (thresholdRange s) = true
  /\ thresholdsConsistent s
  /\ brightnessInRoundedRange s' = true
  /\ F32.ltb F32.zero (fBrightness s') = true
  /\ F32.ltb (fBrightness s') F32.one = true
  /\ F32.ltb F32.zero (fBrightnessOutline s') = true
  /\ F32.ltb (fBrightnessOutline s') F32.one = true.
Proof.
  cbv zeta. split; [reflexivity |]. split; [reflexivity |].
  apply (setLevels_brightness_bounded exampleSegment exampleLevel
           F32.lit_m144 F32.lit_m144 F32.lit_m144); reflexivity.
Defined.

(* ===================================================================== *)
(** * Facts: the order of binary32 numbers                              *)
(* ===================================================================== *)

(** The rational value of a binary32 number, the infinities placed beyond
    every finite one. *)
Lemma pow2_lt a b : a < b -> (2 ^ a < 2 ^ b)%Q.
Proof. intros H. apply Qpower_lt_compat_l; [exact H | reflexivity]. Qed.

Lemma valid_finite_below_overflow s m e :
  F32.valid (S754_finite s m e) = true -> (mag (Zpos m) e < 2 ^ 128)%Q.
Proof.
  intros V. apply valid_finite in V. destruct V as [C He].
  apply canonical_eq in C.
  pose proof (Zdigits2_bounds (Zpos m) ltac:(lia)) as B.
  assert (Hm : Zpos m < 2 ^ 24).
  { apply Z.lt_le_trans with (2 ^ Zdigits2 (Zpos m)); [lia |].
    apply Z.pow_le_mono_r; lia. }
  assert (Hq : (mag (Zpos m) e < mag (2 ^ 24) e)%Q) by (apply mag_lt; exact Hm).
  assert (Hp : (mag (2 ^ 24) e == 2 ^ (24 + e))%Q).
  { unfold mag. rewrite pow2_inject by lia. rewrite pow2_add. reflexivity. }
  assert (Hle : (2 ^ (24 + e) <= 2 ^ 128)%Q)
    by (apply Qpower_le_compat_l; [lia | discriminate]).
  lra.
Qed.

Lemma F2Qx_finite f : F32.is_finite f = true -> F2Qx f = F2Q f.
Proof. destruct f; try discriminate; reflexivity. Qed.

Lemma F2Q_below_infinity f :
  F32.valid f = true -> F32.is_finite f = true ->
  (- 2 ^ 200 < F2Q f)%Q /\ (F2Q f < 2 ^ 200)%Q.
Proof.
  intros V N. pose proof (pow2_lt 128 200 ltac:(lia)) as Hbig.
  pose proof (pow2_pos 128) as Hp.
  destruct f as [s | s | | s m e]; try discriminate; cbn [F2Q].
  - split; lra.
  - pose proof (valid_finite_below_overflow s m e V) as Hm.
    pose proof (mag_pos (Zpos m) e ltac:(lia)) as H0.
    destruct s; cbn [sgn]; split; lra.
Qed.

(** On the numbers (valid, not NaN) the comparison of binary32 is the
    comparison of the values. *)
Lemma SFcompare_F2Qx f1 f2 :
  F32.valid f1 = true -> F32.valid f2 = true ->
  F32.is_nan f1 = false -> F32.is_nan f2 = false ->
  SFcompare f1 f2 = Some (F2Qx f1 ?= F2Qx f2)%Q.
Proof.
  intros V1 V2 N1 N2.
  pose proof (pow2_pos 200) as Hp.
  destruct (F32.is_finite f1) eqn:F1; destruct (F32.is_finite f2) eqn:F2.
  - rewrite !F2Qx_finite by assumption. apply SFcompare_F2Q; assumption.
  - destruct (F2Q_below_infinity f1 V1 F1) as [Hlo Hhi].
    rewrite (F2Qx_finite f1 F1).
    destruct f2 as [? | s2 | | ? ? ?]; try discriminate.
    destruct f1 as [? | ? | | s1 ? ?]; try discriminate;
      destruct s2; cbn [SFcompare F2Qx sgn]; f_equal; symmetry;
      first [apply Qcompare_gt; lra | apply Qcompare_lt; lra].
  - destruct (F2Q_below_infinity f2 V2 F2) as [Hlo Hhi].
    rewrite (F2Qx_finite f2 F2).
    destruct f1 as [? | s1 | | ? ? ?]; try discriminate.
    destruct f2 as [? | ? | | s2 ? ?]; try discriminate;
      destruct s1; cbn [SFcompare F2Qx sgn]; f_equal; symmetry;
      first [apply Qcompare_gt; lra | apply Qcompare_lt; lra].
  - destruct f1 as [? | s1 | | ? ? ?]; try discriminate;
      destruct f2 as [? | s2 | | ? ? ?]; try discriminate.
    destruct s1, s2; cbn [SFcompare F2Qx sgn]; f_equal; symmetry;
      first [apply Qcompare_eq; reflexivity
            | apply Qcompare_gt; lra | apply Qcompare_lt; lra].
Qed.

Lemma SFleb_F2Qx f1 f2 :
  F32.valid f1 = true -> F32.valid f2 = true ->
  F32.is_nan f1 = false -> F32.is_nan f2 = false ->
  (SFleb f1 f2 = true <-> (F2Qx f1 <= F2Qx f2)%Q).
Proof.
  intros V1 V2 N1 N2. unfold SFleb.
  rewrite (SFcompare_F2Qx f1 f2 V1 V2 N1 N2).
  destruct (Qcompare_spec (F2Qx f1) (F2Qx f2)) as [H | H | H];
    split; intros; try reflexivity; try discriminate; lra.
Qed.

Lemma SFltb_F2Qx f1 f2 :
  F32.valid f1 = true -> F32.valid f2 = true ->
  F32.is_nan f1 = false -> F32.is_nan f2 = false ->
  (SFltb f1 f2 = true <-> (F2Qx f1 < F2Qx f2)%Q).
Proof.
  intros V1 V2 N1 N2. unfold SFltb.
  rewrite (SFcompare_F2Qx f1 f2 V1 V2 N1 N2).
  destruct (Qcompare_spec (F2Qx f1) (F2Qx f2)) as [H | H | H];
    split; intros; try reflexivity; try discriminate; lra.
Qed.

Lemma SFleb_false_F2Qx f1 f2 :
  F32.valid f1 = true -> F32.valid f2 = true ->
  F32.is_nan f1 = false -> F32.is_nan f2 = false ->
  (SFleb f1 f2 = false <-> (F2Qx f2 < F2Qx f1)%Q).
Proof.
  intros V1 V2 N1 N2.
  pose proof (SFleb_F2Qx f1 f2 V1 V2 N1 N2) as H.
  destruct (SFleb f1 f2); split; intros H'; try reflexivity; try discriminate.
  - assert ((F2Qx f1 <= F2Qx f2)%Q) by (apply H; reflexivity). lra.
  - destruct (Qlt_le_dec (F2Qx f2) (F2Qx f1)) as [L | L]; [exact L |].
    apply H in L. discriminate.
Qed.

Lemma SFltb_false_F2Qx f1 f2 :
  F32.valid f1 = true -> F32.valid f2 = true ->
  F32.is_nan f1 = false -> F32.is_nan f2 = false ->
  (SFltb f1 f2 = false <-> (F2Qx f2 <= F2Qx f1)%Q).
Proof.
  intros V1 V2 N1 N2.
  pose proof (SFltb_F2Qx f1 f2 V1 V2 N1 N2) as H.
  destruct (SFltb f1 f2); split; intros H'; try reflexivity; try discriminate.
  - assert ((F2Qx f1 < F2Qx f2)%Q) by (apply H; reflexivity). lra.
  - destruct (Qlt_le_dec (F2Qx f1) (F2Qx f2)) as [L | L]; [| exact L].
    apply H in L. discriminate.
Qed.

(** ** Comparison facts that hold for every datum *)

Lemma SFcompare_antisym x y :
  SFcompare y x = option_map CompOpp (SFcompare x y).
Proof.
  destruct x as [sx | sx | | sx mx ex], y as [sy | sy | | sy my ey];
    try reflexivity;
    try (destruct sx; reflexivity); try (destruct sy; reflexivity);
    try (destruct sx, sy; reflexivity).
  cbn [SFcompare option_map]. f_equal.
  rewrite (Z.compare_antisym ex ey).
  assert (Hm : Pos.compare_cont Eq my mx
               = CompOpp (Pos.compare_cont Eq mx my))
    by (symmetry; apply (Pos.compare_cont_antisym mx my Eq)).
  rewrite Hm.
  destruct sx, sy, (ex ?= ey), (Pos.compare_cont Eq mx my); reflexivity.
Qed.

Lemma SFeqb_refl x : F32.is_nan x = false -> SFeqb x x = true.
Proof.
  unfold SFeqb. destruct x as [s | s | | s m e]; try discriminate; intros _.
  - reflexivity.
  - destruct s; reflexivity.
  - cbn [SFcompare]. rewrite Z.compare_refl.
    assert (H : Pos.compare_cont Eq m m = Eq) by apply Pos.compare_refl.
    rewrite H. destruct s; reflexivity.
Qed.

Lemma SFeqb_nan_l y : SFeqb S754_nan y = false.
Proof. reflexivity. Qed.

Lemma ltb_not_geb x y : SFltb x y = true -> SFleb y x = false.
Proof.
  unfold SFltb, SFleb. rewrite (SFcompare_antisym x y).
  destruct (SFcompare x y) as [[] |]; try discriminate; reflexivity.
Qed.

Lemma not_ltb_geb x y :
  F32.is_nan x = false -> F32.is_nan y = false ->
  SFltb x y = false -> SFleb y x = true.
Proof.
  unfold SFltb, SFleb. rewrite (SFcompare_antisym x y). intros Nx Ny.
  destruct (SFcompare x y) as [[] |] eqn:E; try discriminate; try reflexivity.
  destruct x, y; try discriminate; cbn in E; discriminate.
Qed.


(* ===================================================================== *)
(** * Facts: thresholds, levels and the constructor                     *)
(* ===================================================================== *)

Lemma setLevels_frame s a b c d :
  lowerThreshold (setLevels s a b c d) = lowerThreshold s
  /\ thresholdRange (setLevels s a b c d) = thresholdRange s
  /\ upperThreshold (setLevels s a b c d) = upperThreshold s
  /\ hasHighestLevel (setLevels s a b c d) = hasHighestLevel s
  /\ fHue (setLevels s a b c d) = fHue s.
Proof.
  unfold setLevels. destruct (levelBrightness s a b). cbn. auto.
Qed.

(** The sum stored as upper threshold. *)
Lemma upper_not_below_lower lower range :
  F32.valid lower = true -> F32.is_nan lower = false ->
  F32.valid range = true -> F32.is_finite range = true ->
  F32.leb F32.zero range = true ->
  F32.leb lower (F32.add lower range) = true
  /\ F32.is_nan (F32.add lower range) = false
  /\ F32.valid (F32.add lower range) = true.
Proof.
  intros Vl Nl Vr Nr Pr.
  destruct (F32.is_finite lower) eqn:Fl.
  - pose proof (add_rounds lower range Vl Vr Fl Nr) as Hup.
    split; [| split].
    + apply (rounds_to_ge _ _ lower Hup Vl Fl).
      assert ((F2Q F32.zero <= F2Q range)%Q)
        by (apply (SFleb_F2Q F32.zero range); auto).
      cbn [F2Q F32.zero] in H. lra.
    + exact (rounds_to_not_nan _ _ Hup).
    + exact (rounds_to_valid _ _ Hup).
  - destruct lower as [? | sl | | ? ? ?]; try discriminate.
    destruct range as [? | ? | | ? ? ?]; try discriminate;
      destruct sl; repeat split.
Qed.

(** X1: [setThresholds] never returns an upper threshold below the lower
    one when the range is a finite number that is not negative; the sum
    may be absorbed ([upper = lower]) or overflow to infinity, but it is
    never a NaN. *)
Theorem setThresholds_upper_not_below_lower :
  forall (s : GenericMeterSegment) (fLowerThreshold fDisplayRange : F32.float)
         (bHasHighestLevel : bool),
    F32.valid fLowerThreshold = true ->
    F32.is_nan fLowerThreshold = false ->
    F32.valid fDisplayRange = true ->
    F32.is_finite fDisplayRange = true ->
    F32.leb F32.zero fDisplayRange = true ->
    let r := setThresholds s fLowerThreshold fDisplayRange bHasHighestLevel in
    F32.leb (lowerThreshold (snd r)) (fst r) = true
    /\ F32.leb (lowerThreshold (snd r)) (upperThreshold (snd r)) = true
    /\ F32.is_nan (upperThreshold (snd r)) = false.
Proof.
  intros s lower range h Vl Nl Vr Nr Pr r. subst r. cbn.
  destruct (upper_not_below_lower lower range Vl Nl Vr Nr Pr) as (H1 & H2 & _).
  auto.
Qed.

Section OrderedThresholds.
Variable s : GenericMeterSegment.
Hypothesis Vl : F32.valid (lowerThreshold s) = true.
Hypothesis Nl : F32.is_nan (lowerThreshold s) = false.
Hypothesis Vr : F32.valid (thresholdRange s) = true.
Hypothesis Nr : F32.is_finite (thresholdRange s) = true.
Hypothesis Pr : F32.leb F32.zero (thresholdRange s) = true.
Hypothesis Hcons : thresholdsConsistent s.

Lemma ordered_upper :
  F32.valid (upperThreshold s) = true
  /\ F32.is_nan (upperThreshold s) = false
  /\ (F2Qx (lowerThreshold s) <= F2Qx (upperThreshold s))%Q.
Proof.
  rewrite Hcons.
  destruct (upper_not_below_lower _ _ Vl Nl Vr Nr Pr) as (H1 & H2 & H3).
  split; [exact H3 |]. split; [exact H2 |].
  apply SFleb_F2Qx; assumption.
Qed.

Lemma below_lower_dark nl dl :
  F32.valid nl = true ->
  F32.ltb nl (lowerThreshold s) = true ->
  F32.geb dl (lowerThreshold s) && F32.ltb dl (upperThreshold s) = false ->
  levelBrightness s nl dl = (F32.lit_0_25, F32.lit_0_30).
Proof.
  intros Vn Hlt Hd. destruct ordered_upper as (Vu & Nu & Hlu).
  assert (Nn : F32.is_nan nl = false)
    by (destruct nl; try reflexivity; discriminate Hlt).
  assert (Hq : (F2Qx nl < F2Qx (lowerThreshold s))%Q)
    by (apply SFltb_F2Qx; assumption).
  assert (Hge : F32.geb nl (upperThreshold s) = false).
  { unfold F32.geb. apply SFleb_false_F2Qx; auto. lra. }
  unfold levelBrightness. rewrite Hge, Hd, Hlt. reflexivity.
Qed.

Lemma minus144_outside :
  F32.ltb F32.lit_m144 (lowerThreshold s) = true ->
  F32.geb F32.lit_m144 (lowerThreshold s) = false.
Proof. intros H. unfold F32.geb. apply ltb_not_geb. exact H. Qed.

End OrderedThresholds.

(** X2: with the lower threshold above -144 (and a finite range that is
    not negative), [setNormalLevels] with a level below the lower
    threshold leaves the segment dark: 0.25f and 0.30f. *)
Theorem setNormalLevels_below_lower_dark :
  forall (s : GenericMeterSegment) (normalLevel normalLevelPeak : F32.float),
    F32.valid (lowerThreshold s) = true ->
    F32.is_nan (lowerThreshold s) = false ->
    F32.valid (thresholdRange s) = true ->
    F32.is_finite (thresholdRange s) = true ->
    F32.leb F32.zero (thresholdRange s) = true ->
    thresholdsConsistent s ->
    F32.ltb F32.lit_m144 (lowerThreshold s) = true ->
    F32.valid normalLevel = true ->
    F32.ltb normalLevel (lowerThreshold s) = true ->
    fBrightness (setNormalLevels s normalLevel normalLevelPeak)
    = F32.lit_0_25
    /\ fBrightnessOutline (setNormalLevels s normalLevel normalLevelPeak)
       = F32.lit_0_30.
Proof.
  intros s nl nlp Vl Nl Vr Nr Pr Hc H144 Vn Hlt. unfold setNormalLevels.
  destruct (setLevels_fields s nl F32.lit_m144 nlp F32.lit_m144)
    as (-> & -> & _).
  rewrite (below_lower_dark s Vl Nl Vr Nr Pr Hc nl F32.lit_m144 Vn Hlt).
  - split; reflexivity.
  - rewrite (minus144_outside s H144). reflexivity.
Qed.

(** X3: a segment constructed with the lower threshold above -144 and a
    finite range that is not negative starts dark, with the peak marker
    hidden, the hue 0, the given thresholds, and exactly one repaint
    requested. *)
Theorem newGenericMeterSegment_starts_dark :
  forall (raw : GenericMeterSegment)
         (fLowerThreshold fDisplayRange : F32.float) (bHasHighestLevel : bool),
    F32.valid fLowerThreshold = true ->
    F32.valid fDisplayRange = true ->
    F32.is_finite fDisplayRange = true ->
    F32.leb F32.zero fDisplayRange = true ->
    F32.ltb F32.lit_m144 fLowerThreshold = true ->
    let s := newGenericMeterSegment raw fLowerThreshold fDisplayRange
                                    bHasHighestLevel in
    fBrightness s = F32.lit_0_25
    /\ fBrightnessOutline s = F32.lit_0_30
    /\ lightPeakMarker s = false
    /\ fHue s = F32.zero
    /\ repaintRequests s = S (repaintRequests raw)
    /\ lowerThreshold s = fLowerThreshold
    /\ thresholdRange s = fDisplayRange
    /\ upperThreshold s = F32.add fLowerThreshold fDisplayRange
    /\ hasHighestLevel s = bHasHighestLevel.
Proof.
  intros raw lower range h Vl Vr Nr Pr H144 s.
  assert (Nl : F32.is_nan lower = false)
    by (destruct lower; try reflexivity; destruct F32.lit_m144; discriminate H144).
  subst s. unfold newGenericMeterSegment, setThresholds. cbn [snd].
  cbn [lowerThreshold thresholdRange upperThreshold hasHighestLevel
       lightPeakMarker repaintRequests].
  set (s2 := {| lowerThreshold := lower; thresholdRange := range;
                upperThreshold := F32.add lower range;
                hasHighestLevel := h; lightPeakMarker := false;
                fBrightness := F32.zero; fBrightnessOutline := F32.zero;
                fHue := F32.zero; repaintRequests := repaintRequests raw |}).
  assert (Hout : F32.geb F32.lit_m144 lower = false)
    by (unfold F32.geb; apply ltb_not_geb; exact H144).
  assert (Hb : levelBrightness s2 F32.lit_m144 F32.lit_m144
               = (F32.lit_0_25, F32.lit_0_30)).
  { apply below_lower_dark; cbn; auto; try reflexivity.
    rewrite Hout. reflexivity. }
  assert (Hp : levelPeakMarker s2 F32.lit_m144 F32.lit_m144 = false).
  { unfold levelPeakMarker. cbn [hasHighestLevel lowerThreshold s2].
    rewrite Hout. cbn [andb]. destruct h; reflexivity. }
  unfold setLevels. rewrite Hb, Hp. cbn. repeat split.
Qed.

Lemma SFleb_not_nan x y :
  SFleb x y = true -> F32.is_nan x = false /\ F32.is_nan y = false.
Proof.
  destruct x as [? | ? | | ? ? ?], y as [? | ? | | ? ? ?];
    try discriminate; auto.
Qed.

Lemma SFltb_not_nan x y :
  SFltb x y = true -> F32.is_nan x = false /\ F32.is_nan y = false.
Proof.
  destruct x as [? | ? | | ? ? ?], y as [? | ? | | ? ? ?];
    try discriminate; auto.
Qed.

Lemma SFleb_trans x y z :
  F32.valid x = true -> F32.valid y = true -> F32.valid z = true ->
  SFleb x y = true -> SFleb y z = true -> SFleb x z = true.
Proof.
  intros Vx Vy Vz Hxy Hyz.
  destruct (SFleb_not_nan _ _ Hxy) as [Nx Ny].
  destruct (SFleb_not_nan _ _ Hyz) as [_ Nz].
  apply SFleb_F2Qx in Hxy; auto. apply SFleb_F2Qx in Hyz; auto.
  apply SFleb_F2Qx; auto. lra.
Qed.

Lemma SFltb_leb_trans x y z :
  F32.valid x = true -> F32.valid y = true -> F32.valid z = true ->
  SFltb x y = true -> SFleb y z = true -> SFltb x z = true.
Proof.
  intros Vx Vy Vz Hxy Hyz.
  destruct (SFltb_not_nan _ _ Hxy) as [Nx Ny].
  destruct (SFleb_not_nan _ _ Hyz) as [_ Nz].
  apply SFltb_F2Qx in Hxy; auto. apply SFleb_F2Qx in Hyz; auto.
  apply SFltb_F2Qx; auto. lra.
Qed.

Lemma SFltb_irrefl x : SFltb x x = false.
Proof.
  destruct (SFltb x x) eqn:E; [| reflexivity].
  pose proof (ltb_not_geb x x E) as H.
  unfold SFltb, SFleb in *. destruct (SFcompare x x) as [[] |]; discriminate.
Qed.

Lemma SFsub_diag x :
  F32.is_finite x = true -> F32.sub x x = F32.zero.
Proof.
  destruct x as [s | s | | s m e]; try discriminate; intros _.
  - destruct s; reflexivity.
  - unfold F32.sub, SFsub. rewrite Z.min_id.
    destruct (shl_align m e e) as [m' e'] eqn:Es. cbn [fst snd].
    rewrite Z.add_opp_diag_r || idtac.
    match goal with
    | |- context [binary_normalize _ _ ?z _ _] =>
        replace z with 0
    end.
    + reflexivity.
    + destruct s; cbn; rewrite ?Z.pos_sub_diag; reflexivity.
Qed.

(** X4: repeating a [setLevels] call with the same arguments changes
    nothing and requests no repaint, unless the brightness it computed is
    a NaN: a NaN differs from itself, so every repeat requests one more
    repaint. *)
Theorem setLevels_repeated :
  forall (s : GenericMeterSegment)
         (normalLevel discreteLevel normalLevelPeak discreteLevelPeak
          : F32.float),
    let s' := setLevels s normalLevel discreteLevel
                        normalLevelPeak discreteLevelPeak in
    setLevels s' normalLevel discreteLevel normalLevelPeak discreteLevelPeak
    = if F32.is_nan (fBrightness s') then requestRepaint s' else s'.
Proof.
  intros s nl dl nlp dlp s'.
  destruct (setLevels_fields s nl dl nlp dlp) as (Hb & Ho & Hp).
  destruct (setLevels_frame s nl dl nlp dlp) as (Hl & Hr & Hu & Hh & _).
  fold s' in Hb, Ho, Hp, Hl, Hr, Hu, Hh.
  unfold setLevels at 1.
  rewrite (levelBrightness_reads_thresholds s' s nl dl Hl Hr Hu).
  rewrite (levelPeakMarker_reads_thresholds s' s nlp dlp Hl Hu Hh).
  rewrite <- Hp. clearbody s'.
  destruct (levelBrightness s nl dl) as [b o]. cbn [fst snd] in Hb, Ho.
  rewrite <- Hb, <- Ho. rewrite Bool.eqb_reflx. cbn [negb]. rewrite orb_false_r.
  unfold F32.neb.
  destruct (F32.is_nan (fBrightness s')) eqn:En.
  - destruct (fBrightness s') eqn:Eb; try discriminate En.
    cbn. unfold requestRepaint. rewrite Eb. reflexivity.
  - rewrite (SFeqb_refl _ En). cbn [negb]. destruct s'; reflexivity.
Qed.

(** X5: a level exactly on the lower threshold gives exactly the dark
    values 0.25f and 0.30f through the interpolating branch, so the
    brightness does not jump where the dark branch ends. *)
Theorem setNormalLevels_at_lower_dark :
  forall (s : GenericMeterSegment) (normalLevelPeak : F32.float),
    F32.is_finite (lowerThreshold s) = true ->
    F32.ltb F32.zero (thresholdRange s) = true ->
    F32.ltb (lowerThreshold s) (upperThreshold s) = true ->
    F32.ltb F32.lit_m144 (lowerThreshold s) = true ->
    let s' := setNormalLevels s (lowerThreshold s) normalLevelPeak in
    F32.ltb (lowerThreshold s) (lowerThreshold s) = false
    /\ fBrightness s' = F32.lit_0_25
    /\ fBrightnessOutline s' = F32.lit_0_30.
Proof.
  intros s p Fl Pr Hlu H144 s'. subst s'. unfold setNormalLevels.
  split; [apply SFltb_irrefl |].
  destruct (setLevels_fields s (lowerThreshold s) F32.lit_m144 p F32.lit_m144)
    as (-> & -> & _).
  unfold levelBrightness, F32.geb.
  rewrite (ltb_not_geb _ _ Hlu), (ltb_not_geb _ _ H144).
  cbn [andb].
  assert (Hirr : F32.ltb (lowerThreshold s) (lowerThreshold s) = false)
    by apply SFltb_irrefl.
  rewrite Hirr.
  rewrite (SFsub_diag _ Fl).
  destruct (thresholdRange s) as [? | [] | | [] ? ?]; try discriminate Pr;
    split; reflexivity.
Qed.

(** X6: the peak marker treats the two peak arguments alike: swapping the
    normal and the discrete peak level gives the same marker, so
    [setNormalLevels] and [setDiscreteLevels] with the same peak light the
    same marker. *)
Theorem peak_marker_symmetric :
  forall (s : GenericMeterSegment) (nl dl nl' dl' level level' p q : F32.float),
    lightPeakMarker (setLevels s nl dl p q)
    = lightPeakMarker (setLevels s nl' dl' q p)
    /\ lightPeakMarker (setNormalLevels s level p)
       = lightPeakMarker (setDiscreteLevels s level' p).
Proof.
  intros s nl dl nl' dl' level level' p q.
  unfold setNormalLevels, setDiscreteLevels.
  repeat match goal with
         | |- context [lightPeakMarker (setLevels ?s ?a ?b ?c ?d)] =>
             let H := fresh in
             destruct (setLevels_fields s a b c d) as (_ & _ & H);
             rewrite H; clear H
         end.
  unfold levelPeakMarker.
  destruct (hasHighestLevel s);
    destruct (F32.geb p (lowerThreshold s)), (F32.geb q (lowerThreshold s)),
             (F32.ltb p (upperThreshold s)), (F32.ltb q (upperThreshold s)),
             (F32.geb F32.lit_m144 (lowerThreshold s)),
             (F32.ltb F32.lit_m144 (upperThreshold s));
    split; reflexivity.
Qed.

(** X7: on the topmost segment a lit peak marker stays lit for every
    greater peak level. *)
Theorem topmost_peak_marker_monotone :
  forall (s : GenericMeterSegment) (level level' p p' : F32.float),
    hasHighestLevel s = true ->
    F32.valid (lowerThreshold s) = true ->
    F32.valid p = true -> F32.valid p' = true ->
    F32.leb p p' = true ->
    lightPeakMarker (setNormalLevels s level p) = true ->
    lightPeakMarker (setNormalLevels s level' p') = true.
Proof.
  intros s l l' p p' Hh Vl Vp Vp' Hpp. unfold setNormalLevels.
  destruct (setLevels_fields s l F32.lit_m144 p F32.lit_m144) as (_ & _ & ->).
  destruct (setLevels_fields s l' F32.lit_m144 p' F32.lit_m144)
    as (_ & _ & ->).
  unfold levelPeakMarker. rewrite Hh.
  destruct (F32.geb F32.lit_m144 (lowerThreshold s));
    [destruct (F32.geb p' (lowerThreshold s)); reflexivity |].
  destruct (F32.geb p (lowerThreshold s)) eqn:Hp; [| discriminate].
  intros _. unfold F32.geb in *.
  rewrite (SFleb_trans _ p p' Vl Vp Vp' Hp Hpp). reflexivity.
Qed.


(* ===================================================================== *)
(** * Facts: stacked segments                                           *)
(* ===================================================================== *)

Lemma minus144_valid : F32.valid F32.lit_m144 = true.
Proof. reflexivity. Qed.

Lemma levelBrightness_nan_level s dl :
  F32.geb dl (lowerThreshold s) && F32.ltb dl (upperThreshold s) = false ->
  fst (levelBrightness s F32.nan dl) = F32.nan.
Proof.
  intros Hd. unfold levelBrightness. rewrite Hd.
  assert (G : F32.geb F32.nan (upperThreshold s) = false)
    by (destruct (upperThreshold s) as [[] | [] | | [] ? ?]; reflexivity).
  rewrite G. cbn [F32.ltb F32.nan SFltb SFcompare fst].
  destruct (lowerThreshold s) as [[] | [] | | [] ? ?];
    destruct (thresholdRange s) as [[] | [] | | [] ? ?]; reflexivity.
Qed.

(** A segment [upper] stacked on [lower] through the value
    [setThresholds] returns. *)
Section Stacked.
Variables rawA rawB : GenericMeterSegment.
Variables lowerA rangeA rangeB : F32.float.
Variables highestA highestB : bool.
Hypothesis VlA : F32.valid lowerA = true.
Hypothesis VrA : F32.valid rangeA = true.
Hypothesis FrA : F32.is_finite rangeA = true.
Hypothesis PrA : F32.leb F32.zero rangeA = true.
Hypothesis H144 : F32.ltb F32.lit_m144 lowerA = true.

Let upperA := fst (setThresholds rawA lowerA rangeA highestA).
Let A := snd (setThresholds rawA lowerA rangeA highestA).
Let B := snd (setThresholds rawB upperA rangeB highestB).

Lemma stacked_lower_facts :
  F32.is_nan lowerA = false
  /\ F32.leb lowerA upperA = true
  /\ F32.valid upperA = true
  /\ F32.is_nan upperA = false
  /\ F32.geb F32.lit_m144 lowerA = false
  /\ F32.geb F32.lit_m144 upperA = false.
Proof.
  destruct (SFltb_not_nan _ _ H144) as [_ Nl].
  destruct (upper_not_below_lower lowerA rangeA VlA Nl VrA FrA PrA)
    as (Hle & Nu & Vu).
  subst upperA. cbn [setThresholds fst].
  repeat (split; [assumption |]).
  split; unfold F32.geb; apply ltb_not_geb; [exact H144 |].
  exact (SFltb_leb_trans _ _ _ minus144_valid VlA Vu H144 Hle).
Qed.

Lemma stacked_marker_lower p level :
  lightPeakMarker (setNormalLevels A level p)
  = if highestA then F32.geb p lowerA
    else F32.geb p lowerA && F32.ltb p upperA.
Proof.
  destruct stacked_lower_facts as (_ & _ & _ & _ & H1 & _).
  unfold setNormalLevels.
  destruct (setLevels_fields A level F32.lit_m144 p F32.lit_m144)
    as (_ & _ & ->).
  unfold levelPeakMarker. subst A upperA. cbn [setThresholds fst snd
    hasHighestLevel lowerThreshold upperThreshold].
  rewrite H1. cbn [andb].
  destruct highestA, (F32.geb p lowerA),
           (F32.ltb p (F32.add lowerA rangeA)); reflexivity.
Qed.

Lemma stacked_marker_upper p level :
  lightPeakMarker (setNormalLevels B level p)
  = if highestB then F32.geb p upperA
    else F32.geb p upperA && F32.ltb p (upperThreshold B).
Proof.
  destruct stacked_lower_facts as (_ & _ & _ & _ & _ & H2).
  unfold setNormalLevels.
  destruct (setLevels_fields B level F32.lit_m144 p F32.lit_m144)
    as (_ & _ & ->).
  unfold levelPeakMarker. subst B. cbn [setThresholds fst snd
    hasHighestLevel lowerThreshold upperThreshold].
  rewrite H2. cbn [andb].
  destruct highestB, (F32.geb p upperA),
           (F32.ltb p (F32.add upperA rangeB)); reflexivity.
Qed.

Lemma stacked_markers p levelA levelB :
  F32.valid p = true -> highestA = false ->
  lightPeakMarker (setNormalLevels A levelA p)
  && lightPeakMarker (setNormalLevels B levelB p) = false
  /\ (highestB = true ->
      lightPeakMarker (setNormalLevels A levelA p)
      || lightPeakMarker (setNormalLevels B levelB p)
      = F32.geb p lowerA).
Proof.
  intros Vp HhA.
  destruct stacked_lower_facts as (Nl & Hle & Vu & Nu & _ & _).
  rewrite stacked_marker_lower, stacked_marker_upper, HhA.
  destruct (F32.ltb p upperA) eqn:Hlt.
  - assert (Hg : F32.geb p upperA = false)
      by (unfold F32.geb; apply ltb_not_geb; exact Hlt).
    rewrite Hg.
    split; [destruct highestB, (F32.geb p lowerA); reflexivity |].
    intros ->. destruct (F32.geb p lowerA); reflexivity.
  - rewrite !andb_false_r. split; [reflexivity |].
    intros ->. cbn [orb]. unfold F32.geb.
    destruct (SFleb upperA p) eqn:Hge.
    + symmetry. exact (SFleb_trans _ _ _ VlA Vu Vp Hle Hge).
    + destruct (SFleb lowerA p) eqn:Hge'; [| reflexivity].
      destruct (SFleb_not_nan _ _ Hge') as [_ Np].
      rewrite (not_ltb_geb p upperA Np Nu Hlt) in Hge. discriminate.
Qed.

Hypothesis VrB : F32.valid rangeB = true.
Hypothesis FrB : F32.is_finite rangeB = true.
Hypothesis PrB : F32.leb F32.zero rangeB = true.

Lemma stacked_lit level pA pB :
  F32.valid level = true -> F32.is_nan level = false ->
  fBrightness (setNormalLevels B level pB) <> F32.lit_0_25 ->
  fBrightness (setNormalLevels A level pA) = F32.lit_0_97
  /\ fBrightnessOutline (setNormalLevels A level pA) = F32.lit_0_90.
Proof.
  intros Vn Nn.
  destruct stacked_lower_facts as (Nl & Hle & Vu & Nu & _ & H2).
  destruct (upper_not_below_lower upperA rangeB Vu Nu VrB FrB PrB)
    as (HleB & NuB & VuB).
  unfold setNormalLevels.
  destruct (setLevels_fields B level F32.lit_m144 pB F32.lit_m144)
    as (-> & _ & _).
  destruct (setLevels_fields A level F32.lit_m144 pA F32.lit_m144)
    as (-> & -> & _).
  assert (Hup : F32.geb level upperA = true ->
                levelBrightness A level F32.lit_m144
                = (F32.lit_0_97, F32.lit_0_90)).
  { intros H. unfold levelBrightness. subst A upperA.
    cbn [setThresholds fst snd upperThreshold] in *. rewrite H. reflexivity. }
  unfold levelBrightness at 1. subst B.
  cbn [setThresholds fst snd lowerThreshold upperThreshold thresholdRange].
  rewrite H2. cbn [andb].
  destruct (F32.geb level (F32.add upperA rangeB)) eqn:H1.
  - intros _. rewrite Hup; [split; reflexivity |].
    unfold F32.geb in *. exact (SFleb_trans _ _ _ Vu VuB Vn HleB H1).
  - destruct (F32.ltb level upperA) eqn:H3.
    + cbn [fst]. intros H. contradiction H. reflexivity.
    + intros _. rewrite Hup; [split; reflexivity |].
      unfold F32.geb. exact (not_ltb_geb level upperA Nn Nu H3).
Qed.

(** At a NaN level, with the discrete level outside the thresholds, the
    interpolating branch is taken and computes with the NaN. *)
Lemma stacked_nan_level pA pB :
  fBrightness (setNormalLevels A F32.nan pA) = F32.nan
  /\ fBrightness (setNormalLevels B F32.nan pB) = F32.nan.
Proof.
  destruct stacked_lower_facts as (_ & _ & _ & _ & H1 & H2).
  unfold setNormalLevels.
  destruct (setLevels_fields A F32.nan F32.lit_m144 pA F32.lit_m144)
    as (-> & _ & _).
  destruct (setLevels_fields B F32.nan F32.lit_m144 pB F32.lit_m144)
    as (-> & _ & _).
  split; apply levelBrightness_nan_level;
    subst A B; cbn [setThresholds fst snd lowerThreshold];
    [rewrite H1 | rewrite H2]; reflexivity.
Qed.

End Stacked.

(** X8: two segments stacked through the value [setThresholds] returns
    (the upper one starts where the lower one ends), both above -144 and
    with finite ranges that are not negative.  For a normal level that is
    not a NaN: whenever the upper segment shows anything but the dark
    brightness for that level, the lower segment is fully lit for it.
    (At a NaN level both segments get a NaN brightness, see
    [stacked_segments_nan_level].) *)
Theorem stacked_segments_lit_from_below :
  forall (rawA rawB : GenericMeterSegment)
         (lowerA rangeA rangeB : F32.float) (highestA highestB : bool)
         (level pA pB : F32.float),
    F32.valid lowerA = true ->
    F32.valid rangeA = true -> F32.is_finite rangeA = true ->
    F32.leb F32.zero rangeA = true ->
    F32.ltb F32.lit_m144 lowerA = true ->
    F32.valid rangeB = true -> F32.is_finite rangeB = true ->
    F32.leb F32.zero rangeB = true ->
    F32.valid level = true -> F32.is_nan level = false ->
    let rA := setThresholds rawA lowerA rangeA highestA in
    let A := snd rA in
    let B := snd (setThresholds rawB (fst rA) rangeB highestB) in
    fBrightness (setNormalLevels B level pB) <> F32.lit_0_25 ->
    fBrightness (setNormalLevels A level pA) = F32.lit_0_97
    /\ fBrightnessOutline (setNormalLevels A level pA) = F32.lit_0_90.
Proof.
  intros rawA rawB lowerA rangeA rangeB hA hB level pA pB
         VlA VrA FrA PrA H144 VrB FrB PrB Vn Nn rA A B.
  exact (stacked_lit rawA rawB lowerA rangeA rangeB hA hB
           VlA VrA FrA PrA H144 VrB FrB PrB level pA pB Vn Nn).
Qed.

(** Why X8 asks for a level that is a number: at a NaN level the upper
    segment is not dark and the lower one is not fully lit, both hold a
    NaN. *)
Lemma stacked_segments_nan_level :
  forall (rawA rawB : GenericMeterSegment)
         (lowerA rangeA rangeB : F32.float) (highestA highestB : bool)
         (pA pB : F32.float),
    F32.valid lowerA = true ->
    F32.valid rangeA = true -> F32.is_finite rangeA = true ->
    F32.leb F32.zero rangeA = true ->
    F32.ltb F32.lit_m144 lowerA = true ->
    let rA := setThresholds rawA lowerA rangeA highestA in
    let A := snd rA in
    let B := snd (setThresholds rawB (fst rA) rangeB highestB) in
    fBrightness (setNormalLevels A F32.nan pA) = F32.nan
    /\ fBrightness (setNormalLevels B F32.nan pB) = F32.nan.
Proof.
  intros rawA rawB lowerA rangeA rangeB hA hB pA pB
         VlA VrA FrA PrA H144 rA A B.
  exact (stacked_nan_level rawA rawB lowerA rangeA rangeB hA hB
           VlA VrA FrA PrA H144 pA pB).
Qed.

(** X9: for the same two stacked segments, the lower one not topmost: one
    normal peak level never lights both peak markers; and when the upper
    segment is the topmost one, a marker is lit exactly when the peak is
    on or above the lower segment's lower threshold. *)
Theorem stacked_segments_one_peak_marker :
  forall (rawA rawB : GenericMeterSegment)
         (lowerA rangeA rangeB : F32.float) (highestB : bool)
         (levelA levelB p : F32.float),
    F32.valid lowerA = true ->
    F32.valid rangeA = true -> F32.is_finite rangeA = true ->
    F32.leb F32.zero rangeA = true ->
    F32.ltb F32.lit_m144 lowerA = true ->
    F32.valid p = true ->
    let rA := setThresholds rawA lowerA rangeA false in
    let A := snd rA in
    let B := snd (setThresholds rawB (fst rA) rangeB highestB) in
    lightPeakMarker (setNormalLevels A levelA p)
    && lightPeakMarker (setNormalLevels B levelB p) = false
    /\ (highestB = true ->
        lightPeakMarker (setNormalLevels A levelA p)
        || lightPeakMarker (setNormalLevels B levelB p)
        = F32.geb p lowerA).
Proof.
  intros rawA rawB lowerA rangeA rangeB hB levelA levelB p
         VlA VrA FrA PrA H144 Vp rA A B.
  exact (stacked_markers rawA rawB lowerA rangeA rangeB false hB
           VlA VrA FrA PrA H144 p levelA levelB Vp eq_refl).
Qed.


(* ===================================================================== *)
(** * Facts: the component and its call sequences                       *)
(* ===================================================================== *)

Lemma levelBrightness_in_range s nl dl :
  F32.valid (lowerThreshold s) = true ->
  F32.is_nan (lowerThreshold s) = false ->
  F32.valid (thresholdRange s) = true ->
  F32.is_finite (thresholdRange s) = true ->
  F32.ltb F32.zero (thresholdRange s) = true ->
  thresholdsConsistent s ->
  F32.valid nl = true -> F32.is_nan nl = false ->
  F32.leb F32.lit_0_25 (fst (levelBrightness s nl dl))
  && F32.leb (fst (levelBrightness s nl dl)) F32.lit_0_97
  && F32.leb F32.lit_0_30 (snd (levelBrightness s nl dl))
  && F32.leb (snd (levelBrightness s nl dl)) F32.lit_0_90_up = true.
Proof.
  intros Vl NnL Vr Nr Pr Hcons Vn Nn.
  destruct (levelBrightness_cases s nl dl) as [-> | [-> | (Hge & Hlt & ->)]];
    [reflexivity | reflexivity |].
  rewrite Hcons in Hge.
  assert (Nl : F32.is_finite (lowerThreshold s) = true).
  { destruct (lowerThreshold s) as [? | sl | | ? ? ?];
      try reflexivity; [exfalso | discriminate NnL].
    unfold F32.geb, F32.ltb, F32.add in Hge, Hlt.
    destruct (thresholdRange s) as [? | ? | | ? ? ?]; try discriminate Nr;
      destruct sl; destruct nl as [? | [] | | [] ? ?];
      try discriminate Nn; cbn in Hge, Hlt; discriminate. }
  destruct (interpolation_ratio (lowerThreshold s) (thresholdRange s) nl
              Vl Nl Vr Nr Pr Vn Nn Hge Hlt) as (Vb & Nb & Hb0 & Hb1).
  set (b := F32.div (F32.sub nl (lowerThreshold s)) (thresholdRange s)) in *.
  destruct literal_values
    as (Hz & H1 & P25 & P30 & P72 & P60 & S97 & S90 & L97 & L90).
  destruct (scaled_offset_between b F32.lit_0_72 F32.lit_0_25
              F32.lit_0_25 F32.lit_0_97)
    as (Vf & Nf & Lf0 & Lf1 & Qf0 & Qf1);
    try reflexivity; try assumption; try lra.
  destruct (scaled_offset_between b F32.lit_0_60 F32.lit_0_30
              F32.lit_0_30 F32.lit_0_90_up)
    as (Vo & No & Lo0 & Lo1 & Qo0 & Qo1);
    try reflexivity; try assumption; try lra.
  cbv zeta. cbn [fst snd]. unfold F32.leb.
  rewrite Lf0, Lf1, Lo0, Lo1. reflexivity.
Qed.



Lemma ltb_leb x y : SFltb x y = true -> SFleb x y = true.
Proof.
  unfold SFltb, SFleb. destruct (SFcompare x y) as [[] |]; auto.
Qed.




Section ComponentFacts.
Variable Colour : Type.
Variable colourHSBA : F32.float -> F32.float -> F32.float -> F32.float -> Colour.



End ComponentFacts.


Section ColourFacts.
Variable Colour : Type.
Variable colourHSBA : F32.float -> F32.float -> F32.float -> F32.float -> Colour.

Lemma call_keeps_colour (c : SegmentComponent Colour) m :
  isSetColour Colour m = false ->
  fHue (segment (fst (call Colour colourHSBA c m))) = fHue (segment c)
  /\ colPeak (fst (call Colour colourHSBA c m)) = colPeak c.
Proof.
  destruct m as [l r h | hue col | w h | | | l p | l p | nl dl nlp dlp];
    intros Hm; try discriminate Hm;
    cbn [call fst onSegment segment colPeak visibilityChanged resized];
    try (split; reflexivity);
    unfold setNormalLevels, setDiscreteLevels;
    match goal with
    | |- context [setLevels ?s ?a ?b ?c ?d] =>
        destruct (setLevels_frame s a b c d) as (_ & _ & _ & _ & ->)
    end; split; reflexivity.
Qed.

Lemma calls_keep_colour ms : forall (c : SegmentComponent Colour),
  existsb (isSetColour Colour) ms = false ->
  fHue (segment (calls Colour colourHSBA c ms)) = fHue (segment c)
  /\ colPeak (calls Colour colourHSBA c ms) = colPeak c.
Proof.
  induction ms as [| m ms IH]; intros c Hms; cbn [calls].
  - split; reflexivity.
  - cbn [existsb] in Hms. apply orb_false_iff in Hms. destruct Hms as [Hm Hms].
    destruct (IH (fst (call Colour colourHSBA c m)) Hms) as [-> ->].
    apply call_keeps_colour. exact Hm.
Qed.

End ColourFacts.

(** X11: the hue and the peak colour given to [setColour] stay in force
    through every later call that is not [setColour]: [paint] then draws
    the outline and the fill in that hue, with the brightness members of
    the moment, and frames the segment in that peak colour exactly when
    the peak marker is lit. *)
Theorem paint_after_setColour :
  forall (Colour : Type)
         (colourHSBA : F32.float -> F32.float -> F32.float -> F32.float
                       -> Colour)
         (c : SegmentComponent Colour) (fHueNew : F32.float)
         (colPeakNew : Colour) (ms : list (MemberCall Colour))
         (width height : Z),
    existsb (isSetColour Colour) ms = false ->
    let c' := calls Colour colourHSBA (setColour Colour c fHueNew colPeakNew)
                    ms in
    paint Colour colourHSBA c' width height
    = [ GSetColour (colourHSBA fHueNew F32.one
                      (fBrightnessOutline (segment c')) F32.one);
        GDrawRect 1 1 (width - 2) (height - 2);
        GSetColour (colourHSBA fHueNew F32.one
                      (fBrightness (segment c')) F32.one);
        GFillRect 2 2 (width - 4) (height - 4) ]
      ++ (if lightPeakMarker (segment c')
          then [ GSetColour colPeakNew; GDrawRect 0 0 width height ]
          else []).
Proof.
  intros Colour colourHSBA c hue col ms w h Hms c'.
  destruct (calls_keep_colour Colour colourHSBA ms
              (setColour Colour c hue col) Hms) as [Hh Hc].
  fold c' in Hh, Hc. unfold paint. rewrite Hh, Hc. reflexivity.
Qed.

(** X12: [setThresholds] hides the peak marker without requesting a
    repaint, and the next [setLevels] compares against the hidden marker:
    when a lit marker is hidden this way and [setLevels] then leaves it
    hidden with the brightness it had, no repaint is requested at all
    although the marker went from lit to hidden. *)
Theorem setThresholds_hides_marker_without_repaint :
  forall (s : GenericMeterSegment) (fLowerThreshold fDisplayRange : F32.float)
         (bHasHighestLevel : bool)
         (normalLevel discreteLevel normalLevelPeak discreteLevelPeak
          : F32.float),
    let s1 := snd (setThresholds s fLowerThreshold fDisplayRange
                                 bHasHighestLevel) in
    let s2 := setLevels s1 normalLevel discreteLevel
                        normalLevelPeak discreteLevelPeak in
    lightPeakMarker s = true ->
    lightPeakMarker s2 = false ->
    F32.neb (fBrightness s2) (fBrightness s) = false ->
    repaintRequests s1 = repaintRequests s
    /\ repaintRequests s2 = repaintRequests s
    /\ lightPeakMarker s2 <> lightPeakMarker s.
Proof.
  intros s l r h nl dl nlp dlp s1 s2 Hlit Hp Hb.
  split; [reflexivity |]. split; [| rewrite Hlit, Hp; discriminate].
  destruct (setLevels_fields s1 nl dl nlp dlp) as (Eb & _ & Ep).
  fold s2 in Eb, Ep. rewrite Eb in Hb. rewrite Ep in Hp.
  subst s2. unfold setLevels.
  destruct (levelBrightness s1 nl dl) as [b o]. cbn [fst] in Hb.
  cbn [repaintRequests]. rewrite Hp.
  subst s1. cbn [setThresholds snd fBrightness lightPeakMarker
                 repaintRequests].
  rewrite Hb. reflexivity.
Qed.


(* ===================================================================== *)
(** * Facts: binary32 rounding is monotone                              *)
(* ===================================================================== *)

Lemma rne_cases a B :
  0 < B ->
  (rne a B = a / B
   /\ (2 * (a mod B) < B \/ (2 * (a mod B) = B /\ Z.even (a / B) = true)))
  \/ (rne a B = a / B + 1
      /\ (B < 2 * (a mod B)
          \/ (2 * (a mod B) = B /\ Z.even (a / B) = false))).
Proof.
  intros HB. unfold rne, loc_spec.
  destruct (Z.eqb_spec (a mod B) 0) as [H0 | H0].
  - left. cbn [round_nearest_even]. split; [reflexivity | left; lia].
  - destruct (Z.compare_spec (2 * (a mod B)) B) as [H | H | H];
      cbn [round_nearest_even].
    + destruct (Z.even (a / B)) eqn:Ev; [left | right];
        (split; [reflexivity | right; split; [exact H | reflexivity]]).
    + left. split; [reflexivity | left; exact H].
    + right. split; [reflexivity | left; exact H].
Qed.

Lemma rne_bounds a B : 0 < B -> a / B <= rne a B <= a / B + 1.
Proof. intros HB. destruct (rne_cases a B HB) as [[-> _] | [-> _]]; lia. Qed.

Lemma floor_mono a1 B1 a2 B2 :
  0 < B1 -> 0 < B2 -> a1 * B2 <= a2 * B1 -> a1 / B1 <= a2 / B2.
Proof.
  intros H1 H2 H.
  pose proof (Z.div_mod a1 B1 ltac:(lia)) as D1.
  pose proof (Z.div_mod a2 B2 ltac:(lia)) as D2.
  pose proof (Z.mod_pos_bound a1 B1 H1) as M1.
  pose proof (Z.mod_pos_bound a2 B2 H2) as M2.
  set (q1 := a1 / B1) in *. set (q2 := a2 / B2) in *.
  set (r1 := a1 mod B1) in *. set (r2 := a2 mod B2) in *.
  clearbody q1 q2 r1 r2.
  destruct (Z.le_gt_cases q1 q2) as [Hc | Hc]; [exact Hc | exfalso].
  assert (q2 + 1 <= q1) by lia.
  assert (B1 * B2 * (q2 + 1) <= B1 * B2 * q1)
    by (apply Z.mul_le_mono_nonneg_l; nia).
  nia.
Qed.

Lemma rne_mono a1 B1 a2 B2 :
  0 < B1 -> 0 < B2 -> a1 * B2 <= a2 * B1 -> rne a1 B1 <= rne a2 B2.
Proof.
  intros H1 H2 H.
  pose proof (floor_mono a1 B1 a2 B2 H1 H2 H) as Hq.
  pose proof (rne_bounds a1 B1 H1) as R1.
  pose proof (rne_bounds a2 B2 H2) as R2.
  destruct (Z.eq_dec (a1 / B1) (a2 / B2)) as [He | Hne]; [| lia].
  pose proof (Z.div_mod a1 B1 ltac:(lia)) as D1.
  pose proof (Z.div_mod a2 B2 ltac:(lia)) as D2.
  pose proof (Z.mod_pos_bound a1 B1 H1) as M1.
  pose proof (Z.mod_pos_bound a2 B2 H2) as M2.
  destruct (rne_cases a1 B1 H1) as [[-> C1] | [-> C1]];
    destruct (rne_cases a2 B2 H2) as [[-> C2] | [-> C2]]; try lia.
  exfalso. rewrite <- He in *.
  set (q := a1 / B1) in *. set (r1 := a1 mod B1) in *.
  set (r2 := a2 mod B2) in *. clearbody q r1 r2.
  assert (Hr : r1 * B2 <= r2 * B1) by nia.
  destruct C1 as [C1 | [C1 E1]], C2 as [C2 | [C2 E2]]; try congruence; nia.
Qed.

Lemma binary_round_aux_nearest sx mx ex lx a b :
  0 <= a -> 0 < b -> mx = a / b -> lx = loc_spec a b ->
  round_pre mx ex ->
  exists E,
    ex <= E
    /\ cell a (b * 2 ^ (E - ex)) E
    /\ round_result sx (rne a (b * 2 ^ (E - ex))) E
         (binary_round_aux F32.prec F32.emax sx mx ex lx).
Proof.
  intros Ha Hb Hmx Hlx Hpre.
  set (E := fexp32 (Zdigits2 mx + ex)).
  assert (HexE : ex <= E).
  { destruct Hpre as [[_ H] | [-> H]]; [exact H |].
    subst E. cbn [Zdigits2]. rewrite fexp32_eq. lia. }
  assert (HE : -149 <= E) by (subst E; rewrite fexp32_eq; lia).
  set (n := E - ex). assert (Hn : 0 <= n) by lia.
  assert (H2n : 0 < 2 ^ n) by (apply Z.pow_pos_nonneg; lia).
  set (B := b * 2 ^ n). assert (HB : 0 < B) by nia.
  assert (Hdiv : a / B = mx / 2 ^ n)
    by (subst B mx; rewrite Z.div_div by lia; reflexivity).
  assert (Hm'0 : 0 <= a / B) by (apply Z.div_pos; lia).
  assert (Hzero : a / B = 0 -> E = -149).
  { intros H0. destruct Hpre as [[Hpos _] | [Hz Hex]].
    - rewrite Hdiv in H0.
      apply Z.div_small_iff in H0; [| lia]. destruct H0 as [H0 | H0]; [| lia].
      pose proof (Zdigits2_bounds mx Hpos) as Hbd.
      assert (Zdigits2 mx - 1 < n).
      { apply (Z.pow_lt_mono_r_iff 2); lia. }
      subst E n. rewrite fexp32_eq in *. lia.
    - subst E. rewrite Hz. cbn [Zdigits2]. rewrite fexp32_eq. lia. }
  assert (Hcanon : 0 < a / B -> fexp32 (Zdigits2 (a / B) + E) = E).
  { intros Hpos. destruct Hpre as [[Hmxpos _] | [Hz _]].
    - rewrite Hdiv in *. rewrite Zdigits2_div_pow2 by lia.
      subst n.
      replace (Zdigits2 mx - (E - ex) + E) with (Zdigits2 mx + ex) by lia.
      reflexivity.
    - rewrite Hdiv, Hz in Hpos. rewrite Z.div_0_l in Hpos by lia. lia. }
  destruct (shr_shift_inv a b (shr_record_of_loc mx lx) ex n Ha Hb)
    as [Hinv He'];
    [subst mx lx; apply shr_record_of_loc_inv | exact Hn |].
  fold B in Hinv. destruct Hinv as [Hm' Hl'].
  rewrite binary_round_aux_finish.
  unfold shr_fexp at 1 2 3. fold E. fold n.
  rewrite He', Hm', Hl'. replace (ex + n) with E by (subst n; lia).
  exists E. fold n. fold B.
  split; [exact HexE |].
  split; [repeat (split; [assumption |]); assumption |].
  unfold rne.
  destruct (round_nearest_even_cases (a / B) (loc_spec a B)) as [Hr | [Hr Hne]];
    rewrite Hr.
  - destruct (Z.eq_dec (a / B) 0) as [H0 | H0].
    + left. split; [exact H0 |]. rewrite H0, (Hzero H0). reflexivity.
    + apply round_finish_spec; [lia |]. left. apply Hcanon. lia.
  - apply round_up_finish; assumption.
Qed.

Lemma cell_bounds a B E :
  cell a B E -> 0 <= a / B < 2 ^ 24 /\ (-149 < E -> 2 ^ 23 <= a / B).
Proof.
  intros (Ha & HB & HE & Hz & Hc).
  assert (H0 : 0 <= a / B) by (apply Z.div_pos; lia).
  destruct (Z.eq_dec (a / B) 0) as [Hq | Hq].
  - rewrite Hq. split; [lia |]. specialize (Hz Hq). lia.
  - assert (Hpos : 0 < a / B) by lia. specialize (Hc Hpos).
    pose proof (Zdigits2_bounds _ Hpos) as Hb.
    pose proof (Zdigits2_pos _ Hpos) as Hd.
    rewrite fexp32_eq in Hc.
    set (d := Zdigits2 (a / B)) in *.
    assert (Hd24 : d <= 24) by lia.
    assert (2 ^ d <= 2 ^ 24) by (apply Z.pow_le_mono_r; lia).
    split; [lia |]. intros HE'.
    assert (d = 24) by lia. subst d.
    replace (2 ^ 23) with (2 ^ (Zdigits2 (a / B) - 1)); [lia |].
    f_equal. lia.
Qed.

Lemma cell_value a B E v :
  0 <= a -> 0 < B -> (inject_Z B * v == mag a E)%Q ->
  (mag (a / B) E <= v)%Q /\ (v < mag (a / B + 1) E)%Q.
Proof.
  intros Ha HB Hv.
  pose proof (Z.div_mod a B ltac:(lia)) as D.
  pose proof (Z.mod_pos_bound a B HB) as M.
  assert (HBq : (0 < inject_Z B)%Q)
    by (change 0%Q with (inject_Z 0); rewrite <- Zlt_Qlt; exact HB).
  split.
  - apply (Qmult_le_l _ _ (inject_Z B) HBq).
    rewrite Hv, mag_scale. apply mag_le. lia.
  - apply (Qmult_lt_l _ _ (inject_Z B) HBq).
    rewrite Hv, mag_scale. apply mag_lt. lia.
Qed.

Lemma pow2_ge2 n : 0 < n -> 2 <= 2 ^ n.
Proof.
  intros Hn. change 2 with (2 ^ 1) at 1. apply Z.pow_le_mono_r; lia.
Qed.

Lemma round_magnitude_mono a1 B1 E1 a2 B2 E2 v1 v2 :
  cell a1 B1 E1 -> cell a2 B2 E2 ->
  (inject_Z B1 * v1 == mag a1 E1)%Q -> (inject_Z B2 * v2 == mag a2 E2)%Q ->
  (v1 <= v2)%Q ->
  (mag (rne a1 B1) E1 <= mag (rne a2 B2) E2)%Q.
Proof.
  intros C1 C2 Hv1 Hv2 Hle.
  destruct (cell_bounds _ _ _ C1) as [Hb1 Hn1].
  destruct (cell_bounds _ _ _ C2) as [Hb2 Hn2].
  destruct C1 as (Ha1 & HB1 & HE1 & _). destruct C2 as (Ha2 & HB2 & HE2 & _).
  destruct (cell_value a1 B1 E1 v1 Ha1 HB1 Hv1) as [Hlo1 Hhi1].
  destruct (cell_value a2 B2 E2 v2 Ha2 HB2 Hv2) as [Hlo2 Hhi2].
  pose proof (rne_bounds a1 B1 HB1) as R1.
  pose proof (rne_bounds a2 B2 HB2) as R2.
  destruct (Z.lt_trichotomy E1 E2) as [Hlt | [Heq | Hgt]].
  - (* the second value is at least one binade up *)
    rewrite (mag_shift (rne a2 B2) E2 E1) by lia. apply mag_le.
    pose proof (pow2_ge2 (E2 - E1) ltac:(lia)) as Hp.
    specialize (Hn2 ltac:(lia)).
    change (2 ^ 24) with (2 ^ 23 * 2) in Hb1. nia.
  - subst E2. apply mag_le. apply rne_mono; try assumption.
    assert (HB1q : (0 < inject_Z B1)%Q)
      by (change 0%Q with (inject_Z 0); rewrite <- Zlt_Qlt; exact HB1).
    assert (HB2q : (0 < inject_Z B2)%Q)
      by (change 0%Q with (inject_Z 0); rewrite <- Zlt_Qlt; exact HB2).
    apply (proj1 (mag_le (a1 * B2) (a2 * B1) E1)).
    rewrite (Z.mul_comm a1 B2), (Z.mul_comm a2 B1).
    rewrite <- !mag_scale, <- Hv1, <- Hv2.
    assert ((inject_Z B2 * (inject_Z B1 * v1)
             == inject_Z B1 * inject_Z B2 * v1)%Q) as -> by ring.
    assert ((inject_Z B1 * (inject_Z B2 * v2)
             == inject_Z B1 * inject_Z B2 * v2)%Q) as -> by ring.
    apply Qmult_le_l; [| exact Hle].
    apply Qmult_lt_0_compat; assumption.
  - exfalso.
    rewrite (mag_shift (a1 / B1) E1 E2) in Hlo1 by lia.
    pose proof (pow2_ge2 (E1 - E2) ltac:(lia)) as Hp.
    specialize (Hn1 ltac:(lia)).
    assert (Hz : a2 / B2 + 1 <= a1 / B1 * 2 ^ (E1 - E2))
      by (change (2 ^ 24) with (2 ^ 23 * 2) in Hb2; nia).
    apply (mag_le _ _ E2) in Hz. lra.
Qed.

Lemma round_result_nonneg sx m E R : round_result sx m E R -> 0 <= m.
Proof.
  intros [[-> _] | (m3 & e3 & He & Hm & _)]; [lia |].
  assert (0 < 2 ^ (e3 - E)) by (apply Z.pow_pos_nonneg; lia). nia.
Qed.

Lemma round_result_zero sx E R : round_result sx 0 E R -> R = S754_zero sx.
Proof.
  intros [[_ H] | (m3 & e3 & He & Hm & _)]; [exact H |].
  assert (0 < 2 ^ (e3 - E)) by (apply Z.pow_pos_nonneg; lia). nia.
Qed.

Lemma mag_pos_inv m e : (0 < mag m e)%Q -> 0 < m.
Proof.
  intros H. destruct (Z.lt_ge_cases 0 m) as [Hp | Hn]; [exact Hp | exfalso].
  apply (mag_le m 0 e) in Hn. rewrite mag_zero in Hn. lra.
Qed.

Lemma round_result_leb m1 E1 R1 m2 E2 R2 :
  round_result false m1 E1 R1 -> round_result false m2 E2 R2 ->
  (mag m1 E1 <= mag m2 E2)%Q -> SFleb R1 R2 = true.
Proof.
  intros H1 H2 Hle.
  pose proof (round_result_nonneg _ _ _ _ H1) as P1.
  pose proof (round_result_nonneg _ _ _ _ H2) as P2.
  destruct (Z.eq_dec m1 0) as [Z1 | Z1].
  - subst m1. rewrite (round_result_zero _ _ _ H1).
    destruct (Z.eq_dec m2 0) as [Z2 | Z2].
    + subst m2. rewrite (round_result_zero _ _ _ H2). reflexivity.
    + destruct (round_result_value _ _ _ _ H2 ltac:(lia))
        as (m3 & e3 & _ & _ & ->).
      destruct (e3 <=? 104); reflexivity.
  - assert (Q1 : 0 < m1) by lia.
    pose proof (mag_pos m1 E1 Q1) as Hp1.
    assert (Q2 : 0 < m2) by (apply (mag_pos_inv m2 E2); lra).
    destruct (round_result_value _ _ _ _ H1 Q1) as (m3 & e3 & C3 & V3 & ->).
    destruct (round_result_value _ _ _ _ H2 Q2) as (m4 & e4 & C4 & V4 & ->).
    assert (Hm : (mag (Zpos m3) e3 <= mag (Zpos m4) e4)%Q)
      by (rewrite V3, V4; exact Hle).
    pose proof (canonical_exponent_le _ _ _ _ C3 C4 Hm) as He.
    destruct (Z.leb_spec e4 104) as [H4 | H4].
    + destruct (Z.leb_spec e3 104) as [H3 | H3]; [| lia].
      apply SFleb_F2Q; try reflexivity;
        try (apply valid_finite; split; assumption).
      exact Hm.
    + apply leb_infinity_r. destruct (e3 <=? 104); reflexivity.
Qed.

Lemma leb_infinity_l x :
  F32.is_nan x = false -> SFleb (S754_infinity true) x = true.
Proof. destruct x as [? | [] | | [] ? ?]; try discriminate; reflexivity. Qed.

Lemma round_result_leb_neg m1 E1 R1 m2 E2 R2 :
  round_result true m1 E1 R1 -> round_result true m2 E2 R2 ->
  (mag m2 E2 <= mag m1 E1)%Q -> SFleb R1 R2 = true.
Proof.
  intros H1 H2 Hle.
  pose proof (round_result_nonneg _ _ _ _ H1) as P1.
  pose proof (round_result_nonneg _ _ _ _ H2) as P2.
  destruct (Z.eq_dec m2 0) as [Z2 | Z2].
  - subst m2. rewrite (round_result_zero _ _ _ H2).
    destruct (Z.eq_dec m1 0) as [Z1 | Z1].
    + subst m1. rewrite (round_result_zero _ _ _ H1). reflexivity.
    + destruct (round_result_value _ _ _ _ H1 ltac:(lia))
        as (m3 & e3 & _ & _ & ->).
      destruct (e3 <=? 104); reflexivity.
  - assert (Q2 : 0 < m2) by lia.
    pose proof (mag_pos m2 E2 Q2) as Hp2.
    assert (Q1 : 0 < m1) by (apply (mag_pos_inv m1 E1); lra).
    destruct (round_result_value _ _ _ _ H1 Q1) as (m3 & e3 & C3 & V3 & ->).
    destruct (round_result_value _ _ _ _ H2 Q2) as (m4 & e4 & C4 & V4 & ->).
    assert (Hm : (mag (Zpos m4) e4 <= mag (Zpos m3) e3)%Q)
      by (rewrite V3, V4; exact Hle).
    pose proof (canonical_exponent_le _ _ _ _ C4 C3 Hm) as He.
    destruct (Z.leb_spec e3 104) as [H3 | H3].
    + destruct (Z.leb_spec e4 104) as [H4 | H4]; [| lia].
      apply SFleb_F2Q; try reflexivity;
        try (apply valid_finite; split; assumption).
      cbn [F2Q sgn]. lra.
    + apply leb_infinity_l. destruct (e4 <=? 104); reflexivity.
Qed.

Lemma round_result_shape sx m E R :
  round_result sx m E R ->
  R = S754_zero sx \/ R = S754_infinity sx
  \/ exists m3 e3, R = S754_finite sx m3 e3.
Proof.
  intros [[_ H] | (m3 & e3 & _ & _ & _ & ->)]; [left; exact H | right].
  destruct (e3 <=? F32.emax - F32.prec);
    [right; exists m3, e3 | left]; reflexivity.
Qed.

Lemma round_result_leb_mixed m1 E1 R1 m2 E2 R2 :
  round_result true m1 E1 R1 -> round_result false m2 E2 R2 ->
  SFleb R1 R2 = true.
Proof.
  intros H1 H2.
  destruct (round_result_shape _ _ _ _ H1) as [-> | [-> | (m3 & e3 & ->)]];
    destruct (round_result_shape _ _ _ _ H2) as [-> | [-> | (m4 & e4 & ->)]];
    reflexivity.
Qed.

Lemma described_value sx a b ex E v :
  0 < b -> ex <= E ->
  (sgn sx (mag a ex) == inject_Z b * v)%Q ->
  (inject_Z (b * 2 ^ (E - ex)) * sgn sx v == mag a E)%Q.
Proof.
  intros Hb HE Hv.
  assert (Hm : (mag a E == inject_Z (2 ^ (E - ex)) * mag a ex)%Q).
  { unfold mag. rewrite pow2_inject by lia.
    replace E with ((E - ex) + ex) at 1 by lia. rewrite pow2_add. ring. }
  rewrite Hm, inject_Z_mult.
  destruct sx; cbn [sgn] in *.
  - assert ((mag a ex == - (inject_Z b * v))%Q) as -> by lra. ring.
  - rewrite Hv. ring.
Qed.

(** Rounding is monotone: of two exact values, the smaller one does not
    round to the greater float. *)
Lemma rounds_to_mono R1 v1 R2 v2 :
  rounds_to R1 v1 -> rounds_to R2 v2 -> (v1 <= v2)%Q -> SFleb R1 R2 = true.
Proof.
  intros H1 H2 Hle.
  destruct H1 as [(N1 & V1 & Hv1)
                 | (s1 & mx1 & ex1 & lx1 & a1 & b1
                    & Ha1 & Hb1 & Hmx1 & Hlx1 & Hpre1 & HR1 & Hv1)].
  { apply (rounds_to_ge R2 v2 R1 H2 V1 N1). lra. }
  destruct H2 as [(N2 & V2 & Hv2)
                 | (s2 & mx2 & ex2 & lx2 & a2 & b2
                    & Ha2 & Hb2 & Hmx2 & Hlx2 & Hpre2 & HR2 & Hv2)].
  { apply (rounds_to_le R1 v1 R2); [| exact V2 | exact N2 | lra].
    right. exists s1, mx1, ex1, lx1, a1, b1. repeat (split; [assumption |]).
    assumption. }
  destruct (binary_round_aux_nearest s1 mx1 ex1 lx1 a1 b1
              ltac:(lia) Hb1 Hmx1 Hlx1 Hpre1) as (E1 & HE1 & C1 & RR1).
  destruct (binary_round_aux_nearest s2 mx2 ex2 lx2 a2 b2
              ltac:(lia) Hb2 Hmx2 Hlx2 Hpre2) as (E2 & HE2 & C2 & RR2).
  rewrite <- HR1 in RR1. rewrite <- HR2 in RR2.
  pose proof (described_value s1 a1 b1 ex1 E1 v1 Hb1 HE1 Hv1) as D1.
  pose proof (described_value s2 a2 b2 ex2 E2 v2 Hb2 HE2 Hv2) as D2.
  assert (Hb1q : (0 < inject_Z b1)%Q)
    by (change 0%Q with (inject_Z 0); rewrite <- Zlt_Qlt; exact Hb1).
  assert (Hb2q : (0 < inject_Z b2)%Q)
    by (change 0%Q with (inject_Z 0); rewrite <- Zlt_Qlt; exact Hb2).
  pose proof (mag_pos a1 ex1 Ha1) as Hp1.
  pose proof (mag_pos a2 ex2 Ha2) as Hp2.
  destruct s1, s2; cbn [sgn] in *.
  - apply (round_result_leb_neg _ _ _ _ _ _ RR1 RR2).
    apply (round_magnitude_mono a2 _ E2 a1 _ E1 (- v2) (- v1) C2 C1 D2 D1).
    lra.
  - exact (round_result_leb_mixed _ _ _ _ _ _ RR1 RR2).
  - exfalso.
    assert ((0 < inject_Z b1 * v1)%Q) by lra.
    assert ((inject_Z b2 * v2 < 0)%Q) by lra.
    assert ((0 < v1)%Q).
    { destruct (Qlt_le_dec 0 v1) as [H' | H']; [exact H' | exfalso].
      assert ((inject_Z b1 * v1 <= 0)%Q); [| lra].
      setoid_replace 0%Q with (inject_Z b1 * 0)%Q by ring.
      apply Qmult_le_l; assumption. }
    assert ((v2 < 0)%Q).
    { destruct (Qlt_le_dec v2 0) as [H' | H']; [exact H' | exfalso].
      assert ((0 <= inject_Z b2 * v2)%Q); [| lra].
      apply Qmult_le_0_compat; lra. }
    lra.
  - apply (round_result_leb _ _ _ _ _ _ RR1 RR2).
    exact (round_magnitude_mono a1 _ E1 a2 _ E2 v1 v2 C1 C2 D1 D2 Hle).
Qed.

Lemma scaled_offset_mono b1 b2 c d :
  F32.valid b1 = true -> F32.is_finite b1 = true ->
  F32.valid b2 = true -> F32.is_finite b2 = true ->
  (0 <= F2Q b1)%Q -> (F2Q b1 <= F2Q b2)%Q -> (F2Q b2 <= 1)%Q ->
  F32.valid c = true -> F32.is_finite c = true -> (0 < F2Q c)%Q ->
  F32.valid d = true -> F32.is_finite d = true ->
  SFleb (F32.add (F32.mul b1 c) d) (F32.add (F32.mul b2 c) d) = true.
Proof.
  intros V1 N1 V2 N2 H0 H12 H1 Vc Nc Pc Vd Nd.
  destruct literal_values as (Hz & _).
  pose proof (mul_rounds b1 c V1 Vc N1 Nc) as M1.
  pose proof (mul_rounds b2 c V2 Vc N2 Nc) as M2.
  destruct (rounds_to_between _ _ F32.zero c M1)
    as (Vp1 & Np1 & _); try reflexivity; try assumption;
    [rewrite Hz; nra | nra |].
  destruct (rounds_to_between _ _ F32.zero c M2)
    as (Vp2 & Np2 & _); try reflexivity; try assumption;
    [rewrite Hz; nra | nra |].
  assert (Hp : SFleb (F32.mul b1 c) (F32.mul b2 c) = true)
    by (apply (rounds_to_mono _ _ _ _ M1 M2); nra).
  apply SFleb_F2Q in Hp; try assumption.
  apply (rounds_to_mono _ _ _ _
           (add_rounds _ d Vp1 Vd Np1 Nd) (add_rounds _ d Vp2 Vd Np2 Nd)).
  lra.
Qed.

Section InterpolationOrder.
Variables lower range : F32.float.
Hypothesis Vlower : F32.valid lower = true.
Hypothesis Nlower : F32.is_finite lower = true.
Hypothesis Vrange : F32.valid range = true.
Hypothesis Nrange : F32.is_finite range = true.
Hypothesis Prange : F32.ltb F32.zero range = true.

Lemma interpolation_difference level :
  F32.valid level = true -> F32.is_nan level = false ->
  F32.geb level (F32.add lower range) = false ->
  F32.ltb level lower = false ->
  F32.is_finite level = true
  /\ F32.valid (F32.sub level lower) = true
  /\ F32.is_finite (F32.sub level lower) = true.
Proof.
  intros Vlevel Nlevel Hbelow Habove.
  destruct literal_values as (Hz & H1 & _).
  pose proof (add_rounds lower range Vlower Vrange Nlower Nrange) as Hup.
  set (upper := F32.add lower range) in *.
  assert (Hrpos : (0 < F2Q range)%Q)
    by (apply (SFltb_F2Q F32.zero range); auto).
  assert (Nlev : F32.is_finite level = true).
  { destruct level as [s | [] | | s m e]; try reflexivity; try discriminate.
    - unfold F32.ltb in Habove.
      rewrite (ltb_infinity_l lower Nlower) in Habove. discriminate.
    - unfold F32.geb in Hbelow.
      rewrite (leb_infinity_r upper (rounds_to_not_nan _ _ Hup)) in Hbelow.
      discriminate. }
  assert (Hlo : (F2Q lower <= F2Q level)%Q).
  { destruct (Qlt_le_dec (F2Q level) (F2Q lower)) as [H | H]; [| exact H].
    apply (SFltb_F2Q level lower) in H; auto.
    unfold F32.ltb in Habove. congruence. }
  assert (Hhi : (F2Q level < F2Q lower + F2Q range)%Q).
  { destruct (Qlt_le_dec (F2Q level) (F2Q lower + F2Q range)) as [H | H];
      [exact H |].
    pose proof (rounds_to_le upper _ level Hup Vlevel Nlev H) as Hle.
    unfold F32.geb in Hbelow. congruence. }
  destruct (rounds_to_between (F32.sub level lower) (F2Q level - F2Q lower)
              F32.zero range
              (sub_rounds level lower Vlevel Vlower Nlev Nlower))
    as (Vd & Nd & _); try reflexivity; try assumption; try lra.
  auto.
Qed.

Lemma interpolation_ratio_mono level1 level2 :
  F32.valid level1 = true -> F32.valid level2 = true ->
  SFleb level1 level2 = true ->
  F32.geb level1 (F32.add lower range) = false ->
  F32.ltb level1 lower = false ->
  F32.geb level2 (F32.add lower range) = false ->
  F32.ltb level2 lower = false ->
  let b1 := F32.div (F32.sub level1 lower) range in
  let b2 := F32.div (F32.sub level2 lower) range in
  (F2Q b1 <= F2Q b2)%Q.
Proof.
  intros V1 V2 Hle Hb1 Ha1 Hb2 Ha2 b1 b2.
  destruct (SFleb_not_nan _ _ Hle) as [N1 N2].
  destruct (interpolation_difference level1 V1 N1 Hb1 Ha1) as (F1 & Vd1 & Fd1).
  destruct (interpolation_difference level2 V2 N2 Hb2 Ha2) as (F2 & Vd2 & Fd2).
  destruct (interpolation_ratio lower range level1
              Vlower Nlower Vrange Nrange Prange V1 N1 Hb1 Ha1)
    as (Vq1 & Fq1 & _).
  destruct (interpolation_ratio lower range level2
              Vlower Nlower Vrange Nrange Prange V2 N2 Hb2 Ha2)
    as (Vq2 & Fq2 & _).
  cbv zeta in Vq1, Fq1, Vq2, Fq2. fold b1 in Vq1, Fq1. fold b2 in Vq2, Fq2.
  apply (SFleb_F2Q level1 level2 V1 V2 F1 F2) in Hle.
  assert (Hd : SFleb (F32.sub level1 lower) (F32.sub level2 lower) = true).
  { apply (rounds_to_mono _ _ _ _
             (sub_rounds level1 lower V1 Vlower F1 Nlower)
             (sub_rounds level2 lower V2 Vlower F2 Nlower)). lra. }
  apply SFleb_F2Q in Hd; try assumption.
  assert (Hrpos : (0 < F2Q range)%Q)
    by (apply (SFltb_F2Q F32.zero range); auto).
  apply SFleb_F2Q; try assumption.
  subst b1 b2.
  destruct range as [? | ? | | [] my ey] eqn:Er; try discriminate;
    cbn [F2Q sgn] in Hrpos; try lra.
  apply (rounds_to_mono _ _ _ _
           (div_rounds _ my ey Vd1 Fd1) (div_rounds _ my ey Vd2 Fd2)).
  unfold Qdiv. apply Qmult_le_compat_r; [exact Hd |].
  apply Qinv_le_0_compat. lra.
Qed.

End InterpolationOrder.

Lemma levelBrightness_monotone s nl1 nl2 dl :
  F32.valid (lowerThreshold s) = true ->
  F32.is_nan (lowerThreshold s) = false ->
  F32.valid (thresholdRange s) = true ->
  F32.is_finite (thresholdRange s) = true ->
  F32.ltb F32.zero (thresholdRange s) = true ->
  thresholdsConsistent s ->
  F32.valid nl1 = true -> F32.valid nl2 = true ->
  F32.leb nl1 nl2 = true ->
  F32.leb (fst (levelBrightness s nl1 dl)) (fst (levelBrightness s nl2 dl))
  = true.
Proof.
  intros Vl NnL Vr Fr Pr Hc V1 V2 Hle.
  destruct (SFleb_not_nan _ _ Hle) as [N1 N2].
  pose proof (levelBrightness_in_range s nl1 dl Vl NnL Vr Fr Pr Hc V1 N1) as R1.
  pose proof (levelBrightness_in_range s nl2 dl Vl NnL Vr Fr Pr Hc V2 N2) as R2.
  apply andb_true_iff in R1. destruct R1 as [R1 _].
  apply andb_true_iff in R1. destruct R1 as [R1 _].
  apply andb_true_iff in R1. destruct R1 as [R1lo R1hi].
  apply andb_true_iff in R2. destruct R2 as [R2 _].
  apply andb_true_iff in R2. destruct R2 as [R2 _].
  apply andb_true_iff in R2. destruct R2 as [R2lo R2hi].
  destruct (upper_not_below_lower _ _ Vl NnL Vr Fr (ltb_leb _ _ Pr))
    as (Hlu & Nu & Vu).
  rewrite <- Hc in Hlu, Nu, Vu.
  unfold levelBrightness in *.
  destruct (F32.geb nl2 (upperThreshold s)) eqn:G2.
  { destruct (F32.geb nl1 (upperThreshold s)); [reflexivity |].
    destruct (F32.geb dl (lowerThreshold s)
              && F32.ltb dl (upperThreshold s)); [reflexivity |].
    exact R1hi. }
  assert (G1 : F32.geb nl1 (upperThreshold s) = false).
  { destruct (F32.geb nl1 (upperThreshold s)) eqn:G1; [| reflexivity].
    unfold F32.geb, F32.leb in *.
    rewrite (SFleb_trans _ _ _ Vu V1 V2 G1 Hle) in G2. discriminate. }
  rewrite G1 in *.
  destruct (F32.geb dl (lowerThreshold s) && F32.ltb dl (upperThreshold s));
    [reflexivity |].
  destruct (F32.ltb nl1 (lowerThreshold s)) eqn:L1.
  { exact R2lo. }
  assert (L2 : F32.ltb nl2 (lowerThreshold s) = false).
  { destruct (F32.ltb nl2 (lowerThreshold s)) eqn:L2; [| reflexivity].
    unfold F32.ltb, F32.leb in *.
    apply SFltb_F2Qx in L2; auto. apply SFleb_F2Qx in Hle; auto.
    apply SFltb_false_F2Qx in L1; auto. lra. }
  rewrite L2 in *. cbn [fst] in *.
  rewrite Hc in G1, G2.
  assert (Fl : F32.is_finite (lowerThreshold s) = true).
  { destruct (lowerThreshold s) as [? | sl | | ? ? ?];
      try reflexivity; [exfalso | discriminate NnL].
    unfold F32.geb, F32.ltb, F32.add in G1, L1.
    destruct (thresholdRange s) as [? | ? | | ? ? ?]; try discriminate Fr;
      destruct sl; destruct nl1 as [? | [] | | [] ? ?];
      try discriminate N1; cbn in G1, L1; discriminate. }
  pose proof (interpolation_ratio_mono (lowerThreshold s) (thresholdRange s)
                Vl Fl Vr Fr Pr nl1 nl2 V1 V2 Hle G1 L1 G2 L2) as Hq.
  destruct (interpolation_ratio (lowerThreshold s) (thresholdRange s) nl1
              Vl Fl Vr Fr Pr V1 N1 G1 L1) as (Vq1 & Fq1 & Q10 & Q11).
  destruct (interpolation_ratio (lowerThreshold s) (thresholdRange s) nl2
              Vl Fl Vr Fr Pr V2 N2 G2 L2) as (Vq2 & Fq2 & Q20 & Q21).
  cbv zeta in Hq, Vq1, Fq1, Q10, Q11, Vq2, Fq2, Q20, Q21.
  destruct literal_values as (_ & _ & _ & _ & P72 & _).
  unfold F32.leb.
  apply scaled_offset_mono; try assumption; reflexivity.
Qed.

(** X13: the fill brightness never falls when the normal level rises: for
    numeric thresholds with a finite positive range, a segment given a
    greater normal level (and the same discrete level) is at least as
    bright. *)
Theorem fBrightness_monotone :
  forall (s : GenericMeterSegment)
         (normalLevel1 normalLevel2 discreteLevel : F32.float)
         (normalLevelPeak1 discreteLevelPeak1 : F32.float)
         (normalLevelPeak2 discreteLevelPeak2 : F32.float),
    F32.valid (lowerThreshold s) = true ->
    F32.is_nan (lowerThreshold s) = false ->
    F32.valid (thresholdRange s) = true ->
    F32.is_finite (thresholdRange s) = true ->
    F32.ltb F32.zero (thresholdRange s) = true ->
    thresholdsConsistent s ->
    F32.valid normalLevel1 = true -> F32.valid normalLevel2 = true ->
    F32.leb normalLevel1 normalLevel2 = true ->
    F32.leb
      (fBrightness (setLevels s normalLevel1 discreteLevel
                              normalLevelPeak1 discreteLevelPeak1))
      (fBrightness (setLevels s normalLevel2 discreteLevel
                              normalLevelPeak2 discreteLevelPeak2))
    = true.
Proof.
  intros s nl1 nl2 dl p1 q1 p2 q2 Vl NnL Vr Fr Pr Hc V1 V2 Hle.
  destruct (setLevels_fields s nl1 dl p1 q1) as (-> & _ & _).
  destruct (setLevels_fields s nl2 dl p2 q2) as (-> & _ & _).
  apply levelBrightness_monotone; assumption.
Qed.

(** The outline brightness is not monotone: just below the upper
    threshold it reaches [0.60f + 0.30f], above it the literal [0.90f]. *)
Lemma fBrightnessOutline_not_monotone :
  let s := exampleSegment in
  F32.leb exampleLevel (upperThreshold s) = true
  /\ F32.ltb
       (fBrightnessOutline
          (setNormalLevels s (upperThreshold s) F32.lit_m144))
       (fBrightnessOutline (setNormalLevels s exampleLevel F32.lit_m144))
     = true.
Proof. vm_compute. split; reflexivity. Qed.


(* ===================================================================== *)
(** * Facts: the constructor, discrete levels, stacks                   *)
(* ===================================================================== *)

Lemma not_geb_ltb x y :
  F32.is_nan x = false -> F32.is_nan y = false ->
  SFleb y x = false -> SFltb x y = true.
Proof.
  intros Nx Ny H. destruct (SFltb x y) eqn:E; [reflexivity |].
  rewrite (not_ltb_geb x y Nx Ny E) in H. discriminate.
Qed.

Lemma add_nan_cases x y :
  F32.is_nan x = false -> F32.is_nan (F32.add x y) = true ->
  y = S754_nan
  \/ (x = S754_infinity true /\ y = S754_infinity false)
  \/ (x = S754_infinity false /\ y = S754_infinity true).
Proof.
  intros Nx H.
  destruct x as [sx | sx | | sx mx ex]; try discriminate Nx;
    destruct y as [sy | sy | | sy my ey]; auto;
    try (destruct sx, sy; cbn in H; try discriminate H; auto; fail).
  exfalso. unfold F32.add in H. cbn [SFadd] in H.
  rewrite (rounds_to_not_nan _ _ (normalize_rounds _ _)) in H. discriminate.
Qed.

Lemma nan_propagates x :
  F32.add (F32.mul (F32.div x S754_nan) F32.lit_0_72) F32.lit_0_25
  = S754_nan
  /\ F32.add (F32.mul (F32.div (F32.sub x S754_nan) S754_nan) F32.lit_0_72)
             F32.lit_0_25 = S754_nan.
Proof. destruct x as [[] | [] | | [] ? ?]; split; reflexivity. Qed.

(** The brightness the constructor's [setLevels(-144, -144, -144, -144)]
    computes. *)
Lemma initial_brightness s :
  thresholdsConsistent s ->
  let b := fst (levelBrightness s F32.lit_m144 F32.lit_m144) in
  (b = F32.lit_0_97 \/ b = F32.lit_0_25
   \/ (b = S754_nan /\ F32.is_nan (upperThreshold s) = true)).
Proof.
  intros Hc b. subst b. unfold levelBrightness.
  destruct (F32.geb F32.lit_m144 (upperThreshold s)) eqn:G1; [auto |].
  destruct (F32.geb F32.lit_m144 (lowerThreshold s)) eqn:G2.
  - destruct (F32.ltb F32.lit_m144 (upperThreshold s)) eqn:L2; [auto |].
    cbn [andb].
    destruct (F32.ltb F32.lit_m144 (lowerThreshold s)) eqn:L3; [auto |].
    right; right.
    assert (Nu : F32.is_nan (upperThreshold s) = true).
    { destruct (F32.is_nan (upperThreshold s)) eqn:Nu; [reflexivity |].
      unfold F32.geb, F32.ltb in *.
      rewrite (not_geb_ltb F32.lit_m144 _ eq_refl Nu G1) in L2.
      discriminate. }
    split; [| exact Nu].
    destruct (SFleb_not_nan _ _ G2) as [Nl _].
    rewrite Hc in Nu. cbn [fst].
    destruct (add_nan_cases _ _ Nl Nu) as [-> | [[El ->] | [El ->]]].
    + apply nan_propagates.
    + rewrite El. reflexivity.
    + rewrite El in L3. discriminate.
  - cbn [andb].
    destruct (F32.ltb F32.lit_m144 (lowerThreshold s)) eqn:L3; [auto |].
    right; right.
    assert (Nl : F32.is_nan (lowerThreshold s) = true).
    { destruct (F32.is_nan (lowerThreshold s)) eqn:Nl; [reflexivity |].
      unfold F32.geb, F32.ltb in *.
      rewrite (not_geb_ltb F32.lit_m144 _ eq_refl Nl G2) in L3.
      discriminate. }
    unfold thresholdsConsistent in Hc. rewrite Hc.
    destruct (lowerThreshold s) eqn:El; try discriminate Nl.
    cbn [fst]. split; [| reflexivity].
    destruct (thresholdRange s) as [[] | [] | | [] ? ?]; reflexivity.
Qed.

(** X14: the constructor makes sure the segment is drawn: whatever the
    arguments, NaNs and infinities included, it requests exactly one
    repaint, and it leaves [fBrightness] at 0.97f, at 0.25f, or at a NaN
    (only when the upper threshold is a NaN), never at the 0.0f it was
    initialised with. *)
Theorem newGenericMeterSegment_repaints_once :
  forall (raw : GenericMeterSegment)
         (fLowerThreshold fDisplayRange : F32.float) (bHasHighestLevel : bool),
    let s := newGenericMeterSegment raw fLowerThreshold fDisplayRange
                                    bHasHighestLevel in
    repaintRequests s = S (repaintRequests raw)
    /\ (fBrightness s = F32.lit_0_97
        \/ fBrightness s = F32.lit_0_25
        \/ (fBrightness s = F32.nan
            /\ F32.is_nan (upperThreshold s) = true)).
Proof.
  intros raw lower range h s. subst s.
  unfold newGenericMeterSegment.
  set (s2 := {| lowerThreshold := _ |}).
  assert (Hc : thresholdsConsistent s2) by reflexivity.
  pose proof (initial_brightness s2 Hc) as Hb. cbv zeta in Hb.
  destruct (setLevels_frame s2 F32.lit_m144 F32.lit_m144 F32.lit_m144
              F32.lit_m144) as (_ & _ & -> & _ & _).
  destruct (setLevels_fields s2 F32.lit_m144 F32.lit_m144 F32.lit_m144
              F32.lit_m144) as (-> & _ & _).
  split; [| exact Hb].
  unfold setLevels.
  destruct (levelBrightness s2 F32.lit_m144 F32.lit_m144) as [b o].
  cbn [fst] in Hb. cbn [repaintRequests fBrightness s2 setThresholds snd].
  destruct Hb as [-> | [-> | [-> _]]]; reflexivity.
Qed.

(** X15: [setDiscreteLevels] never interpolates: with the thresholds above
    -144 and a finite range that is not negative, the segment is fully lit
    when the discrete level is within the thresholds and dark
    otherwise. *)
Theorem setDiscreteLevels_two_valued :
  forall (s : GenericMeterSegment) (discreteLevel discreteLevelPeak : F32.float),
    F32.valid (lowerThreshold s) = true ->
    F32.valid (thresholdRange s) = true ->
    F32.is_finite (thresholdRange s) = true ->
    F32.leb F32.zero (thresholdRange s) = true ->
    thresholdsConsistent s ->
    F32.ltb F32.lit_m144 (lowerThreshold s) = true ->
    let s' := setDiscreteLevels s discreteLevel discreteLevelPeak in
    (fBrightness s', fBrightnessOutline s')
    = if F32.geb discreteLevel (lowerThreshold s)
         && F32.ltb discreteLevel (upperThreshold s)
      then (F32.lit_0_97, F32.lit_0_90)
      else (F32.lit_0_25, F32.lit_0_30).
Proof.
  intros s dl dp Vl Vr Fr Pr Hc H144 s'. subst s'.
  unfold setDiscreteLevels.
  destruct (setLevels_fields s F32.lit_m144 dl F32.lit_m144 dp)
    as (-> & -> & _).
  destruct (SFltb_not_nan _ _ H144) as [_ Nl].
  destruct (upper_not_below_lower _ _ Vl Nl Vr Fr Pr) as (Hlu & Nu & Vu).
  rewrite <- Hc in Hlu, Vu.
  assert (G1 : F32.geb F32.lit_m144 (upperThreshold s) = false).
  { unfold F32.geb. apply ltb_not_geb.
    exact (SFltb_leb_trans _ _ _ minus144_valid Vl Vu H144 Hlu). }
  unfold levelBrightness. rewrite G1, H144.
  destruct (F32.geb dl (lowerThreshold s) && F32.ltb dl (upperThreshold s));
    reflexivity.
Qed.

Lemma float_eq_dec (x y : spec_float) : {x = y} + {x <> y}.
Proof.
  decide equality; first [apply Bool.bool_dec | apply Z.eq_dec
                          | apply Pos.eq_dec].
Qed.

(** X16: in a stack of two segments with numeric thresholds above -144,
    the upper segment is never brighter than the lower one for the same
    normal level, whatever that level is: [fBrightness] of the lower
    segment is never less than that of the upper one (at a NaN level both
    are NaN, and no comparison holds); and for a level that is not a NaN
    the upper segment's [fBrightness] is less than or equal to the lower
    one's. *)
Theorem stacked_segments_brightness_ordered :
  forall (rawA rawB : GenericMeterSegment)
         (lowerA rangeA rangeB : F32.float) (highestA highestB : bool)
         (level pA pB : F32.float),
    F32.valid lowerA = true ->
    F32.valid rangeA = true -> F32.is_finite rangeA = true ->
    F32.ltb F32.zero rangeA = true ->
    F32.ltb F32.lit_m144 lowerA = true ->
    F32.valid rangeB = true -> F32.is_finite rangeB = true ->
    F32.ltb F32.zero rangeB = true ->
    F32.valid level = true ->
    let rA := setThresholds rawA lowerA rangeA highestA in
    let A := snd rA in
    let B := snd (setThresholds rawB (fst rA) rangeB highestB) in
    F32.ltb (fBrightness (setNormalLevels A level pA))
            (fBrightness (setNormalLevels B level pB)) = false
    /\ (F32.is_nan level = false ->
        F32.leb (fBrightness (setNormalLevels B level pB))
                (fBrightness (setNormalLevels A level pA)) = true).
Proof.
  intros rawA rawB lowerA rangeA rangeB hA hB level pA pB
         VlA VrA FrA PrA H144 VrB FrB PrB Vn rA A B.
  assert (Hnum : F32.is_nan level = false ->
                 F32.leb (fBrightness (setNormalLevels B level pB))
                         (fBrightness (setNormalLevels A level pA)) = true).
  { intros Nn.
    destruct (SFltb_not_nan _ _ H144) as [_ NlA].
    destruct (upper_not_below_lower lowerA rangeA VlA NlA VrA FrA
                (ltb_leb _ _ PrA)) as (_ & Nu & Vu).
    pose proof (levelBrightness_in_range A level F32.lit_m144
                  VlA NlA VrA FrA PrA eq_refl Vn Nn) as RA.
    pose proof (levelBrightness_in_range B level F32.lit_m144
                  Vu Nu VrB FrB PrB eq_refl Vn Nn) as RB.
    apply andb_true_iff in RA. destruct RA as [RA _].
    apply andb_true_iff in RA. destruct RA as [RA _].
    apply andb_true_iff in RA. destruct RA as [RAlo _].
    apply andb_true_iff in RB. destruct RB as [RB _].
    apply andb_true_iff in RB. destruct RB as [RB _].
    apply andb_true_iff in RB. destruct RB as [_ RBhi].
    destruct (float_eq_dec (fBrightness (setNormalLevels B level pB))
                F32.lit_0_25) as [Hd | Hd].
    - rewrite Hd. unfold setNormalLevels.
      destruct (setLevels_fields A level F32.lit_m144 pA F32.lit_m144)
        as (-> & _ & _).
      exact RAlo.
    - destruct (stacked_lit rawA rawB lowerA rangeA rangeB hA hB
                  VlA VrA FrA (ltb_leb _ _ PrA) H144 VrB FrB (ltb_leb _ _ PrB)
                  level pA pB Vn Nn Hd) as [HA _].
      fold rA in HA. fold A in HA. rewrite HA. unfold setNormalLevels.
      destruct (setLevels_fields B level F32.lit_m144 pB F32.lit_m144)
        as (-> & _ & _).
      exact RBhi. }
  split; [| exact Hnum].
  destruct (F32.is_nan level) eqn:Nn.
  - destruct level; try discriminate Nn.
    destruct (stacked_nan_level rawA rawB lowerA rangeA rangeB hA hB
                VlA VrA FrA (ltb_leb _ _ PrA) H144 pA pB) as [HA _].
    fold rA in HA. fold A in HA.
    change S754_nan with F32.nan. rewrite HA. reflexivity.
  - specialize (Hnum eq_refl).
    destruct (F32.ltb (fBrightness (setNormalLevels A level pA))
                      (fBrightness (setNormalLevels B level pB))) eqn:Hlt;
      [| reflexivity].
    unfold F32.ltb, F32.leb in *.
    rewrite (ltb_not_geb _ _ Hlt) in Hnum. discriminate.
Qed.


(* ===================================================================== *)
(** * Concrete runs                                                     *)
(* ===================================================================== *)

Lemma setThresholds_upper_not_below_lower_witness :
  let r := setThresholds blankSegment exampleLower exampleRange false in
  F32.leb F32.zero exampleRange = true
  /\ F32.leb (lowerThreshold (snd r)) (fst r) = true
  /\ F32.leb (lowerThreshold (snd r)) (upperThreshold (snd r)) = true
  /\ F32.is_nan (upperThreshold (snd r)) = false.
Proof.
  cbv zeta. split; [reflexivity |].
  apply (setThresholds_upper_not_below_lower blankSegment exampleLower
           exampleRange false); reflexivity.
Defined.

Lemma setNormalLevels_below_lower_dark_witness :
  F32.ltb (F32.of_Z (-20)) (lowerThreshold exampleSegment) = true
  /\ fBrightness (setNormalLevels exampleSegment (F32.of_Z (-20)) F32.zero)
     = F32.lit_0_25
  /\ fBrightnessOutline
       (setNormalLevels exampleSegment (F32.of_Z (-20)) F32.zero)
     = F32.lit_0_30.
Proof.
  split; [reflexivity |].
  apply (setNormalLevels_below_lower_dark exampleSegment (F32.of_Z (-20))
           F32.zero); reflexivity.
Defined.

Lemma newGenericMeterSegment_starts_dark_witness :
  F32.ltb F32.lit_m144 exampleLower = true
  /\ fBrightness exampleSegment = F32.lit_0_25
  /\ fBrightnessOutline exampleSegment = F32.lit_0_30
  /\ lightPeakMarker exampleSegment = false
  /\ fHue exampleSegment = F32.zero
  /\ repaintRequests exampleSegment = S (repaintRequests blankSegment)
  /\ lowerThreshold exampleSegment = exampleLower
  /\ thresholdRange exampleSegment = exampleRange
  /\ upperThreshold exampleSegment = F32.add exampleLower exampleRange
  /\ hasHighestLevel exampleSegment = false.
Proof.
  split; [reflexivity |].
  apply (newGenericMeterSegment_starts_dark blankSegment exampleLower
           exampleRange false); reflexivity.
Defined.

Lemma setNormalLevels_at_lower_dark_witness :
  let s' := setNormalLevels exampleSegment (lowerThreshold exampleSegment)
                            F32.zero in
  F32.ltb (lowerThreshold exampleSegment) (upperThreshold exampleSegment)
  = true
  /\ F32.ltb (lowerThreshold exampleSegment) (lowerThreshold exampleSegment)
     = false
  /\ fBrightness s' = F32.lit_0_25
  /\ fBrightnessOutline s' = F32.lit_0_30.
Proof.
  cbv zeta. split; [reflexivity |].
  apply (setNormalLevels_at_lower_dark exampleSegment F32.zero); reflexivity.
Defined.

Lemma setDiscreteLevels_two_valued_witness :
  let s' := setDiscreteLevels exampleSegment (F32.of_Z (-8)) F32.zero in
  F32.ltb F32.lit_m144 (lowerThreshold exampleSegment) = true
  /\ (fBrightness s', fBrightnessOutline s')
     = if F32.geb (F32.of_Z (-8)) (lowerThreshold exampleSegment)
          && F32.ltb (F32.of_Z (-8)) (upperThreshold exampleSegment)
       then (F32.lit_0_97, F32.lit_0_90)
       else (F32.lit_0_25, F32.lit_0_30).
Proof.
  cbv zeta. split; [reflexivity |].
  apply (setDiscreteLevels_two_valued exampleSegment (F32.of_Z (-8))
           F32.zero); reflexivity.
Defined.

Lemma fBrightness_monotone_witness :
  F32.leb (F32.of_Z (-8)) (F32.of_Z (-2)) = true
  /\ F32.leb
       (fBrightness (setLevels exampleSegment (F32.of_Z (-8)) F32.lit_m144
                               F32.zero F32.zero))
       (fBrightness (setLevels exampleSegment (F32.of_Z (-2)) F32.lit_m144
                               F32.one F32.one))
     = true.
Proof.
  split; [reflexivity |].
  apply (fBrightness_monotone exampleSegment (F32.of_Z (-8)) (F32.of_Z (-2))
           F32.lit_m144 F32.zero F32.zero F32.one F32.one); reflexivity.
Defined.

Lemma topmost_peak_marker_monotone_witness :
  hasHighestLevel exampleTopSegment = true
  /\ F32.leb F32.zero F32.one = true
  /\ lightPeakMarker (setNormalLevels exampleTopSegment F32.zero F32.zero)
     = true
  /\ lightPeakMarker (setNormalLevels exampleTopSegment F32.lit_m144 F32.one)
     = true.
Proof.
  split; [reflexivity |]. split; [reflexivity |]. split; [reflexivity |].
  apply (topmost_peak_marker_monotone exampleTopSegment F32.zero F32.lit_m144
           F32.zero F32.one); reflexivity.
Defined.

Lemma stacked_segments_lit_from_below_witness :
  let rA := setThresholds blankSegment exampleLower exampleRange false in
  let A := snd rA in
  let B := snd (setThresholds blankSegment (fst rA) exampleRange true) in
  fBrightness (setNormalLevels B F32.one F32.one) <> F32.lit_0_25
  /\ fBrightness (setNormalLevels A F32.one F32.one) = F32.lit_0_97
  /\ fBrightnessOutline (setNormalLevels A F32.one F32.one) = F32.lit_0_90.
Proof.
  cbv zeta. split; [vm_compute; discriminate |].
  apply (stacked_segments_lit_from_below blankSegment blankSegment
           exampleLower exampleRange exampleRange false true
           F32.one F32.one F32.one); try reflexivity.
  vm_compute; discriminate.
Defined.

Lemma stacked_segments_brightness_ordered_witness :
  let rA := setThresholds blankSegment exampleLower exampleRange false in
  let A := snd rA in
  let B := snd (setThresholds blankSegment (fst rA) exampleRange true) in
  F32.ltb F32.zero exampleRange = true
  /\ F32.ltb (fBrightness (setNormalLevels A F32.one F32.one))
             (fBrightness (setNormalLevels B F32.one F32.one)) = false
  /\ F32.leb (fBrightness (setNormalLevels B F32.one F32.one))
             (fBrightness (setNormalLevels A F32.one F32.one)) = true
  /\ F32.ltb (fBrightness (setNormalLevels A F32.nan F32.one))
             (fBrightness (setNormalLevels B F32.nan F32.one)) = false.
Proof.
  cbv zeta. split; [reflexivity |].
  destruct (stacked_segments_brightness_ordered blankSegment blankSegment
              exampleLower exampleRange exampleRange false true
              F32.one F32.one F32.one
              eq_refl eq_refl eq_refl eq_refl eq_refl eq_refl eq_refl eq_refl
              eq_refl) as [H1 H2].
  split; [exact H1 |]. split; [exact (H2 eq_refl) |].
  apply (stacked_segments_brightness_ordered blankSegment blankSegment
           exampleLower exampleRange exampleRange false true
           F32.nan F32.one F32.one); reflexivity.
Defined.

Lemma stacked_segments_one_peak_marker_witness :
  let rA := setThresholds blankSegment exampleLower exampleRange false in
  let A := snd rA in
  let B := snd (setThresholds blankSegment (fst rA) exampleRange true) in
  F32.valid F32.one = true
  /\ lightPeakMarker (setNormalLevels A F32.zero F32.one)
     && lightPeakMarker (setNormalLevels B F32.zero F32.one) = false
  /\ lightPeakMarker (setNormalLevels A F32.zero F32.one)
     || lightPeakMarker (setNormalLevels B F32.zero F32.one)
     = F32.geb F32.one exampleLower.
Proof.
  cbv zeta. split; [reflexivity |].
  destruct (stacked_segments_one_peak_marker blankSegment blankSegment
              exampleLower exampleRange exampleRange true
              F32.zero F32.zero F32.one
              eq_refl eq_refl eq_refl eq_refl eq_refl eq_refl) as [H1 H2].
  split; [exact H1 | exact (H2 eq_refl)].
Defined.


Lemma paint_after_setColour_witness :
  let c' := calls exampleColour exampleColourHSBA
              (setColour exampleColour
                 (newSegmentComponent exampleColour exampleComponent
                    exampleLower exampleRange false)
                 F32.lit_0_30 None)
              exampleCalls in
  existsb (isSetColour exampleColour) exampleCalls = false
  /\ lightPeakMarker (segment c') = true
  /\ paint exampleColour exampleColourHSBA c' 12 6
     = [ GSetColour (exampleColourHSBA F32.lit_0_30 F32.one
                       (fBrightnessOutline (segment c')) F32.one);
         GDrawRect 1 1 (12 - 2) (6 - 2);
         GSetColour (exampleColourHSBA F32.lit_0_30 F32.one
                       (fBrightness (segment c')) F32.one);
         GFillRect 2 2 (12 - 4) (6 - 4) ]
       ++ (if lightPeakMarker (segment c')
           then [ GSetColour None; GDrawRect 0 0 12 6 ]
           else []).
Proof.
  cbv zeta. split; [reflexivity |]. split; [reflexivity |].
  apply (paint_after_setColour exampleColour exampleColourHSBA
           (newSegmentComponent exampleColour exampleComponent
              exampleLower exampleRange false)
           F32.lit_0_30 None exampleCalls 12 6); reflexivity.
Defined.

Lemma setThresholds_hides_marker_without_repaint_witness :
  let s := setNormalLevels exampleSegment exampleLevel exampleLevel in
  let s1 := snd (setThresholds s exampleLower exampleRange false) in
  let s2 := setLevels s1 exampleLevel F32.lit_m144 F32.lit_m144
                      F32.lit_m144 in
  lightPeakMarker s = true
  /\ lightPeakMarker s2 = false
  /\ repaintRequests s1 = repaintRequests s
  /\ repaintRequests s2 = repaintRequests s
  /\ lightPeakMarker s2 <> lightPeakMarker s.
Proof.
  cbv zeta. split; [reflexivity |]. split; [reflexivity |].
  apply (setThresholds_hides_marker_without_repaint
           (setNormalLevels exampleSegment exampleLevel exampleLevel)
           exampleLower exampleRange false
           exampleLevel F32.lit_m144 F32.lit_m144 F32.lit_m144); reflexivity.
Defined.
